(** * transcription-app: the chunk / transcribe / clean-up pipeline

    A shallow embedding of [src/app/api/transcribe/route.ts] (the minimal
    endpoint), of its near-duplicate with retries, of the client-side
    validators of [src/lib/utils.ts] and of the PDF writer
    ([src/unnamed/part_001]).

    Conventions of the embedding.
    - A JavaScript string is a [string], read as its sequence of code units,
      all below 256 (Latin-1); [toLowerCase] and [trim] are the JavaScript
      ones on that range, and the [/i] flag of a pattern of ASCII letters
      folds the case of ASCII letters only, as it does in JavaScript.
    - A JavaScript number that holds a byte count, an index or a clock value
      is a [Z].
    - A [Buffer] is a [list byte].
    - The file system is a finite map from paths to contents; [writeFile]
      stores, [unlink] removes. On the disk of the first sections reading
      or unlinking an absent path is the only way a file operation fails;
      [Faulty] is the same code on a disk that can refuse any read, write
      or unlink, and the clean-up is stated there.
    - The speech-to-text service, the clock and the PDF renderer are oracles
      carried by the [World]; asynchronous code is sequenced by state passing
      (every [await] is a step of the state).
    - The PDF writer is modelled on its own, as the list of pages and draws
      it hands to the serialiser; the font's width function and the date
      text are parameters, lengths on the page are rationals. *)

From Stdlib Require Import ZArith Ascii String Strings.Byte List Lia Bool.
From Stdlib Require Import Numbers.DecimalString Numbers.DecimalZ Numbers.DecimalPos.
From Stdlib Require Import QArith Lqa.
From stdpp Require Import base option list gmap strings.
From Equations Require Import Equations.

Local Open Scope Z_scope.

(** ** Strings *)

Module JsString.

Definition chars (s : string) : list ascii := list_ascii_of_string s.

(** [s.length] *)
Definition len (s : string) : Z := Z.of_nat (String.length s).

(** The code units below 256 that [toLowerCase] changes: A-Z, and the
    capital letters U+00C0-U+00DE of Latin-1 (the multiplication sign U+00D7
    is not one); each is 32 below its small letter. *)
Definition is_upper (c : ascii) : bool :=
  let n := nat_of_ascii c in
  ((65 <=? n) && (n <=? 90) ||
   (192 <=? n) && (n <=? 222) && negb (n =? 215))%nat.

Definition lower_char (c : ascii) : ascii :=
  if is_upper c then ascii_of_nat (nat_of_ascii c + 32) else c.

(** [s.toLowerCase()] *)
Fixpoint toLowerCase (s : string) : string :=
  match s with
  | EmptyString => EmptyString
  | String c r => String (lower_char c) (toLowerCase r)
  end.

(** [s.endsWith(suf)], also the meaning of a regular expression
    [/suf$/] for a literal [suf]. *)
Definition endsWith (suf s : string) : bool :=
  let n := String.length s in
  let k := String.length suf in
  (k <=? n)%nat && String.eqb (substring (n - k) k s) suf.

(** [s.startsWith(pre)] *)
Definition startsWith (pre s : string) : bool := String.prefix pre s.

(** [s.includes(sub)] *)
Fixpoint includes (sub s : string) : bool :=
  String.prefix sub s ||
  match s with
  | EmptyString => false
  | String _ r => includes sub r
  end.

(** [s.slice(a, b)] for [0 <= a], [0 <= b] *)
Definition slice (a b : Z) (s : string) : string :=
  substring (Z.to_nat a) (Z.to_nat (b - a)) s.

(** The white space and line terminators below 256, which [trim] strips:
    TAB, LF, VT, FF, CR, SP and the no-break space U+00A0. *)
Definition is_space (c : ascii) : bool :=
  let n := nat_of_ascii c in
  ((9 <=? n)%nat && (n <=? 13)%nat) || (n =? 32)%nat || (n =? 160)%nat.

Fixpoint trimStart (s : string) : string :=
  match s with
  | EmptyString => EmptyString
  | String c r => if is_space c then trimStart r else s
  end.

(** [trimEnd] keeps a character when it is not a space or when something
    is kept after it. *)
Fixpoint trimEnd (s : string) : string :=
  match s with
  | EmptyString => EmptyString
  | String c r =>
      match trimEnd r with
      | EmptyString => if is_space c then EmptyString else String c EmptyString
      | r' => String c r'
      end
  end.

(** [s.trim()] *)
Definition trim (s : string) : string := trimEnd (trimStart s).

(** [arr.join(sep)] *)
Fixpoint join (sep : string) (l : list string) : string :=
  match l with
  | [] => EmptyString
  | [x] => x
  | x :: r => x +:+ sep +:+ join sep r
  end.

(** [s.split(sep)[0]] for a one-character separator: the part of [s]
    before the first [sep]. *)
Fixpoint split_head (sep : ascii) (s : string) : string :=
  match s with
  | EmptyString => EmptyString
  | String c r => if Ascii.eqb c sep then EmptyString else String c (split_head sep r)
  end.

Definition is_digit (c : ascii) : bool :=
  let n := nat_of_ascii c in (48 <=? n)%nat && (n <=? 57)%nat.

Fixpoint all_digits (s : string) : bool :=
  match s with
  | EmptyString => true
  | String c r => is_digit c && all_digits r
  end.

(** A blank string: nothing but white space. *)
Fixpoint blank (s : string) : bool :=
  match s with
  | EmptyString => true
  | String c r => is_space c && blank r
  end.

(** The decimal text of an integer, as a template literal prints it. *)
Definition of_Z (z : Z) : string := NilZero.string_of_int (Z.to_int z).

End JsString.

(** ** [path] (POSIX flavour) *)

Module Path.

Record ExtScan := mkExtScan {
  startDot : Z;
  startPart : Z;
  endPos : Z;
  matchedSlash : bool;
  preDotState : Z
}.

Definition scan0 : ExtScan := mkExtScan (-1) 0 (-1) true 0.

(** The backwards loop of [path.extname]: [rev_chars] are the characters
    at indices [i], [i-1], ..., [0]. *)
Fixpoint extname_loop (rev_chars : list ascii) (i : Z) (st : ExtScan) : ExtScan :=
  match rev_chars with
  | [] => st
  | c :: rest =>
      if Ascii.eqb c "/" then
        if negb (matchedSlash st)
        then mkExtScan (startDot st) (i + 1) (endPos st) (matchedSlash st) (preDotState st)
        else extname_loop rest (i - 1) st
      else
        let st1 :=
          if endPos st =? -1
          then mkExtScan (startDot st) (startPart st) (i + 1) false (preDotState st)
          else st in
        let st2 :=
          if Ascii.eqb c "."
          then
            if startDot st1 =? -1
            then mkExtScan i (startPart st1) (endPos st1) (matchedSlash st1) (preDotState st1)
            else if negb (preDotState st1 =? 1)
                 then mkExtScan (startDot st1) (startPart st1) (endPos st1) (matchedSlash st1) 1
                 else st1
          else
            if negb (startDot st1 =? -1)
            then mkExtScan (startDot st1) (startPart st1) (endPos st1) (matchedSlash st1) (-1)
            else st1 in
        extname_loop rest (i - 1) st2
  end.

(** [path.extname(p)] *)
Definition extname (p : string) : string :=
  let st := extname_loop (rev (JsString.chars p)) (JsString.len p - 1) scan0 in
  if (startDot st =? -1) || (endPos st =? -1) || (preDotState st =? 0) ||
     ((preDotState st =? 1) && (startDot st =? endPos st - 1) &&
      (startDot st =? startPart st + 1))
  then EmptyString
  else JsString.slice (startDot st) (endPos st) p.

(** [path.join(dir, name)] where nothing is to normalise: [dir] is a
    normalised directory other than the root, as [os.tmpdir()] gives, and
    [name] is one segment (it has no separator and is neither [.] nor
    [..]). The chunk names are such segments, and so is the stored name of
    an upload whose name has no separator. *)
Definition join (dir name : string) : string := dir +:+ "/" +:+ name.

End Path.

(** ** Buffers *)

Module Buffer.

(** How [Buffer.prototype.slice] reads one bound: a negative index counts
    from the end, and every index is clamped to [0, len]. *)
Definition clamp (len i : Z) : Z :=
  if i <? 0 then Z.max 0 (len + i) else Z.min i len.

(** [buf.slice(start, end)] *)
Definition slice (buf : list byte) (start end_ : Z) : list byte :=
  let len := Z.of_nat (length buf) in
  let s := clamp len start in
  let e := clamp len end_ in
  if e <=? s then [] else take (Z.to_nat (e - s)) (drop (Z.to_nat s) buf).

(** The bytes of [buf] at the positions [k] with [a <= k < b]. *)
Definition byte_range (buf : list byte) (a b : Z) : list byte :=
  take (Z.to_nat (b - a)) (drop (Z.to_nat a) buf).

End Buffer.

(** ** Errors, results and the world *)

(** A thrown JavaScript value, with the three fields the code inspects. *)
Record JsError := mkJsError {
  status : option Z;
  code : option string;
  message : string
}.

(** [new Error(msg)] *)
Definition Error (msg : string) : JsError := mkJsError None None msg.

Inductive Result (A : Type) : Type :=
| Ok (a : A)
| Throw (e : JsError).
Arguments Ok {A} a.
Arguments Throw {A} e.

(** What the speech-to-text service answers to one request. *)
Inductive Reply :=
| Text (t : string)
| Failure (e : JsError).

(** One request to the service: the path streamed and the answer. *)
Record Call := mkCall {
  call_path : string;
  call_reply : Reply
}.

Record World := mkWorld {
  OPENAI_API_KEY : option string;          (* process.env.OPENAI_API_KEY *)
  tmpdir : string;                         (* os.tmpdir() *)
  fs : gmap string (list byte);            (* the files on disk *)
  clock : nat -> Z;                        (* the k-th reading of Date.now() *)
  ticks : nat;                             (* readings of the clock so far *)
  whisper : nat -> list byte -> Reply;     (* answer to the k-th request, on a payload *)
  calls : list Call;                       (* requests made so far, oldest first *)
  timers : list Z;                         (* setTimeout delays awaited so far *)
  renderer : string -> string -> Result (list byte)   (* generatePDF *)
}.

Definition with_fs (f : gmap string (list byte)) (w : World) : World :=
  mkWorld (OPENAI_API_KEY w) (tmpdir w) f (clock w) (ticks w)
          (whisper w) (calls w) (timers w) (renderer w).

Definition with_ticks (n : nat) (w : World) : World :=
  mkWorld (OPENAI_API_KEY w) (tmpdir w) (fs w) (clock w) n
          (whisper w) (calls w) (timers w) (renderer w).

Definition with_calls (l : list Call) (w : World) : World :=
  mkWorld (OPENAI_API_KEY w) (tmpdir w) (fs w) (clock w) (ticks w)
          (whisper w) l (timers w) (renderer w).

Definition with_timers (l : list Z) (w : World) : World :=
  mkWorld (OPENAI_API_KEY w) (tmpdir w) (fs w) (clock w) (ticks w)
          (whisper w) (calls w) l (renderer w).

(** An asynchronous computation: it runs on a world and ends with a value or
    a thrown error, and the world it leaves. *)
Definition M (A : Type) : Type := World -> Result A * World.

Definition ret {A} (a : A) : M A := fun w => (Ok a, w).

Definition throw {A} (e : JsError) : M A := fun w => (Throw e, w).

Definition bind {A B} (m : M A) (k : A -> M B) : M B :=
  fun w =>
    match m w with
    | (Ok a, w1) => k a w1
    | (Throw e, w1) => (Throw e, w1)
    end.

(** [try { m } catch (e) { h e }] *)
Definition try_catch {A} (m : M A) (h : JsError -> M A) : M A :=
  fun w =>
    match m w with
    | (Ok a, w1) => (Ok a, w1)
    | (Throw e, w1) => h e w1
    end.

Declare Scope js_scope.
Delimit Scope js_scope with js.
Notation "'let*' x ':=' m 'in' k" := (bind m (fun x => k))
  (at level 10, x name, m at level 100, k at level 200) : js_scope.
Local Open Scope js_scope.

(** *** The collaborators *)

(** The error of a file operation on a path that does not exist. *)
Definition ENOENT (p : string) : JsError :=
  mkJsError None (Some "ENOENT"%string)
            ("ENOENT: no such file or directory, open '" +:+ p +:+ "'").

(** [await readFile(p)] *)
Definition readFile (p : string) : M (list byte) :=
  fun w =>
    match fs w !! p with
    | Some data => (Ok data, w)
    | None => (Throw (ENOENT p), w)
    end.

(** [await writeFile(p, data)] *)
Definition writeFile (p : string) (data : list byte) : M unit :=
  fun w => (Ok tt, with_fs (<[p := data]> (fs w)) w).

(** [await unlink(p)] *)
Definition unlink (p : string) : M unit :=
  fun w =>
    match fs w !! p with
    | Some _ => (Ok tt, with_fs (delete p (fs w)) w)
    | None => (Throw (ENOENT p), w)
    end.

(** [os.tmpdir()] *)
Definition os_tmpdir : M string := fun w => (Ok (tmpdir w), w).

(** [Date.now()] *)
Definition Date_now : M Z :=
  fun w => (Ok (clock w (ticks w)), with_ticks (S (ticks w)) w).

(** [await new Promise(resolve => setTimeout(resolve, ms))] *)
Definition sleep (ms : Z) : M unit :=
  fun w => (Ok tt, with_timers (timers w ++ [ms]) w).

(** [await openai.audio.transcriptions.create({ file: fs.createReadStream(p), ... })]
    with the fixed model, response format, language and temperature: the
    stream of a missing file fails the request, otherwise the service
    answers on the bytes of the file. *)
Definition transcriptions_create (p : string) : M string :=
  fun w =>
    let reply :=
      match fs w !! p with
      | Some data => whisper w (length (calls w)) data
      | None => Failure (ENOENT p)
      end in
    let w1 := with_calls (calls w ++ [mkCall p reply]) w in
    match reply with
    | Text t => (Ok t, w1)
    | Failure e => (Throw e, w1)
    end.

(** [await generatePDF(fileName, transcription)] *)
Definition generatePDF (fileName transcription : string) : M (list byte) :=
  fun w => (renderer w fileName transcription, w).

(** ** Configuration *)

Definition MAX_SIZE : Z := 25 * 1024 * 1024.
Definition CHUNK_SIZE : Z := 20 * 1024 * 1024.

Definition SUPPORTED_FORMATS : list string :=
  [".flac"; ".m4a"; ".mp3"; ".mp4"; ".mpeg"; ".mpga"; ".oga"; ".ogg"; ".wav"; ".webm"]%string.

(** [arr.includes(x)] on an array of strings *)
Definition includes (arr : list string) (x : string) : bool :=
  existsb (String.eqb x) arr.

Definition isSupportedFormat (fileName : string) : bool :=
  let ext := JsString.toLowerCase (Path.extname fileName) in
  includes SUPPORTED_FORMATS ext.

(** [Math.ceil(a / b)] on integers, [b > 0] *)
Definition ceil_div (a b : Z) : Z := - ((- a) / b).

(** ** The chunker *)

(** The path of chunk [i] written at clock reading [t]. *)
Definition chunk_name (i t : Z) (extension : string) : string :=
  "chunk_" +:+ JsString.of_Z i +:+ "_" +:+ JsString.of_Z t +:+ extension.

(** The [for] loop of [splitMP3IntoChunks]: [todo] is [numChunks - i], the
    iterations still to run. *)
Fixpoint split_loop (fileBuffer : list byte) (fileSize : Z) (extension : string)
    (todo : nat) (i : Z) (chunks : list string) : M (list string) :=
  match todo with
  | O => ret chunks
  | S todo' =>
      let start := i * CHUNK_SIZE in
      let end_ := Z.min (start + CHUNK_SIZE) fileSize in
      let chunkBuffer := Buffer.slice fileBuffer start end_ in
      let* dir := os_tmpdir in
      let* t := Date_now in
      let chunkPath := Path.join dir (chunk_name i t extension) in
      let* _ := writeFile chunkPath chunkBuffer in
      split_loop fileBuffer fileSize extension todo' (i + 1) (chunks ++ [chunkPath])
  end.

Definition splitMP3IntoChunks (filePath : string) (fileSize : Z) : M (list string) :=
  let numChunks := ceil_div fileSize CHUNK_SIZE in
  let* fileBuffer := readFile filePath in
  let extension := Path.extname filePath in
  split_loop fileBuffer fileSize extension (Z.to_nat numChunks) 0 [].

(** ** The transcriber *)

(** The paragraph separator ['\n\n']. *)
Definition separator : string := String "010" (String "010" EmptyString).

(** [e.status === n] *)
Definition status_is (n : Z) (e : JsError) : bool :=
  match status e with
  | Some s => s =? n
  | None => false
  end.

(** [e.code === c] *)
Definition code_is (c : string) (e : JsError) : bool :=
  match code e with
  | Some s => String.eqb s c
  | None => false
  end.

(** [s || dflt] on strings: the empty string is falsy. *)
Definition or_default (s dflt : string) : string :=
  if String.eqb s "" then dflt else s.

(** The minimal endpoint ([route.ts]): one request, errors pass through. *)
Module Minimal.

Definition transcribeAudio (filePath : string) : M string :=
  transcriptions_create filePath.

End Minimal.

(** The endpoint with retries. *)
Module Retrying.

Definition MAX_RETRIES : Z := 3.

Definition msg_401 : string :=
  "API key de OpenAI inválida. Por favor, verifica tu configuración en .env.local".
Definition msg_429 : string :=
  "Límite de rate excedido. Espera unos minutos e intenta nuevamente.".
Definition msg_413 : string :=
  "El archivo es demasiado grande para este fragmento.".
Definition msg_connection : string :=
  "Error de conexión con OpenAI después de varios intentos. Verifica tu conexión a internet y que tu API key sea válida.".
Definition msg_unknown : string :=
  "Error desconocido al transcribir audio".

(** The test that guards the retry branch. *)
Definition is_connection_error (error : JsError) : bool :=
  code_is "ECONNREFUSED" error || code_is "ENOTFOUND" error ||
  JsString.includes "Connection error" (message error).

Equations? transcribeAudio (filePath : string) (retryCount : Z) (w : World)
    : Result string * World by wf (Z.to_nat (MAX_RETRIES - retryCount)) lt :=
  transcribeAudio filePath retryCount w :=
    match transcriptions_create filePath w with
    | (Ok transcription, w1) => (Ok transcription, w1)
    | (Throw error, w1) =>
        if status_is 401 error then (Throw (Error msg_401), w1)
        else if status_is 429 error then (Throw (Error msg_429), w1)
        else if status_is 413 error then (Throw (Error msg_413), w1)
        else if is_connection_error error then
          match Z_lt_dec retryCount MAX_RETRIES with
          | left _ =>
              let waitTime := (retryCount + 1) * 2000 in
              transcribeAudio filePath (retryCount + 1) (snd (sleep waitTime w1))
          | right _ => (Throw (Error msg_connection), w1)
          end
        else (Throw (Error (or_default (message error) msg_unknown)), w1)
    end.
Proof. lia. Qed.

End Retrying.

(** ** The orchestrator *)

Definition msg_unsupported (ext : string) : string :=
  "Formato " +:+ ext +:+
  " no soportado. Por favor, convierte tu audio a MP3 primero usando un convertidor online.".

Definition msg_chunk_failed (i n : Z) (cause : string) : string :=
  "Falló la transcripción del fragmento " +:+ JsString.of_Z (i + 1) +:+ "/" +:+
  JsString.of_Z n +:+ ". " +:+ "Error: " +:+ cause +:+ ". El proceso se ha detenido.".

Definition msg_empty : string :=
  "No se pudo obtener ninguna transcripción del audio".

(** The [finally] block: [for (const chunk of chunksToClean) await
    unlink(chunk).catch(() => {})]. *)
Fixpoint clean_chunks (chunksToClean : list string) : M unit :=
  match chunksToClean with
  | [] => ret tt
  | chunk :: rest =>
      let* _ := try_catch (unlink chunk) (fun _ => ret tt) in
      clean_chunks rest
  end.

Section Orchestrator.

(** The transcriber of the endpoint, called with one argument. *)
Variable transcribeAudio : string -> M string.

(** The loop over the chunks, from index [i] on: [todo] are the chunks
    [chunks[i]], [chunks[i+1]], ...; [n] is [chunks.length]. *)
Fixpoint transcribe_chunks (todo : list string) (i n : Z)
    (transcriptions : list string) : M (list string) :=
  match todo with
  | [] => ret transcriptions
  | chunk :: rest =>
      let* chunkTranscription :=
        try_catch (transcribeAudio chunk)
          (fun error => throw (Error (msg_chunk_failed i n (message error)))) in
      transcribe_chunks rest (i + 1) n (transcriptions ++ [chunkTranscription])
  end.

(** The first half of the [try] block of [processAudioFile]: it fills the
    local [transcriptions]. Besides its outcome it gives the value of the
    local [chunksToClean] when it is left. *)
Definition collect_transcriptions (filePath : string) (fileSize : Z) (w : World)
    : Result (list string) * list string * World :=
  if fileSize <=? MAX_SIZE then
    match transcribeAudio filePath w with
    | (Ok transcription, w1) => (Ok [transcription], [], w1)
    | (Throw e, w1) => (Throw e, [], w1)
    end
  else
    match splitMP3IntoChunks filePath fileSize w with
    | (Ok chunks, w1) =>
        let '(r, w2) :=
          transcribe_chunks chunks 0 (Z.of_nat (length chunks)) [] w1 in
        (r, chunks, w2)
    | (Throw e, w1) => (Throw e, [], w1)
    end.

(** The second half: join the transcriptions and refuse an empty text. *)
Definition combine_transcriptions (transcriptions : list string) : Result string :=
  let fullTranscription := JsString.join separator transcriptions in
  if JsString.len (JsString.trim fullTranscription) =? 0
  then Throw (Error msg_empty)
  else Ok fullTranscription.

(** The [try] block of [processAudioFile]. *)
Definition process_try (filePath : string) (fileSize : Z) (w : World)
    : Result string * list string * World :=
  let '(collected, chunksToClean, w1) := collect_transcriptions filePath fileSize w in
  match collected with
  | Ok transcriptions => (combine_transcriptions transcriptions, chunksToClean, w1)
  | Throw e => (Throw e, chunksToClean, w1)
  end.

Definition processAudioFile (filePath : string) (fileSize : Z)
    (originalName : string) : M string :=
  fun w =>
    if negb (isSupportedFormat originalName) then
      let ext := JsString.toLowerCase (Path.extname originalName) in
      (Throw (Error (msg_unsupported ext)), w)
    else
      let '(outcome, chunksToClean, w1) := process_try filePath fileSize w in
      (outcome, snd (clean_chunks chunksToClean w1)).

End Orchestrator.

(** ** The request handler *)

(** A [File] of the multipart form. *)
Record UploadedFile := mkUploadedFile {
  file_name : string;
  file_type : string;
  file_bytes : list byte
}.

(** [file.size] *)
Definition file_size (file : UploadedFile) : Z := Z.of_nat (length (file_bytes file)).

(** A request: what [await req.formData()] gives, and in it the field
    ['audio']. *)
Record Request := mkRequest {
  req_formData : Result (option UploadedFile)
}.

Inductive Response :=
| JsonError (error : string) (http_status : Z)
| PdfDocument (body : list byte) (http_status : Z) (content_disposition : string).

Inductive Endpoint := MinimalEndpoint | RetryingEndpoint.

Definition transcribeAudio_of (ep : Endpoint) : string -> M string :=
  match ep with
  | MinimalEndpoint => Minimal.transcribeAudio
  | RetryingEndpoint => fun filePath => Retrying.transcribeAudio filePath 0
  end.

Definition quote : string := String "034" EmptyString.

Definition msg_no_key (ep : Endpoint) : string :=
  match ep with
  | MinimalEndpoint => "API Key de OpenAI no configurada"
  | RetryingEndpoint => "API Key de OpenAI no configurada. Verifica tu archivo .env.local"
  end.

Definition msg_bad_key : string :=
  "API Key de OpenAI inválida. Debe comenzar con " +:+ quote +:+ "sk-" +:+ quote.

Definition msg_no_file : string := "No se encontró el archivo de audio".

Definition msg_generic : string := "Error al procesar el audio".

Definition attachment (name : string) : string :=
  "attachment; filename=" +:+ quote +:+ JsString.split_head "." name +:+
  "_transcripcion.pdf" +:+ quote.

(** The [try] block of [POST]. Besides its outcome (a response returned or
    an error thrown) it gives the value of the local [tempFilePath] when the
    block is left. *)
Definition POST_try (ep : Endpoint) (req : Request) (w : World)
    : Result Response * option string * World :=
  match OPENAI_API_KEY w with
  | None => (Ok (JsonError (msg_no_key ep) 500), None, w)
  | Some key =>
      if String.eqb key "" then (Ok (JsonError (msg_no_key ep) 500), None, w)
      else if match ep with
              | MinimalEndpoint => false
              | RetryingEndpoint => negb (JsString.startsWith "sk-" key)
              end
      then (Ok (JsonError msg_bad_key 500), None, w)
      else
        match req_formData req with
        | Throw e => (Throw e, None, w)
        | Ok None => (Ok (JsonError msg_no_file 400), None, w)
        | Ok (Some file) =>
            (* const buffer = Buffer.from(await file.arrayBuffer()) *)
            let buffer := file_bytes file in
            (* const tempDir = os.tmpdir() *)
            let tempDir := tmpdir w in
            (* Date.now() *)
            let '(t, w1) := (clock w (ticks w), with_ticks (S (ticks w)) w) in
            let tempFilePath :=
              Path.join tempDir ("upload_" +:+ JsString.of_Z t +:+ "_" +:+ file_name file) in
            (* await writeFile(tempFilePath, buffer) *)
            let w2 := snd (writeFile tempFilePath buffer w1) in
            match processAudioFile (transcribeAudio_of ep) tempFilePath
                    (file_size file) (file_name file) w2 with
            | (Throw e, w3) => (Throw e, Some tempFilePath, w3)
            | (Ok transcription, w3) =>
                match generatePDF (file_name file) transcription w3 with
                | (Throw e, w4) => (Throw e, Some tempFilePath, w4)
                | (Ok pdfBytes, w4) =>
                    (Ok (PdfDocument pdfBytes 200 (attachment (file_name file))),
                     Some tempFilePath, w4)
                end
            end
        end
  end.

(** [POST]: the response sent and the world at that moment. *)
Definition POST (ep : Endpoint) (req : Request) (w : World) : Response * World :=
  match POST_try ep req w with
  | (Ok response, _, w1) => (response, w1)
  | (Throw error, tempFilePath, w1) =>
      let w2 :=
        match tempFilePath with
        | Some p => snd (try_catch (unlink p) (fun _ => ret tt) w1)
        | None => w1
        end in
      (JsonError (or_default (message error) msg_generic) 500, w2)
  end.

(** ** The same code on a disk that can fail *)

(** Above, a file operation fails only on a path that does not exist. Here
    the disk can also refuse an operation: [readFile], [writeFile] and
    [unlink] first ask [Faults]. A call of [processAudioFile] or of [POST]
    writes each path at most once and unlinks each path at most once (the
    chunk paths differ by their index and from the upload's path), so a
    fault that depends on the path is as general as one that depends on the
    moment. A write that fails may leave a file at its path (what was
    written before the failure), or leave the path as it was. *)
Record Faults := mkFaults {
  read_fault : string -> option JsError;
  write_fault : string -> option (JsError * option (list byte));
  unlink_fault : string -> option JsError
}.

(** The disk of the sections above. *)
Definition no_faults : Faults :=
  mkFaults (fun _ => None) (fun _ => None) (fun _ => None).

Module Faulty.

Section Disk.

Variable F : Faults.

(** [await readFile(p)] *)
Definition readFile (p : string) : M (list byte) :=
  fun w =>
    match read_fault F p with
    | Some e => (Throw e, w)
    | None => readFile p w
    end.

(** [await writeFile(p, data)] *)
Definition writeFile (p : string) (data : list byte) : M unit :=
  fun w =>
    match write_fault F p with
    | Some (e, Some written) => (Throw e, with_fs (<[p := written]> (fs w)) w)
    | Some (e, None) => (Throw e, w)
    | None => writeFile p data w
    end.

(** [await unlink(p)] *)
Definition unlink (p : string) : M unit :=
  fun w =>
    match unlink_fault F p with
    | Some e => (Throw e, w)
    | None => unlink p w
    end.

Fixpoint split_loop (fileBuffer : list byte) (fileSize : Z) (extension : string)
    (todo : nat) (i : Z) (chunks : list string) : M (list string) :=
  match todo with
  | O => ret chunks
  | S todo' =>
      let start := i * CHUNK_SIZE in
      let end_ := Z.min (start + CHUNK_SIZE) fileSize in
      let chunkBuffer := Buffer.slice fileBuffer start end_ in
      let* dir := os_tmpdir in
      let* t := Date_now in
      let chunkPath := Path.join dir (chunk_name i t extension) in
      let* _ := writeFile chunkPath chunkBuffer in
      split_loop fileBuffer fileSize extension todo' (i + 1) (chunks ++ [chunkPath])
  end.

Definition splitMP3IntoChunks (filePath : string) (fileSize : Z) : M (list string) :=
  let numChunks := ceil_div fileSize CHUNK_SIZE in
  let* fileBuffer := readFile filePath in
  let extension := Path.extname filePath in
  split_loop fileBuffer fileSize extension (Z.to_nat numChunks) 0 [].

(** The [finally] block. *)
Fixpoint clean_chunks (chunksToClean : list string) : M unit :=
  match chunksToClean with
  | [] => ret tt
  | chunk :: rest =>
      let* _ := try_catch (unlink chunk) (fun _ => ret tt) in
      clean_chunks rest
  end.

Section Orchestrator.

Variable transcribeAudio : string -> M string.

Definition collect_transcriptions (filePath : string) (fileSize : Z) (w : World)
    : Result (list string) * list string * World :=
  if fileSize <=? MAX_SIZE then
    match transcribeAudio filePath w with
    | (Ok transcription, w1) => (Ok [transcription], [], w1)
    | (Throw e, w1) => (Throw e, [], w1)
    end
  else
    match splitMP3IntoChunks filePath fileSize w with
    | (Ok chunks, w1) =>
        let '(r, w2) :=
          transcribe_chunks transcribeAudio chunks 0 (Z.of_nat (length chunks)) [] w1 in
        (r, chunks, w2)
    | (Throw e, w1) => (Throw e, [], w1)
    end.

Definition process_try (filePath : string) (fileSize : Z) (w : World)
    : Result string * list string * World :=
  let '(collected, chunksToClean, w1) := collect_transcriptions filePath fileSize w in
  match collected with
  | Ok transcriptions => (combine_transcriptions transcriptions, chunksToClean, w1)
  | Throw e => (Throw e, chunksToClean, w1)
  end.

Definition processAudioFile (filePath : string) (fileSize : Z)
    (originalName : string) : M string :=
  fun w =>
    if negb (isSupportedFormat originalName) then
      let ext := JsString.toLowerCase (Path.extname originalName) in
      (Throw (Error (msg_unsupported ext)), w)
    else
      let '(outcome, chunksToClean, w1) := process_try filePath fileSize w in
      (outcome, snd (clean_chunks chunksToClean w1)).

End Orchestrator.

(** The [try] block of [POST]: a write of the upload that fails is thrown
    with [tempFilePath] already set. *)
Definition POST_try (ep : Endpoint) (req : Request) (w : World)
    : Result Response * option string * World :=
  match OPENAI_API_KEY w with
  | None => (Ok (JsonError (msg_no_key ep) 500), None, w)
  | Some key =>
      if String.eqb key "" then (Ok (JsonError (msg_no_key ep) 500), None, w)
      else if match ep with
              | MinimalEndpoint => false
              | RetryingEndpoint => negb (JsString.startsWith "sk-" key)
              end
      then (Ok (JsonError msg_bad_key 500), None, w)
      else
        match req_formData req with
        | Throw e => (Throw e, None, w)
        | Ok None => (Ok (JsonError msg_no_file 400), None, w)
        | Ok (Some file) =>
            let buffer := file_bytes file in
            let tempDir := tmpdir w in
            let '(t, w1) := (clock w (ticks w), with_ticks (S (ticks w)) w) in
            let tempFilePath :=
              Path.join tempDir ("upload_" +:+ JsString.of_Z t +:+ "_" +:+ file_name file) in
            match writeFile tempFilePath buffer w1 with
            | (Throw e, w2) => (Throw e, Some tempFilePath, w2)
            | (Ok _, w2) =>
                match processAudioFile (transcribeAudio_of ep) tempFilePath
                        (file_size file) (file_name file) w2 with
                | (Throw e, w3) => (Throw e, Some tempFilePath, w3)
                | (Ok transcription, w3) =>
                    match generatePDF (file_name file) transcription w3 with
                    | (Throw e, w4) => (Throw e, Some tempFilePath, w4)
                    | (Ok pdfBytes, w4) =>
                        (Ok (PdfDocument pdfBytes 200 (attachment (file_name file))),
                         Some tempFilePath, w4)
                    end
                end
            end
        end
  end.

Definition POST (ep : Endpoint) (req : Request) (w : World) : Response * World :=
  match POST_try ep req w with
  | (Ok response, _, w1) => (response, w1)
  | (Throw error, tempFilePath, w1) =>
      let w2 :=
        match tempFilePath with
        | Some p => snd (try_catch (unlink p) (fun _ => ret tt) w1)
        | None => w1
        end in
      (JsonError (or_default (message error) msg_generic) 500, w2)
  end.

End Disk.

End Faulty.

(** ** The upload form's validators ([src/lib/utils.ts]) *)

Module Utils.

Definition validTypes : list string :=
  ["audio/mpeg"; "audio/mp3"; "audio/mp4"; "audio/wav"; "audio/x-wav";
   "audio/webm"; "audio/m4a"; "audio/x-m4a"; "audio/aac"; "audio/mpga"]%string.

(** The alternatives of [/\.(mp3|mp4|mpeg|mpga|m4a|wav|webm|aac)$/i]. *)
Definition pattern_extensions : list string :=
  ["mp3"; "mp4"; "mpeg"; "mpga"; "m4a"; "wav"; "webm"; "aac"]%string.

(** [name.match(/\.(mp3|...|aac)$/i) !== null] *)
Definition matches_pattern (name : string) : bool :=
  existsb (fun e => JsString.endsWith ("." +:+ e) (JsString.toLowerCase name))
          pattern_extensions.

Definition isValidAudioFile (file : UploadedFile) : bool :=
  includes validTypes (file_type file) || matches_pattern (file_name file).

Definition getSupportedFormats : list string :=
  [".mp3"; ".mp4"; ".mpeg"; ".mpga"; ".m4a"; ".wav"; ".webm"; ".aac"]%string.

End Utils.

(** ** Specification vocabulary *)

(** [same_env w w']: the configuration and the oracles are those of [w]. *)
Definition same_env (w w' : World) : Prop :=
  OPENAI_API_KEY w' = OPENAI_API_KEY w /\ tmpdir w' = tmpdir w /\
  clock w' = clock w /\ whisper w' = whisper w /\ renderer w' = renderer w.

(** A transient connection failure, as the transcriber with retries
    recognises it: none of the three classified HTTP statuses, and the code
    or the message of a connection error. *)
Definition transient (e : JsError) : bool :=
  negb (status_is 401 e) && negb (status_is 429 e) && negb (status_is 413 e) &&
  Retrying.is_connection_error e.

(** The log entry of a request on [p] that failed with [e]. *)
Definition failed_call (p : string) (e : JsError) : Call := mkCall p (Failure e).

(** The waits before the retries number [r+1], ..., [r+k]. *)
Definition waits (r : Z) (k : nat) : list Z :=
  map (fun j => (j + 1) * 2000) (seqZ r (Z.of_nat k)).

(** [m] without the paths of [l]. *)
Definition remove_all (l : list string) (m : gmap string (list byte))
    : gmap string (list byte) :=
  foldl (fun acc p => delete p acc) m l.

(** The path under which [POST] stores the upload of [file] in world [w]. *)
Definition upload_path (w : World) (file : UploadedFile) : string :=
  Path.join (tmpdir w)
    ("upload_" +:+ JsString.of_Z (clock w (ticks w)) +:+ "_" +:+ file_name file).

(** The key passes the checks of the endpoint. *)
Definition key_accepted (ep : Endpoint) (key : string) : bool :=
  negb (String.eqb key "") &&
  match ep with
  | MinimalEndpoint => true
  | RetryingEndpoint => JsString.startsWith "sk-" key
  end.

(** ** Sample inputs *)

(** A world for examples: the file ["/tmp/in.mp3"] of three bytes, a clock
    that advances by one at each reading, a service that answers the k-th
    request with the text ["t<k>"], a renderer that gives one byte. *)
Definition sample_bytes : list byte := [x01; x02; x03]%byte.

Definition sample_world : World :=
  mkWorld (Some "sk-test"%string) "/tmp" {[ "/tmp/in.mp3"%string := sample_bytes ]}
    (fun k => 1700000000000 + Z.of_nat k) 0%nat
    (fun k _ => Text ("t" +:+ JsString.of_Z (Z.of_nat k)))
    [] [] (fun _ _ => Ok [x25]%byte).

(** The same world with a service that refuses every connection. *)
Definition refused : JsError :=
  mkJsError None (Some "ECONNREFUSED"%string) "connect ECONNREFUSED".

Definition offline_world : World :=
  mkWorld (Some "sk-test"%string) "/tmp" {[ "/tmp/in.mp3"%string := sample_bytes ]}
    (fun k => 1700000000000 + Z.of_nat k) 0%nat
    (fun _ _ => Failure refused)
    [] [] (fun _ _ => Ok [x25]%byte).

(** The same world with a service that hears nothing. *)
Definition silent_world : World :=
  mkWorld (Some "sk-test"%string) "/tmp" {[ "/tmp/in.mp3"%string := sample_bytes ]}
    (fun k => 1700000000000 + Z.of_nat k) 0%nat
    (fun _ _ => Text " ")
    [] [] (fun _ _ => Ok [x25]%byte).

Definition sample_upload : UploadedFile :=
  mkUploadedFile "a.mp3" "audio/mpeg" sample_bytes.

Definition sample_request : Request := mkRequest (Ok (Some sample_upload)).

(** The same world with a service that rejects the key. *)
Definition unauthorized : JsError :=
  mkJsError (Some 401) None "401 Incorrect API key provided".

Definition locked_world : World :=
  mkWorld (Some "sk-test"%string) "/tmp" {[ "/tmp/in.mp3"%string := sample_bytes ]}
    (fun k => 1700000000000 + Z.of_nat k) 0%nat
    (fun _ _ => Failure unauthorized)
    [] [] (fun _ _ => Ok [x25]%byte).

(** A file of 39 MB on a disk whose service is offline. *)
Definition big_size : Z := 39 * 1024 * 1024.

Definition big_bytes : list byte := replicate (Z.to_nat big_size) x00.

Definition big_offline_world : World :=
  with_fs {[ "/tmp/upload_1_talk.mp3"%string := big_bytes ]} offline_world.

(** The number of requests as the specification states it (C3), at one
    input: one request, on the whole file, up to the threshold, and
    [ceil(S/C)] requests above it. *)
Definition calls_as_stated (filePath : string) (fileSize : Z) (originalName : string)
    (w : World) : Prop :=
  let w' := (processAudioFile Minimal.transcribeAudio filePath fileSize originalName w).2 in
  exists new : list Call,
    calls w' = calls w ++ new /\
    if fileSize <=? MAX_SIZE then map call_path new = [filePath]
    else Z.of_nat (length new) = ceil_div fileSize CHUNK_SIZE.

(** The texts among the answers of a list of requests, in order. *)
Definition reply_texts (l : list Call) : list string :=
  omap (fun c => match call_reply c with Text t => Some t | Failure _ => None end) l.

(** The number of transcription units of a run of [processAudioFile]: the
    whole file up to the threshold, the chunks above it. *)
Definition units (fileSize : Z) : nat :=
  if fileSize <=? MAX_SIZE then 1%nat else Z.to_nat (ceil_div fileSize CHUNK_SIZE).

(** The most requests one call of the endpoint's transcriber can make. *)
Definition attempts (ep : Endpoint) : nat :=
  match ep with
  | MinimalEndpoint => 1
  | RetryingEndpoint => 4
  end.

(** The world in which [POST] calls [processAudioFile]: the clock was read
    once and the upload is on disk. *)
Definition after_upload (w : World) (file : UploadedFile) : World :=
  (writeFile (upload_path w file) (file_bytes file) (with_ticks (S (ticks w)) w)).2.

(** [s] has no character [c]. *)
Definition lacks (c : ascii) (s : string) : bool :=
  forallb (fun x => negb (Ascii.eqb x c)) (JsString.chars s).

(** ** The PDF writer ([src/unnamed/part_001]) *)

(** Here a string is its sequence of code units, all below 256.  Lengths are
    in points; every vertical position the writer computes is a multiple of
    a quarter of a point, so the rationals below are the numbers the code
    computes. *)

Module Pdf.

(** [/[\x20-\x7E\xA0-\xFF]/] on one code unit *)
Definition printable (c : ascii) : bool :=
  let n := nat_of_ascii c in
  ((32 <=? n) && (n <=? 126) || (160 <=? n) && (n <=? 255))%nat.

(** [text.replace(/[^\x20-\x7E\xA0-\xFF]/g, '?')] *)
Fixpoint cleanTextForPDF (text : string) : string :=
  match text with
  | EmptyString => EmptyString
  | String c r => String (if printable c then c else "?"%char) (cleanTextForPDF r)
  end.

(** A string in a condition: the empty string is falsy. *)
Definition truthy (s : string) : bool := negb (String.eqb s "").

(** [s.split(sep)] for a one-character separator, as the part before the
    first separator and the parts after it. *)
Fixpoint split_parts (sep : ascii) (s : string) : string * list string :=
  match s with
  | EmptyString => (EmptyString, [])
  | String c r =>
      let '(h, t) := split_parts sep r in
      if Ascii.eqb c sep then (EmptyString, h :: t) else (String c h, t)
  end.

Definition split (sep : ascii) (s : string) : list string :=
  let '(h, t) := split_parts sep s in h :: t.

(** The white space that [trim] strips; of it, the cleaning keeps the
    space and the no-break space. *)
Definition is_space (c : ascii) : bool := JsString.is_space c.

Fixpoint trimStart (s : string) : string :=
  match s with
  | EmptyString => EmptyString
  | String c r => if is_space c then trimStart r else s
  end.

Fixpoint trimEnd (s : string) : string :=
  match s with
  | EmptyString => EmptyString
  | String c r =>
      match trimEnd r with
      | EmptyString => if is_space c then EmptyString else String c EmptyString
      | r' => String c r'
      end
  end.

(** [p.trim()] *)
Definition trim (s : string) : string := trimEnd (trimStart s).

Local Open Scope Q_scope.

Inductive Font := Helvetica | HelveticaBold.

Record Color := rgb { red : Q; green : Q; blue : Q }.

(** What is drawn on a page, in drawing order. *)
Inductive Draw :=
| drawText (text : string) (x y size : Q) (font : Font) (color : Color)
| drawLine (x1 y1 x2 y2 thickness : Q) (color : Color).

Definition Page : Type := list Draw.

(** The document while it is written: the pages before the current one, the
    current page (the last one added) and the pen's height on it. *)
Record Writer := mkWriter {
  earlier : list Page;
  page : Page;
  yPosition : Q
}.

(** [pdfDoc.getPages()] *)
Definition getPages (st : Writer) : list Page := earlier st ++ [page st].

Definition pageWidth : Q := 595.
Definition pageHeight : Q := 842.
Definition margin : Q := 50.
Definition maxWidth : Q := pageWidth - (margin * 2).
Definition fontSize : Q := 11.
Definition titleFontSize : Q := 20.
Definition lineHeight : Q := fontSize * 1.5.

(** [a < b] *)
Definition Qltb (a b : Q) : bool := negb (Qle_bool b a).

(** ['Transcripción de Audio'] *)
Definition title : string := "Transcripci" +:+ String "243" "n de Audio".

Definition credit : string := "Generado con OpenAI Whisper".

Section Writing.

(** [font.widthOfTextAtSize] of the regular font, and the date text
    [now.toLocaleDateString('es-ES', ...)]. *)
Variable widthOfTextAtSize : string -> Q -> Q.
Variable fecha : string.

(** The loop of [wrapText]: the lines pushed so far and the current line. *)
Fixpoint wrap_loop (maxWidth : Q) (words lines : list string) (currentLine : string)
    : list string * string :=
  match words with
  | [] => (lines, currentLine)
  | word :: rest =>
      let testLine :=
        if truthy currentLine then currentLine +:+ " " +:+ word else word in
      let width := widthOfTextAtSize testLine fontSize in
      if Qle_bool width maxWidth
      then wrap_loop maxWidth rest lines testLine
      else wrap_loop maxWidth rest
             (if truthy currentLine then lines ++ [currentLine] else lines) word
  end.

Definition wrapText (text : string) (maxWidth : Q) : list string :=
  let words := split " " text in
  let '(lines, currentLine) := wrap_loop maxWidth words [] "" in
  if truthy currentLine then lines ++ [currentLine] else lines.

(** The first page with its heading: title, file name, date and rule. *)
Definition heading (cleanFileName : string) : Writer :=
  let yPosition := pageHeight - margin - 30 in
  let d1 := drawText title margin yPosition titleFontSize HelveticaBold
              (rgb 0.18 0.20 0.25) in
  let yPosition := yPosition - 40 in
  let d2 := drawText cleanFileName margin yPosition 14 Helvetica
              (rgb 0.37 0.51 0.67) in
  let yPosition := yPosition - 25 in
  let d3 := drawText ("Generado el: " +:+ fecha) margin yPosition 10 Helvetica
              (rgb 0.4 0.4 0.4) in
  let yPosition := yPosition - 40 in
  let d4 := drawLine margin yPosition (pageWidth - margin) yPosition 1
              (rgb 0.8 0.8 0.8) in
  let yPosition := yPosition - 30 in
  mkWriter [] [d1; d2; d3; d4] yPosition.

(** One turn of the inner loop: a new page when the pen is too low, then
    the line, then the pen moves down. *)
Definition put_line (st : Writer) (line : string) : Writer :=
  let st :=
    if Qltb (yPosition st) (margin + 50)
    then mkWriter (earlier st ++ [page st]) [] (pageHeight - margin)
    else st in
  mkWriter (earlier st)
    (page st ++ [drawText line margin (yPosition st) fontSize Helvetica
                   (rgb 0.2 0.2 0.2)])
    (yPosition st - lineHeight).

(** One turn of the outer loop. *)
Definition put_paragraph (st : Writer) (paragraph : string) : Writer :=
  let lines := wrapText paragraph maxWidth in
  let st := fold_left put_line lines st in
  mkWriter (earlier st) (page st) (yPosition st - lineHeight * 0.5).

(** The two footer texts of the page at [index]. *)
Definition put_footer (totalPages : nat) (index : nat) (page : Page) : Page :=
  let pageNumber :=
    "P" +:+ String "225" "gina " +:+ JsString.of_Z (Z.of_nat index + 1)%Z +:+ " de " +:+
    JsString.of_Z (Z.of_nat totalPages) in
  let textWidth := widthOfTextAtSize pageNumber 9 in
  page ++
  [drawText pageNumber ((pageWidth - textWidth) / 2) 30 9 Helvetica (rgb 0.6 0.6 0.6);
   drawText credit ((pageWidth - widthOfTextAtSize credit 8) / 2) 18 8 Helvetica
     (rgb 0.7 0.7 0.7)].

(** [cleanTranscription.split('\n').filter(p => p.trim())] *)
Definition paragraphs (cleanTranscription : string) : list string :=
  filter (fun p => truthy (trim p) = true) (split "010" cleanTranscription).

(** The document [generatePDF] hands to [pdfDoc.save()]. *)
Definition pdfDoc (fileName transcription : string) : list Page :=
  let cleanTranscription := cleanTextForPDF transcription in
  let cleanFileName := cleanTextForPDF fileName in
  let st := fold_left put_paragraph (paragraphs cleanTranscription)
              (heading cleanFileName) in
  let pages := getPages st in
  imap (put_footer (length pages)) pages.

(** [generatePDF] with the serialiser [pdfDoc.save] as a parameter. *)
Definition generatePDF (save : list Page -> list byte)
    (fileName transcription : string) : list byte :=
  save (pdfDoc fileName transcription).

End Writing.

End Pdf.
(** Every code unit of [s] is printable. *)
Definition all_printable (s : string) : bool :=
  forallb Pdf.printable (JsString.chars s).

(** [s] is white space only. *)
Definition all_space (s : string) : bool :=
  forallb Pdf.is_space (JsString.chars s).

(** The characters of [s] other than the space, in order. *)
Definition ink (s : string) : list ascii :=
  List.filter (fun c => negb (Ascii.eqb c " ")) (JsString.chars s).

(** A line of the body as [put_line] draws it at height [y]. *)
Definition body_draw (line : string) (y : Q) : Pdf.Draw :=
  Pdf.drawText line Pdf.margin y Pdf.fontSize Pdf.Helvetica (Pdf.rgb 0.2 0.2 0.2).

(** The text of a draw, if it is one. *)
Definition drawn_text (d : Pdf.Draw) : option string :=
  match d with
  | Pdf.drawText text _ _ _ _ _ => Some text
  | Pdf.drawLine _ _ _ _ _ _ => None
  end.

(** The lines the two loops of [generatePDF] visit. *)
Definition body_lines (widthOfTextAtSize : string -> Q -> Q) (transcription : string)
    : list string :=
  concat (map (fun p => Pdf.wrapText widthOfTextAtSize p Pdf.maxWidth)
            (Pdf.paragraphs (Pdf.cleanTextForPDF transcription))).

(** The pen's height counted in lines of the body from the top of a page
    without heading. *)
Definition at_line (st : Pdf.Writer) (c : Z) : Prop :=
  (Pdf.yPosition st == 792 - Pdf.lineHeight * inject_Z c)%Q.

(** A width function for the examples: every character is half the font
    size wide. *)
Definition sample_width (s : string) (size : Q) : Q :=
  (inject_Z (Z.of_nat (String.length s)) * size * 0.5)%Q.

(** The two chunk paths of a file declared 39 MB in the sample world. *)
Definition sample_chunks : list string :=
  ["/tmp/chunk_0_1700000000000.mp3"; "/tmp/chunk_1_1700000000001.mp3"]%string.

(** An upload of a format the endpoint does not support. *)
Definition aiff_upload : UploadedFile :=
  mkUploadedFile "talk.aiff" "audio/aiff" sample_bytes.

(** A line fits the width, or it is a single word. *)
Definition settled (widthOfTextAtSize : string -> Q -> Q) (maxW : Q) (line : string)
    : Prop :=
  (widthOfTextAtSize line Pdf.fontSize <= maxW)%Q \/ lacks " " line = true.

(** [unlink] of [p] is not refused by the disk. *)
Definition removable (F : Faults) (p : string) : bool :=
  match unlink_fault F p with
  | None => true
  | Some _ => false
  end.

(** The clean-up as the specification states it (C2), at one input: of the
    chunk files that the chunker wrote, none is on disk after the call. *)
Definition cleanup_as_stated (F : Faults) (ep : Endpoint) (filePath : string)
    (fileSize : Z) (originalName : string) (w : World) : Prop :=
  forall (chunks : list string) (w1 : World) (p : string),
    Faulty.splitMP3IntoChunks F filePath fileSize w = (Ok chunks, w1) ->
    p ∈ chunks ->
    fs (Faulty.processAudioFile F (transcribeAudio_of ep) filePath fileSize
          originalName w).2 !! p = None.

(** A disk that refuses every [unlink]. *)
Definition EBUSY (p : string) : JsError :=
  mkJsError None (Some "EBUSY"%string)
            ("EBUSY: resource busy or locked, unlink '" +:+ p +:+ "'").

Definition busy_disk : Faults :=
  mkFaults (fun _ => None) (fun _ => None) (fun p => Some (EBUSY p)).

(** A disk that is full when the second chunk of the sample world is
    written. *)
Definition ENOSPC (p : string) : JsError :=
  mkJsError None (Some "ENOSPC"%string)
            ("ENOSPC: no space left on device, write '" +:+ p +:+ "'").

Definition full_disk : Faults :=
  mkFaults (fun _ => None)
    (fun p => if String.eqb p "/tmp/chunk_1_1700000000001.mp3"
              then Some (ENOSPC p, None) else None)
    (fun _ => None).

(** The 39 MB file on a disk whose service answers. *)
Definition big_world : World :=
  with_fs {[ "/tmp/upload_1_talk.mp3"%string := big_bytes ]} sample_world.

(** The bytes of the unit number [k] of a run of [processAudioFile]: the
    whole file up to the threshold, the slice that makes chunk [k] above
    it. *)
Definition unit_bytes (fileBuffer : list byte) (fileSize : Z) (k : nat) : list byte :=
  if fileSize <=? MAX_SIZE then fileBuffer
  else Buffer.slice fileBuffer (Z.of_nat k * CHUNK_SIZE)
         (Z.min (Z.of_nat k * CHUNK_SIZE + CHUNK_SIZE) fileSize).

(** The sample world with a service that answers a no-break space. *)
Definition nbsp_world : World :=
  mkWorld (Some "sk-test"%string) "/tmp" {[ "/tmp/in.mp3"%string := sample_bytes ]}
    (fun k => 1700000000000 + Z.of_nat k) 0%nat
    (fun _ _ => Text (String "160" ""))
    [] [] (fun _ _ => Ok [x25]%byte).

(** * Sanity checks *)

Example extname_html : Path.extname "index.html" = ".html"%string.
Proof. reflexivity. Qed.
Example extname_two : Path.extname "index.coffee.md" = ".md"%string.
Proof. reflexivity. Qed.
Example extname_dot : Path.extname "index." = "."%string.
Proof. reflexivity. Qed.
Example extname_none : Path.extname "index" = ""%string.
Proof. reflexivity. Qed.
Example extname_hidden : Path.extname ".index" = ""%string.
Proof. reflexivity. Qed.
Example extname_hidden_md : Path.extname ".index.md" = ".md"%string.
Proof. reflexivity. Qed.
Example extname_dir : Path.extname "/tmp/a.b/upload_1_Song.MP3" = ".MP3"%string.
Proof. reflexivity. Qed.
Example extname_dotdot : Path.extname ".." = ""%string.
Proof. reflexivity. Qed.
Example trim_ex : JsString.trim "  a b
 " = "a b"%string.
Proof. reflexivity. Qed.
Example of_Z_ex : JsString.of_Z 12 = "12"%string.
Proof. reflexivity. Qed.
Example of_Z_0 : JsString.of_Z 0 = "0"%string.
Proof. reflexivity. Qed.
Example ceil_div_39MB : ceil_div (39 * 1024 * 1024) CHUNK_SIZE = 2.
Proof. reflexivity. Qed.
Example ceil_div_exact : ceil_div (40 * 1024 * 1024) CHUNK_SIZE = 2.
Proof. reflexivity. Qed.
Example slice_clamps : Buffer.slice sample_bytes 1 CHUNK_SIZE = [x02; x03]%byte.
Proof. reflexivity. Qed.
Example supported_upper : isSupportedFormat "Talk.MP3" = true.
Proof. reflexivity. Qed.
Example unsupported_aiff : isSupportedFormat "talk.aiff" = false.
Proof. reflexivity. Qed.

(** The chunker on the three-byte file, told that its size is 39 MB: two
    chunk files, the second one empty. *)
Example split_sample :
  (splitMP3IntoChunks "/tmp/in.mp3" (39 * 1024 * 1024) sample_world).1
  = Ok ["/tmp/chunk_0_1700000000000.mp3"; "/tmp/chunk_1_1700000000001.mp3"]%string.
Proof. vm_compute. reflexivity. Qed.

Example process_sample :
  (processAudioFile Minimal.transcribeAudio "/tmp/in.mp3" (39 * 1024 * 1024) "in.mp3"
     sample_world).1
  = Ok ("t0" +:+ separator +:+ "t1")%string.
Proof. vm_compute. reflexivity. Qed.

Example retry_sample :
  timers (Retrying.transcribeAudio "/tmp/in.mp3" 0 offline_world).2 = [2000; 4000; 6000].
Proof. vm_compute. reflexivity. Qed.

Example pdf_split_ex : Pdf.split " " " a  b " = [""; "a"; ""; "b"; ""]%string.
Proof. reflexivity. Qed.
Example pdf_split_empty : Pdf.split " " "" = [""%string].
Proof. reflexivity. Qed.
Example pdf_clean_ex :
  Pdf.cleanTextForPDF ("a" +:+ separator +:+ "b") = "a??b"%string.
Proof. reflexivity. Qed.
Example pdf_wrap_ex :
  Pdf.wrapText sample_width "aaa bbb ccc" 30 = ["aaa"; "bbb"; "ccc"]%string.
Proof. reflexivity. Qed.
Example pdf_wrap_spaces :
  Pdf.wrapText sample_width " a  b " Pdf.maxWidth = ["a  b "%string].
Proof. reflexivity. Qed.
Example pdf_wrap_wide_word :
  Pdf.wrapText sample_width "a bbbbbbbbbb c" 30 = ["a"; "bbbbbbbbbb"; "c"]%string.
Proof. reflexivity. Qed.
Example pdf_one_page :
  length (Pdf.pdfDoc sample_width "hoy" "f.mp3" "a b") = 1%nat.
Proof. reflexivity. Qed.

Example trim_no_break_space : JsString.trim (String "160" (String " " "")) = ""%string.
Proof. reflexivity. Qed.
Example lower_latin1 :
  JsString.toLowerCase (String "201" "COLE.MP3") = String "233" "cole.mp3".
Proof. reflexivity. Qed.
Example lower_times : JsString.toLowerCase (String "215" "") = String "215" "".
Proof. reflexivity. Qed.
Example faulty_split_full_disk :
  (Faulty.splitMP3IntoChunks full_disk "/tmp/in.mp3" big_size sample_world).1
  = Throw (ENOSPC "/tmp/chunk_1_1700000000001.mp3").
Proof. vm_compute. reflexivity. Qed.

Example process_no_break_space :
  (processAudioFile Minimal.transcribeAudio "/tmp/in.mp3" 3 "in.mp3" nbsp_world).1
  = Throw (Error msg_empty).
Proof. reflexivity. Qed.

(** * Proofs *)

(** ** Strings and decimal numerals *)

Lemma all_digits_uint (d : Decimal.uint) :
  JsString.all_digits (NilEmpty.string_of_uint d) = true.
Proof. induction d; simpl; auto. Qed.

Lemma all_digits_of_Z (z : Z) : 0 <= z -> JsString.all_digits (JsString.of_Z z) = true.
Proof.
  intros Hz. unfold JsString.of_Z.
  destruct z as [|p|p]; [reflexivity| |lia].
  simpl. destruct (Pos.to_uint p) eqn:E; try apply all_digits_uint.
  reflexivity.
Qed.

Lemma of_Z_inj (a b : Z) : JsString.of_Z a = JsString.of_Z b -> a = b.
Proof.
  unfold JsString.of_Z. intros H.
  apply DecimalZ.to_int_inj.
  assert (Hn : forall z, Z.to_int z <> Decimal.Pos Decimal.Nil /\
                         Z.to_int z <> Decimal.Neg Decimal.Nil).
  { intros [|p|p]; simpl; split; try discriminate;
      intros [= E]; revert E; apply DecimalPos.Unsigned.to_uint_nonnil. }
  assert (E : Some (Z.to_int a) = Some (Z.to_int b)).
  { rewrite <- (NilZero.isi (Z.to_int a)), <- (NilZero.isi (Z.to_int b));
      try apply Hn. now rewrite H. }
  now injection E.
Qed.

(** Two texts that start with a numeral followed by an underscore agree
    on the numeral. *)
Lemma digits_underscore_inj (d1 d2 r1 r2 : string) :
  JsString.all_digits d1 = true -> JsString.all_digits d2 = true ->
  d1 +:+ "_" +:+ r1 = d2 +:+ "_" +:+ r2 -> d1 = d2.
Proof.
  revert d2. induction d1 as [|c d1 IH]; intros [|c2 d2] H1 H2 E; simpl in *.
  - reflexivity.
  - injection E as Ec _. subst c2. discriminate.
  - injection E as Ec _. subst c. discriminate.
  - injection E as Ec E. subst c2.
    apply andb_prop in H1 as [_ H1]. apply andb_prop in H2 as [_ H2].
    f_equal. now apply IH.
Qed.

Lemma chunk_name_inj (i j t u : Z) (e : string) :
  0 <= i -> 0 <= j -> chunk_name i t e = chunk_name j u e -> i = j.
Proof.
  intros Hi Hj E. unfold chunk_name in E.
  apply (inj (String.app "chunk_")) in E.
  apply of_Z_inj. eapply digits_underscore_inj; eauto using all_digits_of_Z.
Qed.

Lemma join_inj (dir a b : string) : Path.join dir a = Path.join dir b -> a = b.
Proof.
  unfold Path.join. intros E.
  apply (inj (String.app dir)) in E. now apply (inj (String.app "/")) in E.
Qed.

(** ** The world is only changed where an operation says so *)

Lemma same_env_refl w : same_env w w.
Proof. repeat split. Qed.

Lemma same_env_trans w1 w2 w3 : same_env w1 w2 -> same_env w2 w3 -> same_env w1 w3.
Proof. unfold same_env. intuition congruence. Qed.

(** ** Ceiling division *)

Lemma ceil_div_bounds (a b : Z) :
  0 < b -> (ceil_div a b - 1) * b < a <= ceil_div a b * b.
Proof.
  intros Hb. unfold ceil_div.
  pose proof (Z.div_mod (- a) b ltac:(lia)) as E.
  pose proof (Z.mod_pos_bound (- a) b Hb) as R. nia.
Qed.

Lemma ceil_div_pos (a b : Z) : 0 < b -> 0 < a -> 0 < ceil_div a b.
Proof. intros Hb Ha. pose proof (ceil_div_bounds a b Hb). nia. Qed.

Lemma CHUNK_SIZE_pos : 0 < CHUNK_SIZE.
Proof. reflexivity. Qed.

(** ** Slices *)

Lemma slice_byte_range (buf : list byte) (a b : Z) :
  0 <= a <= b -> b <= Z.of_nat (length buf) ->
  Buffer.slice buf a b = Buffer.byte_range buf a b.
Proof.
  intros Hab Hb. unfold Buffer.slice, Buffer.byte_range, Buffer.clamp.
  destruct (Z.ltb_spec a 0); [lia|]. destruct (Z.ltb_spec b 0); [lia|].
  rewrite !Z.min_l by lia.
  destruct (Z.leb_spec b a); [|reflexivity].
  replace (b - a) with 0 by lia. reflexivity.
Qed.

(** The chunks from index [i] on, put end to end, are the bytes of the
    buffer from position [i * c] on. *)
Lemma concat_byte_ranges (buf : list byte) (c : Z) (todo : nat) :
  0 < c ->
  forall i : Z, 0 <= i -> Z.of_nat (length buf) <= (i + Z.of_nat todo) * c ->
  concat (map (fun k => Buffer.byte_range buf (k * c)
                          (Z.min ((k + 1) * c) (Z.of_nat (length buf))))
              (seqZ i (Z.of_nat todo)))
  = drop (Z.to_nat (i * c)) buf.
Proof.
  intros Hc. induction todo as [|todo IH]; intros i Hi Hcover.
  - simpl. rewrite drop_ge; [reflexivity|]. lia.
  - rewrite Nat2Z.inj_succ, seqZ_cons by lia. simpl.
    replace (Z.pred (Z.succ (Z.of_nat todo))) with (Z.of_nat todo) by lia.
    rewrite IH by lia. unfold Buffer.byte_range.
    destruct (Z.le_gt_cases ((i + 1) * c) (Z.of_nat (length buf))) as [Hle|Hgt].
    + rewrite Z.min_l by lia.
      replace (Z.to_nat (Z.succ i * c)) with (Z.to_nat (i * c) + Z.to_nat ((i + 1) * c - i * c))%nat by lia.
      rewrite <- drop_drop. apply take_drop.
    + rewrite Z.min_r by lia.
      rewrite (drop_ge buf (Z.to_nat (Z.succ i * c))) by lia.
      rewrite app_nil_r. apply take_ge. rewrite length_drop. lia.
Qed.

(** ** The chunker *)

Lemma split_loop_spec (buf : list byte) (size : Z) (ext : string) (todo : nat) :
  forall (i : Z) (acc : list string) (w : World), 0 <= i ->
  exists (new : list string) (w' : World),
    split_loop buf size ext todo i acc w = (Ok (acc ++ new), w') /\
    length new = todo /\
    same_env w w' /\ calls w' = calls w /\ timers w' = timers w /\
    (forall (k : nat) (p : string), new !! k = Some p ->
       (exists t, p = Path.join (tmpdir w) (chunk_name (i + Z.of_nat k) t ext)) /\
       fs w' !! p =
         Some (Buffer.slice buf ((i + Z.of_nat k) * CHUNK_SIZE)
                 (Z.min ((i + Z.of_nat k) * CHUNK_SIZE + CHUNK_SIZE) size))) /\
    (forall p : string, p ∉ new -> fs w' !! p = fs w !! p).
Proof.
  induction todo as [|todo IH]; intros i acc w Hi.
  - exists [], w. simpl. unfold ret. rewrite app_nil_r.
    split_and!; auto using same_env_refl; intros k p; rewrite lookup_nil; discriminate.
  - set (p0 := Path.join (tmpdir w) (chunk_name i (clock w (ticks w)) ext)).
    set (b0 := Buffer.slice buf (i * CHUNK_SIZE) (Z.min (i * CHUNK_SIZE + CHUNK_SIZE) size)).
    set (w1 := with_fs (<[p0 := b0]> (fs (with_ticks (S (ticks w)) w)))
                 (with_ticks (S (ticks w)) w)).
    destruct (IH (i + 1) (acc ++ [p0]) w1 ltac:(lia))
      as (new & w' & Hrun & Hlen & Henv & Hcalls & Htimers & Hnew & Hother).
    assert (Hfresh : p0 ∉ new).
    { intros Hin. apply list_elem_of_lookup in Hin as [k Hk].
      destruct (Hnew k p0 Hk) as [[t Ht] _]. unfold p0 in Ht. simpl in Ht.
      apply join_inj, chunk_name_inj in Ht; lia. }
    exists (p0 :: new), w'. split_and!.
    + simpl. unfold bind, os_tmpdir, Date_now, writeFile. simpl.
      rewrite <- app_assoc in Hrun. exact Hrun.
    + simpl. now rewrite Hlen.
    + exact Henv.
    + exact Hcalls.
    + exact Htimers.
    + intros k p H. destruct k as [|k]; simpl in H; [injection H as <-|].
      * split; [exists (clock w (ticks w)); now rewrite Z.add_0_r|].
        rewrite Hother by assumption. simpl.
        rewrite lookup_insert_eq, Z.add_0_r. reflexivity.
      * destruct (Hnew k p H) as [[t Ht] ->]. split.
        -- exists t. rewrite Ht. simpl. do 2 f_equal. lia.
        -- do 3 f_equal; lia.
    + intros p Hp. apply not_elem_of_cons in Hp as [Hne Hp].
      rewrite Hother by assumption. simpl. now rewrite lookup_insert_ne.
Qed.

Lemma splitMP3IntoChunks_spec (filePath : string) (fileSize : Z) (w : World)
    (fileBuffer : list byte) :
  fs w !! filePath = Some fileBuffer ->
  exists (chunks : list string) (w' : World),
    splitMP3IntoChunks filePath fileSize w = (Ok chunks, w') /\
    length chunks = Z.to_nat (ceil_div fileSize CHUNK_SIZE) /\
    same_env w w' /\ calls w' = calls w /\ timers w' = timers w /\
    (forall (k : nat) (p : string), chunks !! k = Some p ->
       fs w' !! p =
         Some (Buffer.slice fileBuffer (Z.of_nat k * CHUNK_SIZE)
                 (Z.min (Z.of_nat k * CHUNK_SIZE + CHUNK_SIZE) fileSize))) /\
    (forall p : string, p ∉ chunks -> fs w' !! p = fs w !! p).
Proof.
  intros Hfile.
  destruct (split_loop_spec fileBuffer fileSize (Path.extname filePath)
              (Z.to_nat (ceil_div fileSize CHUNK_SIZE)) 0 [] w ltac:(lia))
    as (new & w' & Hrun & Hlen & Henv & Hcalls & Htimers & Hnew & Hother).
  exists new, w'. split_and!; auto.
  - unfold splitMP3IntoChunks, bind, readFile. now rewrite Hfile.
  - intros k p Hk. destruct (Hnew k p Hk) as [_ ->]. reflexivity.
Qed.

Lemma splitMP3IntoChunks_missing (filePath : string) (fileSize : Z) (w : World) :
  fs w !! filePath = None ->
  splitMP3IntoChunks filePath fileSize w = (Throw (ENOENT filePath), w).
Proof.
  intros Hfile. unfold splitMP3IntoChunks, bind, readFile. now rewrite Hfile.
Qed.

(** C1. For a file of [S > 0] bytes the chunker writes exactly [ceil(S/C)]
    chunk files; chunk [i] holds the bytes of the range
    [[i*C, min((i+1)*C, S))]; the ranges are non-empty, each starts where the
    previous one ends, the last one ends at [S]; and the chunk contents put
    end to end in index order are the bytes of the file. *)
Theorem splitMP3IntoChunks_partition (w : World) (filePath : string)
    (fileBuffer : list byte) :
  let S := Z.of_nat (length fileBuffer) in
  let n := ceil_div S CHUNK_SIZE in
  let range := fun i : Z => (i * CHUNK_SIZE, Z.min ((i + 1) * CHUNK_SIZE) S) in
  fs w !! filePath = Some fileBuffer ->
  0 < S ->
  (n - 1) * CHUNK_SIZE < S <= n * CHUNK_SIZE /\
  exists (chunks : list string) (w' : World),
    splitMP3IntoChunks filePath S w = (Ok chunks, w') /\
    Z.of_nat (length chunks) = n /\
    (forall i : Z, 0 <= i < n ->
       (range i).1 < (range i).2 /\
       (i + 1 < n -> (range i).2 = (range (i + 1)).1) /\
       (i + 1 = n -> (range i).2 = S)) /\
    (forall (i : nat) (p : string), chunks !! i = Some p ->
       fs w' !! p =
         Some (Buffer.byte_range fileBuffer (range (Z.of_nat i)).1 (range (Z.of_nat i)).2)) /\
    concat (map (fun i => Buffer.byte_range fileBuffer (range i).1 (range i).2)
                (seqZ 0 n)) = fileBuffer.
Proof.
  intros S n range Hfile HS.
  pose proof (ceil_div_bounds S CHUNK_SIZE CHUNK_SIZE_pos) as Hb. fold n in Hb.
  pose proof CHUNK_SIZE_pos as HC.
  assert (Hn : 0 < n) by (apply ceil_div_pos; assumption).
  split; [exact Hb|].
  destruct (splitMP3IntoChunks_spec filePath S w fileBuffer Hfile)
    as (chunks & w' & Hrun & Hlen & _ & _ & _ & Hchunk & _).
  fold n in Hlen.
  exists chunks, w'. split; [exact Hrun|]. split; [lia|]. split; [|split].
  - intros i Hi. unfold range. simpl. split_and!.
    + apply Z.min_glb_lt; nia.
    + intros Hlt. apply Z.min_l. nia.
    + intros Heq. apply Z.min_r. rewrite Heq. lia.
  - intros i p Hi. rewrite (Hchunk i p Hi). f_equal. unfold range. simpl.
    assert (Z.of_nat i < n).
    { apply lookup_lt_Some in Hi. lia. }
    replace (Z.of_nat i * CHUNK_SIZE + CHUNK_SIZE) with ((Z.of_nat i + 1) * CHUNK_SIZE) by lia.
    apply slice_byte_range; fold S; nia.
  - pose proof (concat_byte_ranges fileBuffer CHUNK_SIZE (Z.to_nat n) HC 0
                  ltac:(lia)) as Hcat.
    rewrite Z2Nat.id in Hcat by lia. apply Hcat. fold S. lia.
Qed.

(** ** The transcriber *)

Lemma status_is_true (n : Z) (e : JsError) : status_is n e = true <-> status e = Some n.
Proof.
  unfold status_is. destruct (status e) as [s|]; [|split; discriminate].
  rewrite Z.eqb_eq. split; congruence.
Qed.

Lemma with_fs_id (w : World) : with_fs (fs w) w = w.
Proof. now destruct w. Qed.

Lemma create_spec (p : string) (w : World) :
  exists reply : Reply,
    reply = match fs w !! p with
            | Some data => whisper w (length (calls w)) data
            | None => Failure (ENOENT p)
            end /\
    transcriptions_create p w =
      (match reply with Text t => Ok t | Failure e => Throw e end,
       with_calls (calls w ++ [mkCall p reply]) w).
Proof.
  eexists. split; [reflexivity|]. unfold transcriptions_create.
  now destruct (match fs w !! p with Some _ => _ | None => _ end).
Qed.

Lemma create_throw (p : string) (w w1 : World) (e : JsError) :
  transcriptions_create p w = (Throw e, w1) ->
  w1 = with_calls (calls w ++ [failed_call p e]) w.
Proof.
  destruct (create_spec p w) as (reply & _ & ->).
  destruct reply; intros [= <- <-]; reflexivity.
Qed.

Lemma create_failure (p : string) (w : World) (data : list byte) (e : JsError) :
  fs w !! p = Some data -> whisper w (length (calls w)) data = Failure e ->
  transcriptions_create p w = (Throw e, with_calls (calls w ++ [failed_call p e]) w).
Proof. intros Hf Hw. unfold transcriptions_create. now rewrite Hf, Hw. Qed.

Lemma create_text (p : string) (w : World) (data : list byte) (t : string) :
  fs w !! p = Some data -> whisper w (length (calls w)) data = Text t ->
  transcriptions_create p w = (Ok t, with_calls (calls w ++ [mkCall p (Text t)]) w).
Proof. intros Hf Hw. unfold transcriptions_create. now rewrite Hf, Hw. Qed.

Section Retries.

Import Retrying.

Variables (filePath : string) (data : list byte).

Lemma transient_inv (e : JsError) :
  transient e = true ->
  status_is 401 e = false /\ status_is 429 e = false /\ status_is 413 e = false /\
  is_connection_error e = true.
Proof.
  unfold transient. rewrite !andb_true_iff, !negb_true_iff. tauto.
Qed.

(** One transient failure while retries are left: wait, then try again. *)
Lemma retry_step (r : Z) (w : World) (e : JsError) :
  fs w !! filePath = Some data ->
  whisper w (length (calls w)) data = Failure e ->
  transient e = true -> r < MAX_RETRIES ->
  transcribeAudio filePath r w =
  transcribeAudio filePath (r + 1)
    (with_timers (timers w ++ [(r + 1) * 2000])
       (with_calls (calls w ++ [failed_call filePath e]) w)).
Proof.
  intros Hf Hw Ht Hr. rewrite transcribeAudio_equation_1 at 1.
  rewrite (create_failure _ _ _ _ Hf Hw).
  destruct (transient_inv e Ht) as (-> & -> & -> & ->).
  destruct (Z_lt_dec r MAX_RETRIES); [reflexivity|lia].
Qed.

(** A transient failure when no retry is left. *)
Lemma retry_exhausted (r : Z) (w : World) (e : JsError) :
  fs w !! filePath = Some data ->
  whisper w (length (calls w)) data = Failure e ->
  transient e = true -> MAX_RETRIES <= r ->
  transcribeAudio filePath r w =
  (Throw (Error msg_connection), with_calls (calls w ++ [failed_call filePath e]) w).
Proof.
  intros Hf Hw Ht Hr. rewrite transcribeAudio_equation_1.
  rewrite (create_failure _ _ _ _ Hf Hw).
  destruct (transient_inv e Ht) as (-> & -> & -> & ->).
  destruct (Z_lt_dec r MAX_RETRIES); [lia|reflexivity].
Qed.

Lemma attempt_text (r : Z) (w : World) (t : string) :
  fs w !! filePath = Some data ->
  whisper w (length (calls w)) data = Text t ->
  transcribeAudio filePath r w =
  (Ok t, with_calls (calls w ++ [mkCall filePath (Text t)]) w).
Proof.
  intros Hf Hw. rewrite transcribeAudio_equation_1.
  now rewrite (create_text _ _ _ _ Hf Hw).
Qed.

(** A run of transient failures that fits in the retries left. *)
Lemma retry_chain (es : list JsError) :
  forall (r : Z) (w : World),
    r + Z.of_nat (length es) <= MAX_RETRIES ->
    fs w !! filePath = Some data ->
    (forall (i : nat) (e : JsError), es !! i = Some e ->
       whisper w (length (calls w) + i) data = Failure e /\ transient e = true) ->
    transcribeAudio filePath r w =
    transcribeAudio filePath (r + Z.of_nat (length es))
      (with_timers (timers w ++ waits r (length es))
         (with_calls (calls w ++ map (failed_call filePath) es) w)).
Proof.
  induction es as [|e es IH]; intros r w Hr Hf Hes.
  - simpl. rewrite Z.add_0_r. unfold waits. simpl. rewrite !app_nil_r.
    now destruct w.
  - destruct (Hes 0%nat e eq_refl) as [Hw Ht]. rewrite Nat.add_0_r in Hw.
    change (length (e :: es)) with (S (length es)) in *.
    rewrite Nat2Z.inj_succ in Hr. unfold MAX_RETRIES in Hr.
    rewrite (retry_step r w e Hf Hw Ht) by (unfold MAX_RETRIES; lia).
    rewrite IH; [| unfold MAX_RETRIES; lia | exact Hf |].
    + f_equal; [lia|]. unfold with_timers, with_calls, waits. simpl.
      f_equal.
      * now rewrite <- app_assoc.
      * rewrite Nat2Z.inj_succ, (seqZ_cons r) by lia. simpl.
        rewrite <- app_assoc. simpl.
        replace (Z.pred (Z.succ (Z.of_nat (length es)))) with (Z.of_nat (length es)) by lia.
        replace (Z.succ r) with (r + 1) by lia. reflexivity.
    + intros i e' Hi. simpl. rewrite length_app. simpl.
      replace (length (calls w) + 1 + i)%nat with (length (calls w) + S i)%nat by lia.
      apply Hes. exact Hi.
Qed.

End Retries.
Lemma single_call_shape (filePath : string) (reply : Reply) (w : World) (r : Z) :
  let w1 := with_calls (calls w ++ [mkCall filePath reply]) w in
  exists k : nat,
    (k <= 0)%nat /\
    timers w1 = timers w ++ waits r k /\
    (exists new, calls w1 = calls w ++ new /\ length new = S k /\
                 Forall (fun c => call_path c = filePath) new) /\
    fs w1 = fs w /\ same_env w w1 /\ ticks w1 = ticks w.
Proof.
  intros w1.
  refine (ex_intro _ 0%nat (conj _ (conj _ (conj _ (conj _ (conj _ _)))))).
  - lia.
  - unfold waits; simpl; now rewrite app_nil_r.
  - exists [mkCall filePath reply].
    refine (conj _ (conj _ _)); [reflexivity|reflexivity|repeat constructor].
  - reflexivity.
  - repeat split.
  - reflexivity.
Qed.

(** Whatever the service answers, the transcriber with retries makes [k+1]
    requests and waits [k] times, [k] at most the retries left, and touches
    nothing else. *)
Lemma retrying_shape (filePath : string) (n : nat) :
  forall (r : Z) (w : World),
    Z.to_nat (Retrying.MAX_RETRIES - r) = n ->
    exists k : nat,
      (k <= n)%nat /\
      let w' := (Retrying.transcribeAudio filePath r w).2 in
      timers w' = timers w ++ waits r k /\
      (exists new, calls w' = calls w ++ new /\ length new = S k /\
                   Forall (fun c => call_path c = filePath) new) /\
      fs w' = fs w /\ same_env w w' /\ ticks w' = ticks w.
Proof.
  induction n as [|n IH]; intros r w Hn;
    rewrite Retrying.transcribeAudio_equation_1;
    destruct (create_spec filePath w) as (reply & _ & ->);
    set (w1 := with_calls (calls w ++ [mkCall filePath reply]) w);
    pose proof (single_call_shape filePath reply w r) as Hbase;
    fold w1 in Hbase; simpl in Hbase.
  - destruct Hbase as (k & Hk & Hrest). exists k. split; [lia|].
    destruct reply as [t|e]; simpl; [exact Hrest|].
    destruct (status_is 401 e); [exact Hrest|].
    destruct (status_is 429 e); [exact Hrest|].
    destruct (status_is 413 e); [exact Hrest|].
    destruct (Retrying.is_connection_error e); [|exact Hrest].
    destruct (Z_lt_dec r Retrying.MAX_RETRIES); [lia|exact Hrest].
  - assert (Hstop : exists k : nat, (k <= S n)%nat /\
              timers w1 = timers w ++ waits r k /\
              (exists new, calls w1 = calls w ++ new /\ length new = S k /\
                           Forall (fun c => call_path c = filePath) new) /\
              fs w1 = fs w /\ same_env w w1 /\ ticks w1 = ticks w).
    { destruct Hbase as (k & Hk & Hrest). exists k. split; [lia|exact Hrest]. }
    destruct reply as [t|e]; simpl; [exact Hstop|].
    destruct (status_is 401 e); [exact Hstop|].
    destruct (status_is 429 e); [exact Hstop|].
    destruct (status_is 413 e); [exact Hstop|].
    destruct (Retrying.is_connection_error e); [|exact Hstop].
    destruct (Z_lt_dec r Retrying.MAX_RETRIES) as [Hlt|Hge]; [|exact Hstop].
    clear Hstop.
    clear Hbase.
    set (w2 := (sleep ((r + 1) * 2000) w1).2).
    destruct (IH (r + 1) w2 ltac:(lia)) as (k & Hk & Ht & (new & Hc & Hlen & Hall) & Hfs & Henv & Hticks).
    exists (S k). split; [lia|]. subst w2 w1. simpl in *.
    refine (conj _ (conj _ (conj _ (conj _ _)))).
    + rewrite Ht. unfold waits. rewrite Nat2Z.inj_succ, (seqZ_cons r) by lia. simpl.
      rewrite <- app_assoc. simpl.
      replace (Z.pred (Z.succ (Z.of_nat k))) with (Z.of_nat k) by lia.
      replace (Z.succ r) with (r + 1) by lia. reflexivity.
    + exists (mkCall filePath (Failure e) :: new). refine (conj _ (conj _ _)).
      * rewrite Hc. now rewrite <- app_assoc.
      * simpl. now rewrite Hlen.
      * constructor; [reflexivity|exact Hall].
    + exact Hfs.
    + exact Henv.
    + exact Hticks.
Qed.

(** C5. On a file that exists, let the first requests fail with the transient
    connection errors [es] and let [last] be the answer to the next one. With
    at most three such failures and a text as [last], the text is returned
    after the waits 2 s, 4 s, ... (one per failure). With three failures and
    a fourth transient failure, the transcriber gives up with its fatal
    connection error, after exactly the waits 2 s, 4 s and 6 s and four
    requests. In every case at most three retries are made and the waits are
    a prefix of 2 s, 4 s, 6 s. *)
Theorem transcribeAudio_retries (filePath : string) (data : list byte) (w : World)
    (es : list JsError) (last : Reply) :
  fs w !! filePath = Some data ->
  (forall (i : nat) (e : JsError), es !! i = Some e ->
     whisper w (length (calls w) + i) data = Failure e /\ transient e = true) ->
  whisper w (length (calls w) + length es) data = last ->
  let w' := with_timers (timers w ++ waits 0 (length es))
              (with_calls (calls w ++ map (failed_call filePath) es ++
                           [mkCall filePath last]) w) in
  (forall t : string, (length es <= 3)%nat -> last = Text t ->
     Retrying.transcribeAudio filePath 0 w = (Ok t, w')) /\
  (forall e : JsError, length es = 3%nat -> last = Failure e -> transient e = true ->
     Retrying.transcribeAudio filePath 0 w = (Throw (Error Retrying.msg_connection), w') /\
     timers w' = timers w ++ [2000; 4000; 6000]) /\
  (exists k : nat, (k <= 3)%nat /\
     timers (Retrying.transcribeAudio filePath 0 w).2 = timers w ++ waits 0 k /\
     length (calls (Retrying.transcribeAudio filePath 0 w).2) = (length (calls w) + S k)%nat).
Proof.
  intros Hf Hes Hlast w'.
  assert (Hchain : (length es <= 3)%nat ->
    Retrying.transcribeAudio filePath 0 w =
    Retrying.transcribeAudio filePath (Z.of_nat (length es))
      (with_timers (timers w ++ waits 0 (length es))
         (with_calls (calls w ++ map (failed_call filePath) es) w))).
  { intros Hle. rewrite (retry_chain filePath data es 0 w); auto.
    unfold Retrying.MAX_RETRIES. lia. }
  split_and!.
  - intros t Hle ->. rewrite Hchain by exact Hle.
    erewrite attempt_text; [|exact Hf|].
    + unfold w', with_timers, with_calls. simpl. now rewrite <- app_assoc.
    + simpl. rewrite length_app, length_map. exact Hlast.
  - intros e Hlen -> Ht. split.
    + rewrite Hchain by lia.
      erewrite retry_exhausted; [|exact Hf| |exact Ht|unfold Retrying.MAX_RETRIES; lia].
      * unfold w', with_timers, with_calls. simpl. now rewrite <- app_assoc.
      * simpl. rewrite length_app, length_map. exact Hlast.
    + unfold w'. simpl. rewrite Hlen. reflexivity.
  - destruct (retrying_shape filePath 3 0 w eq_refl)
      as (k & Hk & Ht & (new & Hc & Hlen & _) & _).
    exists k. split_and!; [exact Hk|exact Ht|].
    rewrite Hc, length_app, Hlen. reflexivity.
Qed.

(** C9. A request that fails with status 401, 429 or 413 makes the
    transcriber raise its fixed error for that status; a failure with none of
    these statuses that is not a connection error is raised with the
    upstream message (the fixed default stands in for an empty one). In each
    case the error is raised at once: the world is the one the single failed
    request left, so no wait and no further request was made. *)
Theorem transcribeAudio_classification (filePath : string) (retryCount : Z)
    (w w1 : World) (e : JsError) :
  transcriptions_create filePath w = (Throw e, w1) ->
  (status e = Some 401 ->
     Retrying.transcribeAudio filePath retryCount w = (Throw (Error Retrying.msg_401), w1)) /\
  (status e = Some 429 ->
     Retrying.transcribeAudio filePath retryCount w = (Throw (Error Retrying.msg_429), w1)) /\
  (status e = Some 413 ->
     Retrying.transcribeAudio filePath retryCount w = (Throw (Error Retrying.msg_413), w1)) /\
  (status e <> Some 401 -> status e <> Some 429 -> status e <> Some 413 ->
   Retrying.is_connection_error e = false ->
     Retrying.transcribeAudio filePath retryCount w =
       (Throw (Error (or_default (message e) Retrying.msg_unknown)), w1) /\
     (message e <> ""%string -> or_default (message e) Retrying.msg_unknown = message e)) /\
  timers w1 = timers w /\
  calls w1 = calls w ++ [failed_call filePath e].
Proof.
  intros Hcreate. pose proof (create_throw _ _ _ _ Hcreate) as Hw1.
  rewrite Retrying.transcribeAudio_equation_1, Hcreate.
  split_and!.
  - intros Hs. apply status_is_true in Hs. now rewrite Hs.
  - intros Hs. unfold status_is. rewrite Hs. reflexivity.
  - intros Hs. unfold status_is. rewrite Hs. reflexivity.
  - intros H1 H2 H3 Hc.
    destruct (status_is 401 e) eqn:E1; [apply status_is_true in E1; contradiction|].
    destruct (status_is 429 e) eqn:E2; [apply status_is_true in E2; contradiction|].
    destruct (status_is 413 e) eqn:E3; [apply status_is_true in E3; contradiction|].
    rewrite Hc. split; [reflexivity|].
    intros Hne. unfold or_default. destruct (String.eqb_spec (message e) ""); congruence.
  - now subst w1.
  - now subst w1.
Qed.

(** ** Cleaning up *)

Lemma lookup_remove_all (l : list string) (m : gmap string (list byte)) (p : string) :
  remove_all l m !! p = if decide (p ∈ l) then None else m !! p.
Proof.
  unfold remove_all. revert m. induction l as [|q l IH]; intros m.
  - destruct (decide (p ∈ [])) as [Hin|_]; [|reflexivity].
    now apply not_elem_of_nil in Hin.
  - change (foldl (fun acc p => delete p acc) m (q :: l))
      with (foldl (fun acc p => delete p acc) (delete q m) l).
    rewrite IH. destruct (decide (p ∈ l)) as [Hin|Hnin];
      destruct (decide (p ∈ q :: l)) as [Hin'|Hnin']; try reflexivity.
    + exfalso. apply Hnin'. apply elem_of_cons. now right.
    + apply elem_of_cons in Hin' as [->|Hin']; [apply lookup_delete_eq|contradiction].
    + apply lookup_delete_ne. intros ->. apply Hnin'. apply elem_of_cons. now left.
Qed.

Lemma clean_chunks_spec (l : list string) (w : World) :
  clean_chunks l w = (Ok tt, with_fs (remove_all l (fs w)) w).
Proof.
  revert w. induction l as [|p l IH]; intros w; simpl.
  - unfold ret, remove_all. simpl. now rewrite with_fs_id.
  - unfold bind, try_catch, unlink. destruct (fs w !! p) eqn:E.
    + rewrite IH. reflexivity.
    + unfold ret. rewrite IH. unfold remove_all. simpl.
      now rewrite (delete_id (fs w) p E).
Qed.

(** ** The orchestrator, for any transcriber that leaves the files alone *)

Section OrchestratorFacts.

Variable transcribeAudio : string -> M string.

Hypothesis transcribe_frame : forall (p : string) (w : World),
  fs (transcribeAudio p w).2 = fs w /\ same_env w (transcribeAudio p w).2.

Lemma transcribe_chunks_frame (todo : list string) :
  forall (i n : Z) (acc : list string) (w : World),
    fs (transcribe_chunks transcribeAudio todo i n acc w).2 = fs w /\
    same_env w (transcribe_chunks transcribeAudio todo i n acc w).2.
Proof.
  induction todo as [|c todo IH]; intros i n acc w; simpl.
  - split; [reflexivity|apply same_env_refl].
  - unfold bind, try_catch, throw.
    destruct (transcribe_frame c w) as [Hfs Henv].
    destruct (transcribeAudio c w) as [[t|e] w1]; simpl in *.
    + destruct (IH (i + 1) n (acc ++ [t]) w1) as [Hfs' Henv'].
      split; [congruence|eauto using same_env_trans].
    + now split.
Qed.

Lemma transcribe_chunks_app (pre rest : list string) :
  forall (i n : Z) (acc : list string) (w : World),
    transcribe_chunks transcribeAudio (pre ++ rest) i n acc w =
    match transcribe_chunks transcribeAudio pre i n acc w with
    | (Ok ts, w1) =>
        transcribe_chunks transcribeAudio rest (i + Z.of_nat (length pre)) n ts w1
    | (Throw e, w1) => (Throw e, w1)
    end.
Proof.
  induction pre as [|c pre IH]; intros i n acc w; simpl.
  - unfold ret. now rewrite Z.add_0_r.
  - unfold bind, try_catch, throw.
    destruct (transcribeAudio c w) as [[t|e] w1]; [|reflexivity].
    rewrite IH. replace (i + 1 + Z.of_nat (length pre)) with (i + Z.pos (Pos.of_succ_nat (length pre))) by lia.
    reflexivity.
Qed.

(** The loop stops at the first chunk whose transcription throws. *)
Lemma transcribe_chunks_fail (pre post : list string) (chunk : string)
    (n : Z) (ts : list string) (w wk wk' : World) (e : JsError) :
  transcribe_chunks transcribeAudio pre 0 n [] w = (Ok ts, wk) ->
  transcribeAudio chunk wk = (Throw e, wk') ->
  transcribe_chunks transcribeAudio (pre ++ chunk :: post) 0 n [] w =
  (Throw (Error (msg_chunk_failed (Z.of_nat (length pre)) n (message e))), wk').
Proof.
  intros Hpre Hfail. rewrite transcribe_chunks_app, Hpre. simpl.
  unfold bind, try_catch, throw. now rewrite Hfail.
Qed.

(** The files after [processAudioFile]: those of before, less the chunk
    paths when the chunker ran. *)
Lemma processAudioFile_fs (filePath : string) (fileSize : Z) (originalName : string)
    (w : World) :
  let w' := (processAudioFile transcribeAudio filePath fileSize originalName w).2 in
  same_env w w' /\
  (fs w' = fs w \/
   exists chunks w1,
     isSupportedFormat originalName = true /\ MAX_SIZE < fileSize /\
     splitMP3IntoChunks filePath fileSize w = (Ok chunks, w1) /\
     fs w' = remove_all chunks (fs w1)).
Proof.
  unfold processAudioFile.
  destruct (isSupportedFormat originalName) eqn:Hfmt; simpl;
    [|split; [apply same_env_refl|now left]].
  unfold process_try, collect_transcriptions.
  destruct (Z.leb_spec fileSize MAX_SIZE) as [Hle|Hgt].
  - destruct (transcribe_frame filePath w) as [Hfs Henv].
    destruct (transcribeAudio filePath w) as [[t|e] w1]; simpl in *;
      [destruct (combine_transcriptions [t])|]; simpl;
      (split; [exact Henv|left; exact Hfs]).
  - destruct (fs w !! filePath) as [buf|] eqn:Hfile.
    + destruct (splitMP3IntoChunks_spec filePath fileSize w buf Hfile)
        as (chunks & w1 & Hrun & _ & Henv1 & _ & _ & _ & _).
      rewrite Hrun.
      destruct (transcribe_chunks_frame chunks 0 (Z.of_nat (length chunks)) [] w1)
        as [Hfs Henv].
      destruct (transcribe_chunks transcribeAudio chunks 0 _ [] w1) as [r w2].
      simpl in Hfs, Henv.
      assert (Hgoal :
                same_env w (clean_chunks chunks w2).2 /\
                (fs (clean_chunks chunks w2).2 = fs w \/
                 exists chunks0 w0,
                   true = true /\ MAX_SIZE < fileSize /\
                   (Ok chunks, w1) = (Ok chunks0, w0) /\
                   fs (clean_chunks chunks w2).2 = remove_all chunks0 (fs w0))).
      { rewrite clean_chunks_spec. simpl. split.
        - eauto using same_env_trans.
        - right. exists chunks, w1. rewrite Hfs. auto. }
      destruct r as [ts|e]; simpl; exact Hgoal.
    + rewrite (splitMP3IntoChunks_missing _ _ _ Hfile). simpl.
      split; [apply same_env_refl|now left].
Qed.

End OrchestratorFacts.

(** ** The two shapes of a run of [processAudioFile] *)

Section Shapes.

Variable transcribeAudio : string -> M string.

Lemma processAudioFile_unsupported (filePath : string) (fileSize : Z)
    (originalName : string) (w : World) :
  isSupportedFormat originalName = false ->
  processAudioFile transcribeAudio filePath fileSize originalName w =
  (Throw (Error (msg_unsupported (JsString.toLowerCase (Path.extname originalName)))), w).
Proof. intros H. unfold processAudioFile. now rewrite H. Qed.

Lemma processAudioFile_direct (filePath : string) (fileSize : Z)
    (originalName : string) (w : World) :
  isSupportedFormat originalName = true -> fileSize <= MAX_SIZE ->
  processAudioFile transcribeAudio filePath fileSize originalName w =
  match transcribeAudio filePath w with
  | (Ok t, w1) => (combine_transcriptions [t], w1)
  | (Throw e, w1) => (Throw e, w1)
  end.
Proof.
  intros Hfmt Hle. unfold processAudioFile, process_try, collect_transcriptions.
  rewrite Hfmt. simpl. destruct (Z.leb_spec fileSize MAX_SIZE); [|lia].
  now destruct (transcribeAudio filePath w) as [[t|e] w1].
Qed.

Lemma processAudioFile_chunked (filePath : string) (fileSize : Z)
    (originalName : string) (w w1 : World) (chunks : list string) :
  isSupportedFormat originalName = true -> MAX_SIZE < fileSize ->
  splitMP3IntoChunks filePath fileSize w = (Ok chunks, w1) ->
  processAudioFile transcribeAudio filePath fileSize originalName w =
  match transcribe_chunks transcribeAudio chunks 0 (Z.of_nat (length chunks)) [] w1 with
  | (Ok ts, w2) => (combine_transcriptions ts, with_fs (remove_all chunks (fs w2)) w2)
  | (Throw e, w2) => (Throw e, with_fs (remove_all chunks (fs w2)) w2)
  end.
Proof.
  intros Hfmt Hgt Hrun. unfold processAudioFile, process_try, collect_transcriptions.
  rewrite Hfmt. simpl. destruct (Z.leb_spec fileSize MAX_SIZE); [lia|].
  rewrite Hrun.
  destruct (transcribe_chunks transcribeAudio chunks 0 _ [] w1) as [[ts|e] w2];
    now rewrite clean_chunks_spec.
Qed.

Lemma processAudioFile_unreadable (filePath : string) (fileSize : Z)
    (originalName : string) (w : World) :
  isSupportedFormat originalName = true -> MAX_SIZE < fileSize ->
  fs w !! filePath = None ->
  processAudioFile transcribeAudio filePath fileSize originalName w =
  (Throw (ENOENT filePath), w).
Proof.
  intros Hfmt Hgt Hfile. unfold processAudioFile, process_try, collect_transcriptions.
  rewrite Hfmt. simpl. destruct (Z.leb_spec fileSize MAX_SIZE); [lia|].
  now rewrite (splitMP3IntoChunks_missing _ _ _ Hfile).
Qed.

End Shapes.

(** ** Both transcribers leave the files alone *)

Lemma transcribeAudio_of_frame (ep : Endpoint) (p : string) (w : World) :
  fs (transcribeAudio_of ep p w).2 = fs w /\ same_env w (transcribeAudio_of ep p w).2.
Proof.
  destruct ep; simpl.
  - unfold Minimal.transcribeAudio.
    destruct (create_spec p w) as (reply & _ & ->). simpl. repeat split.
  - destruct (retrying_shape p 3 0 w eq_refl) as (k & _ & _ & _ & Hfs & Henv & _).
    now split.
Qed.

Lemma split_Ok_readable (filePath : string) (fileSize : Z) (w w1 : World)
    (chunks : list string) :
  splitMP3IntoChunks filePath fileSize w = (Ok chunks, w1) ->
  exists buf, fs w !! filePath = Some buf.
Proof.
  intros Hrun. destruct (fs w !! filePath) as [buf|] eqn:Hfile; [eauto|].
  rewrite (splitMP3IntoChunks_missing _ _ _ Hfile) in Hrun. discriminate.
Qed.

(** C7. A file name whose extension, lower-cased, is not in the allow-list
    makes [processAudioFile] throw the error that names that extension, and
    the world is left as it was: no request to the service, no chunk, no
    clock reading. Holds for both endpoints. *)
Theorem processAudioFile_rejects_unsupported (ep : Endpoint) (filePath : string)
    (fileSize : Z) (originalName : string) (w : World) :
  JsString.toLowerCase (Path.extname originalName) ∉ SUPPORTED_FORMATS ->
  processAudioFile (transcribeAudio_of ep) filePath fileSize originalName w =
    (Throw (Error ("Formato " +:+ JsString.toLowerCase (Path.extname originalName) +:+
                   " no soportado. Por favor, convierte tu audio a MP3 primero usando un convertidor online.")),
     w).
Proof.
  intros Hnot. apply processAudioFile_unsupported.
  unfold isSupportedFormat, includes.
  apply not_true_is_false. intros Hex. apply Hnot.
  apply existsb_exists in Hex as (x & Hin & Heq).
  apply String.eqb_eq in Heq. subst x. now apply list_elem_of_In.
Qed.

(** ** The requests of the minimal endpoint *)

(** The loop over the chunks makes its requests on the chunks in order, one
    per chunk, each after the previous one was answered with a text; it ends
    with all the texts, or at the first failure. *)
Lemma minimal_chunks_calls (todo : list string) :
  forall (i n : Z) (acc : list string) (w : World),
  exists new : list Call,
    let '(r, w') := transcribe_chunks Minimal.transcribeAudio todo i n acc w in
    calls w' = calls w ++ new /\ timers w' = timers w /\
    map call_path new = take (length new) todo /\
    (length new <= length todo)%nat /\
    (forall (j : nat) (c : Call), new !! j = Some c -> (S j < length new)%nat ->
       exists t, call_reply c = Text t) /\
    match r with
    | Ok ts =>
        length new = length todo /\
        exists frags, ts = acc ++ frags /\ map call_reply new = map Text frags
    | Throw err =>
        exists (c : Call) (e : JsError),
          last new = Some c /\ call_reply c = Failure e /\
          err = Error (msg_chunk_failed (i + Z.of_nat (length new) - 1) n (message e))
    end.
Proof.
  induction todo as [|p todo IH]; intros i n acc w.
  - exists []. simpl. unfold ret. rewrite !app_nil_r. split_and!; auto.
    + intros j c Hj. rewrite lookup_nil in Hj. discriminate.
    + exists []. now rewrite app_nil_r.
  - simpl. unfold bind, try_catch, throw.
    change (Minimal.transcribeAudio p w) with (transcriptions_create p w).
    destruct (create_spec p w) as (reply & _ & ->).
    set (w1 := with_calls (calls w ++ [mkCall p reply]) w).
    destruct reply as [t|e].
    + destruct (IH (i + 1) n (acc ++ [t]) w1) as [new Hnew].
      exists (mkCall p (Text t) :: new).
      destruct (transcribe_chunks Minimal.transcribeAudio todo (i + 1) n (acc ++ [t]) w1)
        as [r w'].
      destruct Hnew as (Hc & Ht & Hpaths & Hlen & Hans & Hr).
      split_and!.
      * rewrite Hc. simpl. now rewrite <- app_assoc.
      * exact Ht.
      * simpl. now rewrite Hpaths at 1.
      * simpl. lia.
      * intros [|j] c Hj Hlt; simpl in *.
        -- injection Hj as <-. now exists t.
        -- apply (Hans j c Hj). lia.
      * destruct r as [ts|err].
        -- destruct Hr as (Hl & frags & -> & Hm). split; [simpl; lia|].
           exists (t :: frags). rewrite <- app_assoc. simpl. now rewrite Hm.
        -- destruct Hr as (c & e & Hlast & Hrep & ->).
           exists c, e. split_and!; auto.
           ++ destruct new; [discriminate|exact Hlast].
           ++ do 2 f_equal. simpl length. lia.
    + exists [mkCall p (Failure e)]. simpl. split_and!; auto.
      * lia.
      * intros [|j] c Hj Hlt; simpl in *; lia.
      * exists (mkCall p (Failure e)), e. split_and!; auto.
        do 2 f_equal. lia.
Qed.

Lemma zip_with_calls (new : list Call) :
  new = zip_with mkCall (map call_path new) (map call_reply new).
Proof. induction new as [|[p r] new IH]; simpl; [reflexivity|now rewrite <- IH]. Qed.

Lemma combine_transcriptions_Ok (ts : list string) (t : string) :
  combine_transcriptions ts = Ok t ->
  t = JsString.join separator ts /\ JsString.trim t <> ""%string.
Proof.
  unfold combine_transcriptions.
  destruct (Z.eqb_spec (JsString.len (JsString.trim (JsString.join separator ts))) 0) as [|Hne];
    [discriminate|].
  intros [= <-]. split; [reflexivity|]. intros E. apply Hne. now rewrite E.
Qed.

(** C3 (amended). On the minimal endpoint, for a file of a supported format:
    when the size is at most the threshold, exactly one request is made, on
    the whole file; when the size is above the threshold and the file can be
    read, the requests are made on the chunks 0, 1, 2, ... in this order, one
    per chunk, each after the previous one was answered with a text; they
    stop after the first request that fails, and when none fails there are
    exactly [ceil(S/C)] of them. *)
Theorem processAudioFile_calls (filePath : string) (fileSize : Z)
    (originalName : string) (w w' : World) (r : Result string) :
  isSupportedFormat originalName = true ->
  processAudioFile Minimal.transcribeAudio filePath fileSize originalName w = (r, w') ->
  (fileSize <= MAX_SIZE ->
     exists reply, calls w' = calls w ++ [mkCall filePath reply]) /\
  (MAX_SIZE < fileSize ->
   forall buf : list byte, fs w !! filePath = Some buf ->
     exists (chunks : list string) (w1 : World) (new : list Call),
       splitMP3IntoChunks filePath fileSize w = (Ok chunks, w1) /\
       Z.of_nat (length chunks) = ceil_div fileSize CHUNK_SIZE /\
       calls w' = calls w ++ new /\
       map call_path new = take (length new) chunks /\
       (forall (j : nat) (c : Call), new !! j = Some c -> (S j < length new)%nat ->
          exists t, call_reply c = Text t) /\
       ((forall c : Call, c ∈ new -> exists t, call_reply c = Text t) ->
          length new = length chunks) /\
       ((length new < length chunks)%nat ->
          exists (c : Call) (e err : JsError),
            last new = Some c /\ call_reply c = Failure e /\ r = Throw err)).
Proof.
  intros Hfmt Hrun. split.
  - intros Hle. rewrite (processAudioFile_direct _ _ _ _ _ Hfmt Hle) in Hrun.
    change (Minimal.transcribeAudio filePath w) with (transcriptions_create filePath w) in Hrun.
    destruct (create_spec filePath w) as (reply & _ & Hcreate). rewrite Hcreate in Hrun.
    exists reply. destruct reply; injection Hrun as _ <-; reflexivity.
  - intros Hgt buf Hfile.
    destruct (splitMP3IntoChunks_spec filePath fileSize w buf Hfile)
      as (chunks & w1 & Hsplit & Hlen & _ & Hcalls1 & _ & _ & _).
    rewrite (processAudioFile_chunked _ _ _ _ _ _ _ Hfmt Hgt Hsplit) in Hrun.
    destruct (minimal_chunks_calls chunks 0 (Z.of_nat (length chunks)) [] w1) as [new Hnew].
    destruct (transcribe_chunks Minimal.transcribeAudio chunks 0 _ [] w1) as [rc w2].
    destruct Hnew as (Hc & _ & Hpaths & Hle & Hans & Hr).
    assert (Hw' : calls w' = calls w2).
    { destruct rc; injection Hrun as _ <-; reflexivity. }
    exists chunks, w1, new. split_and!; auto.
    + rewrite Hlen. apply Z2Nat.id.
      pose proof (ceil_div_bounds fileSize CHUNK_SIZE CHUNK_SIZE_pos).
      assert (0 < MAX_SIZE) by reflexivity. assert (0 < CHUNK_SIZE) by reflexivity. nia.
    + now rewrite Hw', Hc, Hcalls1.
    + intros Hall. destruct rc as [ts|err]; [apply Hr|].
      destruct Hr as (c & e & Hlast & Hrep & _).
      destruct (Hall c) as [t Ht]; [|congruence].
      apply last_Some in Hlast as [l' ->]. apply elem_of_app. right. apply elem_of_cons. now left.
    + intros Hlt. destruct rc as [ts|err]; [destruct Hr; lia|].
      destruct Hr as (c & e & Hlast & Hrep & _).
      exists c, e, err. split_and!; auto. now injection Hrun as <- _.
Qed.

(** ** Blank texts *)

Lemma blank_app (a b : string) :
  JsString.blank (a +:+ b) = JsString.blank a && JsString.blank b.
Proof.
  induction a as [|c a IH]; simpl; [reflexivity|].
  now rewrite IH, andb_assoc.
Qed.

Lemma blank_join (l : list string) :
  Forall (fun f => JsString.blank f = true) l ->
  JsString.blank (JsString.join separator l) = true.
Proof.
  induction 1 as [|f l Hf Hl IH]; [reflexivity|].
  destruct l as [|g l]; [exact Hf|].
  change (JsString.join separator (f :: g :: l))
    with (f +:+ separator +:+ JsString.join separator (g :: l)).
  now rewrite !blank_app, Hf, IH.
Qed.

Lemma join_blank (l : list string) :
  JsString.blank (JsString.join separator l) = true ->
  Forall (fun f => JsString.blank f = true) l.
Proof.
  induction l as [|f l IH]; [constructor|].
  destruct l as [|g l]; [intros H; repeat constructor; exact H|].
  change (JsString.join separator (f :: g :: l))
    with (f +:+ separator +:+ JsString.join separator (g :: l)).
  rewrite !blank_app, !andb_true_iff. intros (Hf & _ & Hl).
  constructor; [exact Hf|now apply IH].
Qed.

Lemma trimStart_blank (s : string) :
  JsString.blank s = true -> JsString.trimStart s = ""%string.
Proof.
  induction s as [|c s IH]; simpl; [reflexivity|].
  destruct (JsString.is_space c); [exact IH|discriminate].
Qed.

Lemma trimEnd_empty (s : string) :
  JsString.trimEnd s = ""%string -> JsString.blank s = true.
Proof.
  induction s as [|c s IH]; simpl; [reflexivity|].
  destruct (JsString.trimEnd s); [|discriminate].
  destruct (JsString.is_space c); [intros _; now apply IH|discriminate].
Qed.

Lemma blank_trimStart (s : string) :
  JsString.blank (JsString.trimStart s) = true -> JsString.blank s = true.
Proof.
  induction s as [|c s IH]; simpl; [reflexivity|].
  destruct (JsString.is_space c) eqn:E; [exact IH|].
  simpl. now rewrite E.
Qed.

(** A text trims to the empty string exactly when it is blank. *)
Lemma trim_empty_iff (s : string) :
  JsString.trim s = ""%string <-> JsString.blank s = true.
Proof.
  unfold JsString.trim. split.
  - intros H. now apply blank_trimStart, trimEnd_empty.
  - intros H. now rewrite (trimStart_blank s H).
Qed.

Lemma combine_transcriptions_blank (ts : list string) :
  Forall (fun f => JsString.blank f = true) ts ->
  combine_transcriptions ts = Throw (Error msg_empty).
Proof.
  intros Hall. unfold combine_transcriptions.
  apply blank_join, trim_empty_iff in Hall. now rewrite Hall.
Qed.

(** C6. When every fragment that was collected is blank, the joined text
    trims to the empty string and [processAudioFile] throws its own error
    for it, told apart from every other error by its message; and a
    transcript that is returned is never blank. Holds for both endpoints. *)
Theorem processAudioFile_rejects_blank (ep : Endpoint) (filePath : string)
    (fileSize : Z) (originalName : string) (w w1 : World)
    (fragments chunksToClean : list string) :
  isSupportedFormat originalName = true ->
  collect_transcriptions (transcribeAudio_of ep) filePath fileSize w
    = (Ok fragments, chunksToClean, w1) ->
  Forall (fun f => JsString.blank f = true) fragments ->
  JsString.trim (JsString.join separator fragments) = ""%string /\
  (processAudioFile (transcribeAudio_of ep) filePath fileSize originalName w).1
    = Throw (Error "No se pudo obtener ninguna transcripción del audio") /\
  (forall (fileSize' : Z) (name' : string) (w0 w0' : World) (t : string),
     processAudioFile (transcribeAudio_of ep) filePath fileSize' name' w0 = (Ok t, w0') ->
     JsString.trim t <> ""%string).
Proof.
  intros Hfmt Hcollect Hblank. split_and!.
  - now apply trim_empty_iff, blank_join.
  - unfold processAudioFile, process_try. rewrite Hfmt, Hcollect. simpl.
    now rewrite (combine_transcriptions_blank fragments Hblank).
  - intros fileSize' name' w0 w0' t Hrun.
    unfold processAudioFile, process_try in Hrun.
    destruct (isSupportedFormat name'); simpl in Hrun; [|discriminate].
    destruct (collect_transcriptions _ filePath fileSize' w0) as [[[ts|e] clean] w2];
      [|discriminate].
    injection Hrun as Hcomb _. now apply combine_transcriptions_Ok in Hcomb.
Qed.

(** ** Extensions *)

Lemma substring_all (s : string) : substring 0 (String.length s) s = s.
Proof. induction s as [|c s IH]; simpl; [reflexivity|now rewrite IH]. Qed.

Lemma substring_suffix (a b : string) :
  substring (String.length a) (String.length b) (a +:+ b) = b.
Proof. induction a as [|c a IH]; simpl; [apply substring_all|exact IH]. Qed.

Lemma length_append (a b : string) :
  String.length (a +:+ b) = (String.length a + String.length b)%nat.
Proof. induction a as [|c a IH]; simpl; [reflexivity|now rewrite IH]. Qed.

Lemma chars_append (a b : string) :
  JsString.chars (a +:+ b) = JsString.chars a ++ JsString.chars b.
Proof.
  unfold JsString.chars. induction a as [|c a IH]; simpl; [reflexivity|now rewrite IH].
Qed.

Lemma toLowerCase_append (a b : string) :
  JsString.toLowerCase (a +:+ b) = JsString.toLowerCase a +:+ JsString.toLowerCase b.
Proof. induction a as [|c a IH]; simpl; [reflexivity|now rewrite IH]. Qed.

Lemma endsWith_append (a suf : string) : JsString.endsWith suf (a +:+ suf) = true.
Proof.
  unfold JsString.endsWith. rewrite length_append.
  replace (String.length a + String.length suf - String.length suf)%nat
    with (String.length a) by lia.
  rewrite substring_suffix, String.eqb_refl, andb_true_r.
  apply Nat.leb_le. lia.
Qed.

(** Once the dot and the end of the extension are found, the rest of the
    scan moves neither. *)
Lemma extname_loop_keeps (l : list ascii) :
  forall (i : Z) (st : Path.ExtScan),
    Path.startDot st <> -1 -> Path.endPos st <> -1 ->
    Path.startDot (Path.extname_loop l i st) = Path.startDot st /\
    Path.endPos (Path.extname_loop l i st) = Path.endPos st.
Proof.
  induction l as [|c l IH]; intros i [d sp e ms pd] Hd He; simpl in *; [now split|].
  destruct (Ascii.eqb c "/").
  - destruct (negb ms); [now split|]. now apply (IH (i - 1) (Path.mkExtScan d sp e ms pd)).
  - destruct (Z.eqb_spec e (-1)) as [|_]; [contradiction|].
    destruct (Ascii.eqb c "."); simpl.
    + destruct (Z.eqb_spec d (-1)) as [|_]; [contradiction|].
      destruct (negb (pd =? 1)).
      * now apply (IH (i - 1) (Path.mkExtScan d sp e ms 1)).
      * now apply (IH (i - 1) (Path.mkExtScan d sp e ms pd)).
    + destruct (Z.eqb_spec d (-1)) as [|_]; [contradiction|]. simpl.
      now apply (IH (i - 1) (Path.mkExtScan d sp e ms (-1))).
Qed.

Lemma extname_loop_cons (c : ascii) (rest : list ascii) (i d sp e : Z)
    (ms : bool) (pd : Z) :
  Ascii.eqb c "/" = false ->
  Path.extname_loop (c :: rest) i (Path.mkExtScan d sp e ms pd) =
  Path.extname_loop rest (i - 1)
    (Path.mkExtScan
       (if Ascii.eqb c "." then (if d =? -1 then i else d) else d)
       sp
       (if e =? -1 then i + 1 else e)
       (if e =? -1 then false else ms)
       (if Ascii.eqb c "."
        then (if d =? -1 then pd else if negb (pd =? 1) then 1 else pd)
        else (if negb (d =? -1) then -1 else pd))).
Proof.
  intros Hc. simpl. rewrite Hc.
  destruct (e =? -1) eqn:Ee; simpl;
    destruct (Ascii.eqb c ".") eqn:Ec; simpl;
    destruct (d =? -1) eqn:Ed; simpl; rewrite ?Ed; simpl;
    try destruct (negb (pd =? 1)); reflexivity.
Qed.

(** The scan of the four characters [".aac"] at the end of a name of
    length [n + 4]. *)
Lemma extname_loop_aac (rest : list ascii) (n : Z) :
  0 <= n ->
  Path.extname_loop ("c" :: "a" :: "a" :: "." :: rest)%char (n + 3) Path.scan0 =
  Path.extname_loop rest (n - 1) (Path.mkExtScan n 0 (n + 4) false 0).
Proof.
  intros Hn. unfold Path.scan0.
  rewrite extname_loop_cons by reflexivity.
  change (Ascii.eqb "c" ".") with false. change (-1 =? -1) with true. cbv iota.
  change (negb true) with false. cbv iota.
  rewrite extname_loop_cons by reflexivity.
  change (Ascii.eqb "a" ".") with false. change (-1 =? -1) with true. cbv iota.
  change (negb true) with false. cbv iota.
  destruct (Z.eqb_spec (n + 3 + 1) (-1)) as [|_]; [lia|].
  rewrite extname_loop_cons by reflexivity.
  change (Ascii.eqb "a" ".") with false. change (-1 =? -1) with true. cbv iota.
  change (negb true) with false. cbv iota.
  destruct (Z.eqb_spec (n + 3 + 1) (-1)) as [|_]; [lia|].
  rewrite extname_loop_cons by reflexivity.
  change (Ascii.eqb "." ".") with true. change (-1 =? -1) with true. cbv iota.
  destruct (Z.eqb_spec (n + 3 + 1) (-1)) as [|_]; [lia|].
  f_equal; [lia|f_equal; lia].
Qed.

(** The extension of a name that ends in [".aac"] is [".aac"], or empty
    when nothing but dots or a separator comes before. *)
Lemma extname_aac (base : string) :
  Path.extname (base +:+ ".aac") = ".aac"%string \/
  Path.extname (base +:+ ".aac") = ""%string.
Proof.
  unfold Path.extname, JsString.len.
  rewrite chars_append, rev_app_distr, length_append.
  change (rev (JsString.chars ".aac"))
    with ("c" :: "a" :: "a" :: "." :: [])%char.
  change (String.length ".aac") with 4%nat.
  set (n := String.length base).
  change ((["c"; "a"; "a"; "."]%char ++ rev (JsString.chars base)))
    with ("c" :: "a" :: "a" :: "." :: rev (JsString.chars base))%char.
  replace (Z.of_nat (n + 4) - 1) with (Z.of_nat n + 3) by lia.
  rewrite extname_loop_aac by lia.
  destruct (extname_loop_keeps (rev (JsString.chars base)) (Z.of_nat n - 1)
              (Path.mkExtScan (Z.of_nat n) 0 (Z.of_nat n + 4) false 0))
    as [Hd He]; [simpl; lia|simpl; lia|].
  simpl in Hd, He.
  set (fin := Path.extname_loop _ _ _) in *.
  destruct (_ || _); [now right|left].
  rewrite Hd, He. unfold JsString.slice.
  replace (Z.to_nat (Z.of_nat n)) with n by lia.
  replace (Z.to_nat (Z.of_nat n + 4 - Z.of_nat n)) with (String.length ".aac")
    by (simpl; lia).
  apply substring_suffix.
Qed.

(** C10. Every file name that ends in [".aac"] (there is one: ["song.aac"])
    is accepted by the upload form's validator whatever its MIME type, its
    extension is in the list of formats the form announces, and the
    endpoint's validator refuses it, so that [processAudioFile] throws the
    unsupported-format error before any request to the service. *)
Theorem aac_accepted_by_form_rejected_by_endpoint :
  (exists name : string, JsString.endsWith ".aac" name = true) /\
  forall base : string,
    let name := (base +:+ ".aac")%string in
    JsString.endsWith ".aac" name = true /\
    (forall (type : string) (bytes : list byte),
       Utils.isValidAudioFile (mkUploadedFile name type bytes) = true) /\
    ".aac"%string ∈ Utils.getSupportedFormats /\
    isSupportedFormat name = false /\
    (forall (ep : Endpoint) (filePath : string) (fileSize : Z) (w : World),
       exists msg,
         processAudioFile (transcribeAudio_of ep) filePath fileSize name w
           = (Throw (Error msg), w)).
Proof.
  split; [exists "song.aac"%string; reflexivity|].
  intros base name.
  assert (Hrej : isSupportedFormat name = false).
  { unfold isSupportedFormat, name.
    destruct (extname_aac base) as [-> | ->]; reflexivity. }
  split_and!.
  - apply endsWith_append.
  - intros type bytes. unfold Utils.isValidAudioFile, Utils.matches_pattern. simpl file_name.
    apply orb_true_iff. right. apply existsb_exists. exists "aac"%string. split.
    + unfold Utils.pattern_extensions. simpl. tauto.
    + unfold name. rewrite toLowerCase_append. apply endsWith_append.
  - unfold Utils.getSupportedFormats. set_solver.
  - exact Hrej.
  - intros ep filePath fileSize w. eexists.
    now apply processAudioFile_unsupported.
Qed.

(** ** The request handler *)

Lemma split_chunk_names (filePath : string) (fileSize : Z) (w w1 : World)
    (chunks : list string) :
  splitMP3IntoChunks filePath fileSize w = (Ok chunks, w1) ->
  forall p : string, p ∈ chunks ->
    exists i t, p = Path.join (tmpdir w) (chunk_name i t (Path.extname filePath)).
Proof.
  intros Hrun p Hin.
  destruct (split_Ok_readable _ _ _ _ _ Hrun) as [buf Hfile].
  unfold splitMP3IntoChunks, bind, readFile in Hrun. rewrite Hfile in Hrun.
  destruct (split_loop_spec buf fileSize (Path.extname filePath)
              (Z.to_nat (ceil_div fileSize CHUNK_SIZE)) 0 [] w ltac:(lia))
    as (new & w' & Hloop & _ & _ & _ & _ & Hnew & _).
  rewrite Hloop in Hrun. injection Hrun as <- <-.
  apply list_elem_of_lookup in Hin as [k Hk].
  destruct (Hnew k p Hk) as [[t ->] _]. eauto.
Qed.

Lemma upload_not_chunk (dir name ext : string) (i t u : Z) :
  Path.join dir ("upload_" +:+ JsString.of_Z u +:+ "_" +:+ name)
  <> Path.join dir (chunk_name i t ext).
Proof. intros E. apply join_inj in E. discriminate. Qed.

(** What becomes of the uploaded file: [processAudioFile] leaves it where
    it is. *)
Lemma processAudioFile_keeps_upload (ep : Endpoint) (file : UploadedFile)
    (fileSize : Z) (originalName : string) (w0 w : World) (data : list byte) :
  tmpdir w = tmpdir w0 ->
  fs w !! upload_path w0 file = Some data ->
  fs (processAudioFile (transcribeAudio_of ep) (upload_path w0 file) fileSize
        originalName w).2 !! upload_path w0 file = Some data.
Proof.
  intros Hdir Hfile.
  destruct (processAudioFile_fs (transcribeAudio_of ep) (transcribeAudio_of_frame ep)
              (upload_path w0 file) fileSize originalName w) as [_ Hfs].
  simpl in Hfs. destruct Hfs as [->|(chunks & w1 & _ & _ & Hsplit & ->)]; [exact Hfile|].
  assert (Hnin : upload_path w0 file ∉ chunks).
  { intros Hin. destruct (split_chunk_names _ _ _ _ _ Hsplit _ Hin) as (i & t & E).
    rewrite Hdir in E. revert E. apply upload_not_chunk. }
  rewrite lookup_remove_all, decide_False by exact Hnin.
  destruct (splitMP3IntoChunks_spec _ fileSize w data Hfile)
    as (chunks' & w1' & Hrun' & _ & _ & _ & _ & _ & Hother).
  rewrite Hsplit in Hrun'. injection Hrun' as <- <-.
  now rewrite (Hother _ Hnin).
Qed.

(** The fate of the upload. Once the key is accepted and the form holds a
    file, [POST] stores the file under [upload_path]; when it answers with
    the document the file is still on disk, and when it answers with an
    error the file is gone. *)
Lemma POST_upload_fate (ep : Endpoint) (req : Request) (w : World)
    (key : string) (file : UploadedFile) :
  OPENAI_API_KEY w = Some key -> key_accepted ep key = true ->
  req_formData req = Ok (Some file) ->
  match POST ep req w with
  | (PdfDocument _ _ _, w') => fs w' !! upload_path w file = Some (file_bytes file)
  | (JsonError _ _, w') => fs w' !! upload_path w file = None
  end.
Proof.
  intros Hkey Hacc Hform. unfold POST, POST_try. rewrite Hkey, Hform.
  apply andb_true_iff in Hacc as [Hne Hsk]. apply negb_true_iff in Hne. rewrite Hne.
  replace (match ep with
           | MinimalEndpoint => false
           | RetryingEndpoint => negb (JsString.startsWith "sk-" key)
           end) with false by (destruct ep; [reflexivity|now rewrite Hsk]).
  fold (upload_path w file).
  set (w2 := (writeFile (upload_path w file) (file_bytes file)
                (with_ticks (S (ticks w)) w)).2).
  pose proof (processAudioFile_keeps_upload ep file (file_size file) (file_name file)
                w w2 (file_bytes file) eq_refl) as Hkeep.
  destruct (processAudioFile (transcribeAudio_of ep) (upload_path w file)
              (file_size file) (file_name file) w2) as [[t|e] w3]; simpl in *.
  - unfold generatePDF. destruct (renderer w3 (file_name file) t); simpl.
    + apply Hkeep. apply lookup_insert_eq.
    + unfold try_catch, unlink. rewrite Hkeep by apply lookup_insert_eq. simpl.
      apply lookup_delete_eq.
  - unfold try_catch, unlink. rewrite Hkeep by apply lookup_insert_eq. simpl.
    apply lookup_delete_eq.
Qed.

(** C4 (what the code does). A request with a valid key and a three-byte
    file ["a.mp3"] that the service transcribes is answered with the
    document, status 200, and at that moment the uploaded temporary file
    ["/tmp/upload_1700000000000_a.mp3"] is still on disk: the handler
    unlinks it only in its [catch] block. The same request to a service
    that is offline is answered with an error, and the file is gone. *)
Theorem POST_success_leaves_upload :
  (exists body disposition w',
     POST MinimalEndpoint sample_request sample_world
       = (PdfDocument body 200 disposition, w') /\
     fs w' !! "/tmp/upload_1700000000000_a.mp3"%string = Some sample_bytes) /\
  (exists msg w',
     POST MinimalEndpoint sample_request offline_world = (JsonError msg 500, w') /\
     fs w' !! "/tmp/upload_1700000000000_a.mp3"%string = None).
Proof.
  split.
  - pose proof (POST_upload_fate MinimalEndpoint sample_request sample_world
                  "sk-test" sample_upload eq_refl eq_refl eq_refl) as H.
    assert (Hresp : (POST MinimalEndpoint sample_request sample_world).1
                    = PdfDocument [x25]%byte 200 (attachment "a.mp3"))
      by (vm_compute; reflexivity).
    destruct (POST MinimalEndpoint sample_request sample_world) as [resp w'].
    cbn [fst] in Hresp. subst resp.
    exists [x25]%byte, (attachment "a.mp3"), w'. split; [reflexivity|exact H].
  - pose proof (POST_upload_fate MinimalEndpoint sample_request offline_world
                  "sk-test" sample_upload eq_refl eq_refl eq_refl) as H.
    assert (Hresp : (POST MinimalEndpoint sample_request offline_world).1
                    = JsonError "connect ECONNREFUSED" 500)
      by (vm_compute; reflexivity).
    destruct (POST MinimalEndpoint sample_request offline_world) as [resp w'].
    cbn [fst] in Hresp. subst resp.
    exists "connect ECONNREFUSED"%string, w'. split; [reflexivity|exact H].
Qed.

(** ** Where the number of requests falls short *)

(** A service that fails every request with the same error stops the
    chunked run at its first chunk: one request is made. *)
Lemma first_chunk_failure (filePath : string) (fileSize : Z) (originalName : string)
    (w : World) (buf : list byte) (e : JsError) :
  isSupportedFormat originalName = true -> MAX_SIZE < fileSize ->
  fs w !! filePath = Some buf ->
  (forall (k : nat) (data : list byte), whisper w k data = Failure e) ->
  exists c0 : string,
    calls (processAudioFile Minimal.transcribeAudio filePath fileSize originalName w).2
    = calls w ++ [failed_call c0 e].
Proof.
  intros Hfmt Hgt Hfile Hfail.
  destruct (splitMP3IntoChunks_spec filePath fileSize w buf Hfile)
    as (chunks & w1 & Hsplit & Hlen & Henv & Hcalls1 & _ & Hchunk & _).
  rewrite (processAudioFile_chunked _ _ _ _ _ _ _ Hfmt Hgt Hsplit).
  destruct chunks as [|c0 rest].
  { exfalso. simpl in Hlen.
    pose proof (ceil_div_bounds fileSize CHUNK_SIZE CHUNK_SIZE_pos).
    assert (0 < MAX_SIZE) by reflexivity. assert (0 < CHUNK_SIZE) by reflexivity. nia. }
  exists c0. simpl transcribe_chunks. unfold bind, try_catch, throw.
  change (Minimal.transcribeAudio c0 w1) with (transcriptions_create c0 w1).
  destruct Henv as (_ & _ & _ & Hwh & _).
  erewrite create_failure; [|apply (Hchunk 0%nat c0 eq_refl)|rewrite Hwh; apply Hfail].
  simpl. now rewrite Hcalls1.
Qed.

Lemma big_bytes_length : Z.of_nat (length big_bytes) = big_size.
Proof.
  unfold big_bytes. rewrite length_replicate. apply Z2Nat.id. discriminate.
Qed.

(** C3 as stated fails. A three-byte file ["talk.aiff"] is below the
    threshold and no request is made for it (the format is refused first).
    A 39 MB file ["talk.mp3"] is above the threshold, [ceil(S/C)] is 2, and
    with the service offline a single request is made (the run stops at the
    first chunk that fails). *)
Lemma calls_as_stated_fails :
  ~ calls_as_stated "/tmp/upload_1_talk.aiff" 3 "talk.aiff" sample_world /\
  (Z.of_nat (length big_bytes) = big_size /\
   ~ calls_as_stated "/tmp/upload_1_talk.mp3" big_size "talk.mp3" big_offline_world).
Proof.
  split; [|split; [exact big_bytes_length|]].
  - intros (new & Hnew & Hone). simpl in Hone.
    rewrite processAudioFile_unsupported in Hnew by reflexivity. simpl in Hnew.
    subst new. discriminate.
  - intros (new & Hnew & Htwo).
    assert (Hfile : fs big_offline_world !! "/tmp/upload_1_talk.mp3"%string = Some big_bytes)
      by apply lookup_singleton_eq.
    destruct (first_chunk_failure "/tmp/upload_1_talk.mp3" big_size "talk.mp3"
                big_offline_world big_bytes refused eq_refl eq_refl Hfile
                (fun _ _ => eq_refl))
      as [c0 Hcalls].
    rewrite Hcalls in Hnew. apply app_inv_head in Hnew. subst new.
    change (Z.of_nat 1 = 2) in Htwo. clear - Htwo. discriminate Htwo.
Qed.

(** ** The theorems at concrete inputs *)

Lemma pair_of_fst {A B : Type} (p : A * B) (a : A) : p.1 = a -> p = (a, p.2).
Proof. destruct p. simpl. now intros ->. Defined.

(** A three-byte file is cut into one chunk. *)
Lemma splitMP3IntoChunks_partition_witness :
  exists (chunks : list string) (w' : World),
    splitMP3IntoChunks "/tmp/in.mp3" 3 sample_world = (Ok chunks, w') /\
    Z.of_nat (length chunks) = 1.
Proof.
  destruct (splitMP3IntoChunks_partition sample_world "/tmp/in.mp3" sample_bytes
              eq_refl eq_refl) as (_ & chunks & w' & Hrun & Hlen & _).
  exists chunks, w'. split; [exact Hrun|exact Hlen].
Defined.

(** A small file: one request, on the whole file. *)
Lemma processAudioFile_calls_witness :
  exists reply : Reply,
    calls (processAudioFile Minimal.transcribeAudio "/tmp/in.mp3" 3 "in.mp3" sample_world).2
    = calls sample_world ++ [mkCall "/tmp/in.mp3" reply].
Proof.
  apply (processAudioFile_calls "/tmp/in.mp3" 3 "in.mp3" sample_world _ _
           eq_refl (surjective_pairing _)).
  discriminate.
Defined.

(** The service offline: three retries after 2 s, 4 s and 6 s, then the
    fatal connection error. *)
Lemma transcribeAudio_retries_witness :
  exists w' : World,
    Retrying.transcribeAudio "/tmp/in.mp3" 0 offline_world
      = (Throw (Error Retrying.msg_connection), w') /\
    timers w' = [2000; 4000; 6000].
Proof.
  assert (Hes : forall (i : nat) (e : JsError),
            [refused; refused; refused] !! i = Some e ->
            whisper offline_world (length (calls offline_world) + i) sample_bytes
              = Failure e /\ transient e = true).
  { intros [|[|[|i]]] e He; try discriminate He; injection He as <-;
      split; reflexivity. }
  destruct (transcribeAudio_retries "/tmp/in.mp3" sample_bytes offline_world
              [refused; refused; refused] (Failure refused) eq_refl Hes eq_refl)
    as (_ & Hgiveup & _).
  destruct (Hgiveup refused eq_refl eq_refl eq_refl) as [Hrun Ht].
  eexists. split; [exact Hrun|exact Ht].
Defined.

(** A service that hears nothing: the blank result is refused. *)
Lemma processAudioFile_rejects_blank_witness :
  (processAudioFile (transcribeAudio_of MinimalEndpoint) "/tmp/in.mp3" 3 "in.mp3"
     silent_world).1 = Throw (Error msg_empty).
Proof.
  refine (proj1 (proj2 (processAudioFile_rejects_blank MinimalEndpoint "/tmp/in.mp3" 3
                          "in.mp3" silent_world
                          (collect_transcriptions (transcribeAudio_of MinimalEndpoint)
                             "/tmp/in.mp3" 3 silent_world).2
                          [" "%string] [] eq_refl _ _))).
  - apply pair_of_fst. vm_compute. reflexivity.
  - repeat constructor.
Defined.

(** ["talk.aiff"] is refused and the world is untouched. *)
Lemma processAudioFile_rejects_unsupported_witness :
  processAudioFile (transcribeAudio_of RetryingEndpoint) "/tmp/upload_1_talk.aiff" 3
    "talk.aiff" sample_world
  = (Throw (Error "Formato .aiff no soportado. Por favor, convierte tu audio a MP3 primero usando un convertidor online."),
     sample_world).
Proof.
  apply (processAudioFile_rejects_unsupported RetryingEndpoint "/tmp/upload_1_talk.aiff" 3
           "talk.aiff" sample_world).
  vm_compute. intros H. repeat (apply elem_of_cons in H as [H|H]; [discriminate H|]).
  now apply not_elem_of_nil in H.
Defined.

(** A rejected key: the fixed authentication error, at once. *)
Lemma transcribeAudio_classification_witness :
  Retrying.transcribeAudio "/tmp/in.mp3" 0 locked_world
  = (Throw (Error Retrying.msg_401), (transcriptions_create "/tmp/in.mp3" locked_world).2).
Proof.
  apply (transcribeAudio_classification "/tmp/in.mp3" 0 locked_world
           (transcriptions_create "/tmp/in.mp3" locked_world).2 unauthorized).
  - apply pair_of_fst. reflexivity.
  - reflexivity.
Defined.

(** * Further properties *)

(** ** The chunker, for any declared size *)

(** X1. The chunk paths that [splitMP3IntoChunks] returns are pairwise
    distinct, whatever the clock reads (even when two chunks are written in
    the same millisecond): the chunk index is part of the name. *)
Theorem splitMP3IntoChunks_distinct_paths (filePath : string) (fileSize : Z)
    (w w' : World) (chunks : list string) :
  splitMP3IntoChunks filePath fileSize w = (Ok chunks, w') ->
  NoDup chunks.
Proof.
  intros Hrun.
  destruct (split_Ok_readable _ _ _ _ _ Hrun) as [buf Hfile].
  unfold splitMP3IntoChunks, bind, readFile in Hrun. rewrite Hfile in Hrun.
  destruct (split_loop_spec buf fileSize (Path.extname filePath)
              (Z.to_nat (ceil_div fileSize CHUNK_SIZE)) 0 [] w ltac:(lia))
    as (new & w1 & Hloop & _ & _ & _ & _ & Hnew & _).
  rewrite Hloop in Hrun. injection Hrun as <- <-. simpl.
  apply NoDup_alt. intros i j p Hi Hj.
  destruct (Hnew i p Hi) as [[t Ht] _]. destruct (Hnew j p Hj) as [[u Hu] _].
  rewrite Ht in Hu. apply join_inj, chunk_name_inj in Hu; lia.
Qed.

Lemma clamp_bounds (len i : Z) : 0 <= len -> 0 <= Buffer.clamp len i <= len.
Proof. unfold Buffer.clamp. destruct (Z.ltb_spec i 0); lia. Qed.

Lemma clamp_nonneg (len i : Z) : 0 <= i -> Buffer.clamp len i = Z.min i len.
Proof. unfold Buffer.clamp. destruct (Z.ltb_spec i 0); [lia|reflexivity]. Qed.

Lemma slice_length (buf : list byte) (a b : Z) :
  0 <= a -> 0 <= b ->
  Z.of_nat (length (Buffer.slice buf a b)) <= Z.max 0 (b - a).
Proof.
  intros Ha Hb. unfold Buffer.slice. rewrite !clamp_nonneg by assumption.
  destruct (Z.leb_spec (Z.min b (Z.of_nat (length buf))) (Z.min a (Z.of_nat (length buf))));
    [simpl; lia|].
  rewrite length_take. lia.
Qed.

(** X2. Every chunk file holds at most [CHUNK_SIZE] bytes, whatever size was
    declared, and [CHUNK_SIZE] is below the threshold of a direct
    transcription. *)
Theorem splitMP3IntoChunks_chunk_bound (filePath : string) (fileSize : Z)
    (w w' : World) (chunks : list string) :
  splitMP3IntoChunks filePath fileSize w = (Ok chunks, w') ->
  CHUNK_SIZE < MAX_SIZE /\
  forall p : string, p ∈ chunks ->
    exists data : list byte,
      fs w' !! p = Some data /\ Z.of_nat (length data) <= CHUNK_SIZE.
Proof.
  intros Hrun. split; [reflexivity|]. intros p Hin.
  destruct (split_Ok_readable _ _ _ _ _ Hrun) as [buf Hfile].
  destruct (splitMP3IntoChunks_spec filePath fileSize w buf Hfile)
    as (chunks' & w1 & Hrun' & Hlen & _ & _ & _ & Hchunk & _).
  rewrite Hrun in Hrun'. injection Hrun' as <- <-.
  apply list_elem_of_lookup in Hin as [k Hk].
  eexists. split; [exact (Hchunk k p Hk)|].
  pose proof CHUNK_SIZE_pos as HC.
  assert (Hkn : Z.of_nat k < ceil_div fileSize CHUNK_SIZE).
  { apply lookup_lt_Some in Hk. lia. }
  pose proof (ceil_div_bounds fileSize CHUNK_SIZE HC) as Hb.
  etransitivity; [apply slice_length; nia|]. nia.
Qed.

(** A chunk cut from the buffer under a declared size is the same range of
    the buffer truncated to that size. *)
Lemma slice_of_declared (buf : list byte) (size s : Z) :
  0 <= s < size ->
  Buffer.slice buf s (Z.min (s + CHUNK_SIZE) size) =
  Buffer.byte_range (take (Z.to_nat size) buf) s
    (Z.min (s + CHUNK_SIZE) (Z.of_nat (length (take (Z.to_nat size) buf)))).
Proof.
  intros Hs. pose proof CHUNK_SIZE_pos as HC.
  unfold Buffer.slice, Buffer.byte_range. rewrite !clamp_nonneg by lia.
  rewrite length_take.
  set (len := length buf).
  destruct (Z.le_gt_cases (Z.of_nat len) s) as [Hout|Hin].
  - destruct (Z.leb_spec (Z.min (Z.min (s + CHUNK_SIZE) size) (Z.of_nat len))
                (Z.min s (Z.of_nat len))); [|lia].
    rewrite drop_ge; [now rewrite take_nil|]. rewrite length_take. fold len. lia.
  - destruct (Z.leb_spec (Z.min (Z.min (s + CHUNK_SIZE) size) (Z.of_nat len))
                (Z.min s (Z.of_nat len))); [lia|].
    replace (Z.min s (Z.of_nat len)) with s by lia.
    replace (Z.to_nat size) with (Z.to_nat s + Z.to_nat (size - s))%nat by lia.
    rewrite <- take_drop_commute, take_take. f_equal. lia.
Qed.

(** X3. For any declared size the chunk files, read back in index order and
    put end to end, are the first [fileSize] bytes of the file (all of it
    when the declared size is larger, nothing when it is not positive), and
    there are [max 0 (ceil (fileSize / CHUNK_SIZE))] of them. *)
Theorem splitMP3IntoChunks_declared_size (filePath : string) (fileSize : Z)
    (w : World) (fileBuffer : list byte) :
  fs w !! filePath = Some fileBuffer ->
  exists (chunks : list string) (w' : World) (contents : list (list byte)),
    splitMP3IntoChunks filePath fileSize w = (Ok chunks, w') /\
    length chunks = Z.to_nat (ceil_div fileSize CHUNK_SIZE) /\
    Forall2 (fun p data => fs w' !! p = Some data) chunks contents /\
    concat contents = take (Z.to_nat fileSize) fileBuffer.
Proof.
  intros Hfile. pose proof CHUNK_SIZE_pos as HC.
  destruct (splitMP3IntoChunks_spec filePath fileSize w fileBuffer Hfile)
    as (chunks & w' & Hrun & Hlen & _ & _ & _ & Hchunk & _).
  set (n := Z.to_nat (ceil_div fileSize CHUNK_SIZE)) in *.
  set (T := take (Z.to_nat fileSize) fileBuffer).
  pose proof (ceil_div_bounds fileSize CHUNK_SIZE HC) as Hb.
  exists chunks, w',
    (map (fun k => Buffer.byte_range T (k * CHUNK_SIZE)
                     (Z.min ((k + 1) * CHUNK_SIZE) (Z.of_nat (length T))))
         (seqZ 0 (Z.of_nat n))).
  split_and!; auto.
  - apply Forall2_same_length_lookup_2.
    + now rewrite length_map, length_seqZ, Nat2Z.id.
    + intros k p data Hp Hdata.
      rewrite list_lookup_fmap in Hdata.
      destruct (seqZ 0 (Z.of_nat n) !! k) as [z|] eqn:Hz; [|discriminate].
      injection Hdata as <-.
      apply lookup_seqZ in Hz as [-> Hz]. rewrite (Hchunk k p Hp). f_equal.
      replace ((0 + Z.of_nat k + 1) * CHUNK_SIZE)
        with ((0 + Z.of_nat k) * CHUNK_SIZE + CHUNK_SIZE) by lia.
      rewrite Z.add_0_l. apply slice_of_declared. nia.
  - rewrite (concat_byte_ranges T CHUNK_SIZE n HC 0); [reflexivity|lia|].
    unfold T. rewrite length_take. nia.
Qed.

Lemma split_loop_ticks (buf : list byte) (size : Z) (ext : string) (todo : nat) :
  forall (i : Z) (acc : list string) (w : World),
    ticks (split_loop buf size ext todo i acc w).2 = (ticks w + todo)%nat.
Proof.
  induction todo as [|todo IH]; intros i acc w; simpl; [lia|].
  unfold bind, os_tmpdir, Date_now, writeFile. simpl. rewrite IH. simpl. lia.
Qed.

(** X4. [splitMP3IntoChunks] changes no file other than its chunk files,
    makes no request to the service, waits for nothing, and reads the clock
    once per chunk. *)
Theorem splitMP3IntoChunks_frame (filePath : string) (fileSize : Z)
    (w w' : World) (chunks : list string) :
  splitMP3IntoChunks filePath fileSize w = (Ok chunks, w') ->
  (forall p : string, p ∉ chunks -> fs w' !! p = fs w !! p) /\
  calls w' = calls w /\ timers w' = timers w /\
  ticks w' = (ticks w + length chunks)%nat.
Proof.
  intros Hrun.
  destruct (split_Ok_readable _ _ _ _ _ Hrun) as [buf Hfile].
  destruct (splitMP3IntoChunks_spec filePath fileSize w buf Hfile)
    as (chunks' & w1 & Hrun' & Hlen & _ & Hcalls & Htimers & _ & Hother).
  rewrite Hrun in Hrun'. injection Hrun' as <- <-.
  split_and!; auto.
  rewrite Hlen. apply (f_equal snd) in Hrun. simpl in Hrun. rewrite <- Hrun.
  unfold splitMP3IntoChunks, bind, readFile. rewrite Hfile.
  apply split_loop_ticks.
Qed.

(** ** The transcriber with retries, in full *)

Lemma or_default_nonempty (s dflt : string) :
  dflt <> ""%string -> or_default s dflt <> ""%string.
Proof.
  intros Hd. unfold or_default. destruct (String.eqb_spec s ""); congruence.
Qed.

Lemma waits_nil (r : Z) (l : list Z) : l ++ waits r 0 = l.
Proof. unfold waits. simpl. apply app_nil_r. Qed.

Lemma waits_cons (r : Z) (k : nat) : waits r (S k) = (r + 1) * 2000 :: waits (r + 1) k.
Proof.
  unfold waits. rewrite Nat2Z.inj_succ, (seqZ_cons r) by lia. simpl.
  replace (Z.pred (Z.succ (Z.of_nat k))) with (Z.of_nat k) by lia.
  replace (Z.succ r) with (r + 1) by lia. reflexivity.
Qed.

Lemma retrying_stop (filePath : string) (w : World) (e : JsError) (r : Z) (n : nat)
    (msg : string) :
  let w1 := with_calls (calls w ++ [mkCall filePath (Failure e)]) w in
  msg <> ""%string ->
  (transient e = true -> 0%nat = n /\ msg = Retrying.msg_connection) ->
  exists (es : list JsError) (last : Reply),
    calls w1 = calls w ++ map (failed_call filePath) es ++ [mkCall filePath last] /\
    Forall (fun e => transient e = true) es /\
    (length es <= n)%nat /\
    timers w1 = timers w ++ waits r (length es) /\
    match last with
    | Text t => @Throw string (Error msg) = Ok t
    | Failure e0 =>
        exists msg0 : string,
          @Throw string (Error msg) = Throw (Error msg0) /\ msg0 <> ""%string /\
          (transient e0 = true -> length es = n /\ msg0 = Retrying.msg_connection)
    end.
Proof.
  intros w1 Hmsg Htr. exists [], (Failure e). simpl. rewrite waits_nil.
  split_and!; auto; [lia|]. exists msg. split_and!; auto.
Qed.

Lemma retrying_outcome_from (filePath : string) (n : nat) :
  forall (r : Z) (w : World),
    Z.to_nat (Retrying.MAX_RETRIES - r) = n ->
    exists (es : list JsError) (last : Reply),
      calls (Retrying.transcribeAudio filePath r w).2
        = calls w ++ map (failed_call filePath) es ++ [mkCall filePath last] /\
      Forall (fun e => transient e = true) es /\
      (length es <= n)%nat /\
      timers (Retrying.transcribeAudio filePath r w).2 = timers w ++ waits r (length es) /\
      match last with
      | Text t => (Retrying.transcribeAudio filePath r w).1 = Ok t
      | Failure e =>
          exists msg : string,
            (Retrying.transcribeAudio filePath r w).1 = Throw (Error msg) /\
            msg <> ""%string /\
            (transient e = true -> length es = n /\ msg = Retrying.msg_connection)
      end.
Proof.
  induction n as [|n IH]; intros r w Hn.
  all: rewrite Retrying.transcribeAudio_equation_1.
  all: destruct (create_spec filePath w) as (reply & _ & ->).
  all: destruct reply as [t|e];
    [ exists [], (Text t); simpl; rewrite waits_nil; split_and!; auto; lia |].
  all: simpl.
  all: match goal with
       | |- context [(length _ <= ?k)%nat] =>
           pose proof (fun msg => retrying_stop filePath w e r k msg) as Hstop0
       end.
  all: simpl in Hstop0; unfold transient in Hstop0.
  all: destruct (status_is 401 e) eqn:E1; [apply Hstop0; easy|].
  all: destruct (status_is 429 e) eqn:E2; [apply Hstop0; easy|].
  all: destruct (status_is 413 e) eqn:E3; [apply Hstop0; easy|].
  all: destruct (Retrying.is_connection_error e) eqn:Hconn;
    [| apply Hstop0; [now apply or_default_nonempty|easy] ].
  all: destruct (Z_lt_dec r Retrying.MAX_RETRIES) as [Hlt|Hge];
    unfold Retrying.MAX_RETRIES in *; try lia.
  - apply Hstop0; [easy|]. intros _. split; reflexivity.
  - clear Hstop0.
    destruct (IH (r + 1)
                (with_timers
                   (timers (with_calls (calls w ++ [mkCall filePath (Failure e)]) w)
                    ++ [(r + 1) * 2000])
                   (with_calls (calls w ++ [mkCall filePath (Failure e)]) w))
                ltac:(lia))
      as (es & last & Hc & Hall & Hlen & Ht & Hlast).
    exists (e :: es), last.
    simpl in *. split_and!.
    + rewrite Hc. now rewrite <- app_assoc.
    + constructor; [|exact Hall]. unfold transient.
      now rewrite E1, E2, E3, Hconn.
    + lia.
    + rewrite Ht, waits_cons, <- app_assoc. reflexivity.
    + destruct last as [t|e0]; [exact Hlast|].
      destruct Hlast as (msg & Hres & Hmsg & Hexh). exists msg. split_and!; auto.
      intros Htr. destruct (Hexh Htr) as [-> ->]. now split.
Qed.

(** X5. The transcriber with retries returns the first answer that is not a
    transient failure. Its requests are all on the given file; all but the
    last failed transiently (at most three of them, each followed by its
    wait of 2 s, 4 s, 6 s); a text as last answer is returned as it is, and a
    failure as last answer is thrown as a fresh error with a non-empty
    message, which is the fatal connection error exactly when that failure
    was transient too (then all three retries were used). *)
Theorem transcribeAudio_outcome (filePath : string) (w : World) :
  exists (es : list JsError) (last : Reply),
    calls (Retrying.transcribeAudio filePath 0 w).2
      = calls w ++ map (failed_call filePath) es ++ [mkCall filePath last] /\
    Forall (fun e => transient e = true) es /\
    (length es <= 3)%nat /\
    timers (Retrying.transcribeAudio filePath 0 w).2 = timers w ++ waits 0 (length es) /\
    match last with
    | Text t => (Retrying.transcribeAudio filePath 0 w).1 = Ok t
    | Failure e =>
        exists msg : string,
          (Retrying.transcribeAudio filePath 0 w).1 = Throw (Error msg) /\
          msg <> ""%string /\
          (transient e = true -> length es = 3%nat /\ msg = Retrying.msg_connection)
    end.
Proof. exact (retrying_outcome_from filePath 3 0 w eq_refl). Qed.

(** ** Requests and texts of a whole run *)

Lemma reply_texts_app (a b : list Call) :
  reply_texts (a ++ b) = reply_texts a ++ reply_texts b.
Proof. unfold reply_texts. apply omap_app. Qed.

Lemma reply_texts_failed (p : string) (es : list JsError) :
  reply_texts (map (failed_call p) es) = [].
Proof. induction es as [|e es IH]; [reflexivity|exact IH]. Qed.

(** One call of either transcriber: its requests, its waits and the text it
    gives. *)
Lemma transcribe_call_log (ep : Endpoint) (p : string) (w : World) :
  exists (new : list Call) (tm : list Z),
    calls (transcribeAudio_of ep p w).2 = calls w ++ new /\
    timers (transcribeAudio_of ep p w).2 = timers w ++ tm /\
    (length new <= attempts ep)%nat /\ (S (length tm) <= attempts ep)%nat /\
    reply_texts new =
      match (transcribeAudio_of ep p w).1 with Ok t => [t] | Throw _ => [] end.
Proof.
  destruct ep; simpl.
  - change (Minimal.transcribeAudio p w) with (transcriptions_create p w).
    destruct (create_spec p w) as (reply & _ & ->).
    exists [mkCall p reply], []. simpl. rewrite app_nil_r.
    split_and!; auto. now destruct reply.
  - destruct (retrying_outcome_from p 3 0 w eq_refl)
      as (es & last & Hc & _ & Hlen & Ht & Hlast).
    exists (map (failed_call p) es ++ [mkCall p last]), (waits 0 (length es)).
    split_and!; auto.
    + rewrite length_app, length_map. simpl. lia.
    + unfold waits. rewrite length_map, length_seqZ. lia.
    + rewrite reply_texts_app, reply_texts_failed. simpl.
      destruct last as [t|e]; [now rewrite Hlast|].
      destruct Hlast as (msg & -> & _). reflexivity.
Qed.

Lemma transcribe_chunks_log (ep : Endpoint) (todo : list string) :
  forall (i n : Z) (acc : list string) (w : World),
  exists (new : list Call) (tm : list Z),
    let out := transcribe_chunks (transcribeAudio_of ep) todo i n acc w in
    calls out.2 = calls w ++ new /\
    timers out.2 = timers w ++ tm /\
    (length new <= attempts ep * length todo)%nat /\
    (length tm + length todo <= attempts ep * length todo)%nat /\
    forall ts, out.1 = Ok ts -> ts = acc ++ reply_texts new.
Proof.
  induction todo as [|p todo IH]; intros i n acc w.
  - exists [], []. simpl. rewrite !app_nil_r. split_and!; auto; try lia.
    intros ts [= <-]. reflexivity.
  - destruct (transcribe_call_log ep p w) as (new1 & tm1 & Hc1 & Ht1 & Hn1 & Hm1 & Htx1).
    simpl. unfold bind, try_catch, throw.
    destruct (transcribeAudio_of ep p w) as [[t|e] w1]; simpl in *.
    + destruct (IH (i + 1) n (acc ++ [t]) w1) as (new & tm & Hc & Ht & Hn & Hm & Htx).
      exists (new1 ++ new), (tm1 ++ tm). simpl in *.
      rewrite Hc, Ht, Hc1, Ht1, !length_app, <- !app_assoc.
      split_and!; auto; try nia.
      intros ts Hts. rewrite (Htx ts Hts), reply_texts_app, Htx1, <- app_assoc.
      reflexivity.
    + exists new1, tm1. split_and!; auto; try nia. discriminate.
Qed.

(** X6. On both endpoints a transcript that [processAudioFile] returns is
    the texts that the service answered during the call, in the order of the
    answers, joined with the separator: every text answer is used once, and
    the failed attempts that were retried leave no trace in it. *)
Theorem processAudioFile_transcript_of_log (ep : Endpoint) (filePath : string)
    (fileSize : Z) (originalName : string) (w w' : World) (transcript : string) :
  processAudioFile (transcribeAudio_of ep) filePath fileSize originalName w
    = (Ok transcript, w') ->
  exists new : list Call,
    calls w' = calls w ++ new /\
    transcript = JsString.join separator (reply_texts new).
Proof.
  intros Hrun.
  destruct (isSupportedFormat originalName) eqn:Hfmt;
    [|rewrite processAudioFile_unsupported in Hrun by exact Hfmt; discriminate].
  destruct (Z.leb_spec fileSize MAX_SIZE) as [Hle|Hgt].
  - rewrite (processAudioFile_direct _ _ _ _ _ Hfmt Hle) in Hrun.
    destruct (transcribe_call_log ep filePath w) as (new & tm & Hc & _ & _ & _ & Htx).
    destruct (transcribeAudio_of ep filePath w) as [[t|e] w1]; [|discriminate].
    injection Hrun as Hcomb <-. apply combine_transcriptions_Ok in Hcomb as [-> _].
    exists new. simpl in *. now rewrite Htx.
  - destruct (fs w !! filePath) as [buf|] eqn:Hfile;
      [|rewrite processAudioFile_unreadable in Hrun by assumption; discriminate].
    destruct (splitMP3IntoChunks_spec filePath fileSize w buf Hfile)
      as (chunks & w1 & Hsplit & _ & _ & Hcalls1 & _ & _ & _).
    rewrite (processAudioFile_chunked _ _ _ _ _ _ _ Hfmt Hgt Hsplit) in Hrun.
    destruct (transcribe_chunks_log ep chunks 0 (Z.of_nat (length chunks)) [] w1)
      as (new & tm & Hc & _ & _ & _ & Htx).
    destruct (transcribe_chunks _ chunks 0 _ [] w1) as [[ts|e] w2]; [|discriminate].
    injection Hrun as Hcomb <-. apply combine_transcriptions_Ok in Hcomb as [-> _].
    exists new. simpl in *. rewrite Hc, Hcalls1. split; [reflexivity|].
    now rewrite (Htx ts eq_refl).
Qed.

(** X7. The effort of a run is bounded by the number of transcription units
    (one below the threshold, [ceil (fileSize / CHUNK_SIZE)] above): the
    minimal endpoint makes at most one request per unit and never waits,
    the endpoint with retries makes at most four requests and at most three
    waits per unit. *)
Theorem processAudioFile_effort (ep : Endpoint) (filePath : string) (fileSize : Z)
    (originalName : string) (w : World) :
  let w' := (processAudioFile (transcribeAudio_of ep) filePath fileSize originalName w).2 in
  exists (new : list Call) (tm : list Z),
    calls w' = calls w ++ new /\ timers w' = timers w ++ tm /\
    (length new <= attempts ep * units fileSize)%nat /\
    (length tm <= (attempts ep - 1) * units fileSize)%nat.
Proof.
  intros w'. subst w'.
  assert (Hnone : exists (new : list Call) (tm : list Z),
            calls w = calls w ++ new /\ timers w = timers w ++ tm /\
            (length new <= attempts ep * units fileSize)%nat /\
            (length tm <= (attempts ep - 1) * units fileSize)%nat).
  { exists [], []. rewrite !app_nil_r. simpl. split_and!; auto; nia. }
  destruct (isSupportedFormat originalName) eqn:Hfmt;
    [|now rewrite processAudioFile_unsupported by exact Hfmt].
  unfold units. destruct (Z.leb_spec fileSize MAX_SIZE) as [Hle|Hgt].
  - rewrite (processAudioFile_direct _ _ _ _ _ Hfmt Hle).
    destruct (transcribe_call_log ep filePath w) as (new & tm & Hc & Ht & Hn & Hm & _).
    exists new, tm.
    destruct (transcribeAudio_of ep filePath w) as [[t|e] w1]; simpl in *;
      [destruct (combine_transcriptions [t])|]; simpl; split_and!; auto; lia.
  - destruct (fs w !! filePath) as [buf|] eqn:Hfile;
      [|rewrite processAudioFile_unreadable by assumption; simpl;
        unfold units in Hnone; destruct (Z.leb_spec fileSize MAX_SIZE); [lia|exact Hnone]].
    destruct (splitMP3IntoChunks_spec filePath fileSize w buf Hfile)
      as (chunks & w1 & Hsplit & Hlen & _ & Hcalls1 & Htimers1 & _ & _).
    rewrite (processAudioFile_chunked _ _ _ _ _ _ _ Hfmt Hgt Hsplit).
    destruct (transcribe_chunks_log ep chunks 0 (Z.of_nat (length chunks)) [] w1)
      as (new & tm & Hc & Ht & Hn & Hm & _).
    exists new, tm. rewrite <- Hlen.
    destruct (transcribe_chunks _ chunks 0 _ [] w1) as [[ts|e] w2]; simpl in *;
      [destruct (combine_transcriptions ts)|]; simpl;
      rewrite ?Hc, ?Ht, ?Hcalls1, ?Htimers1; split_and!; auto; nia.
Qed.

Lemma transcribeAudio_of_ticks (ep : Endpoint) (p : string) (w : World) :
  ticks (transcribeAudio_of ep p w).2 = ticks w.
Proof.
  destruct ep; simpl.
  - change (Minimal.transcribeAudio p w) with (transcriptions_create p w).
    now destruct (create_spec p w) as (reply & _ & ->).
  - now destruct (retrying_shape p 3 0 w eq_refl) as (k & _ & _ & _ & _ & _ & Hticks).
Qed.

(** X8. Up to the threshold, the threshold included, [processAudioFile]
    takes the direct path whatever the outcome: it writes and removes no
    file and never reads the clock. *)
Theorem processAudioFile_direct_no_disk_effect (ep : Endpoint) (filePath : string)
    (fileSize : Z) (originalName : string) (w : World) :
  fileSize <= MAX_SIZE ->
  fs (processAudioFile (transcribeAudio_of ep) filePath fileSize originalName w).2 = fs w /\
  ticks (processAudioFile (transcribeAudio_of ep) filePath fileSize originalName w).2
    = ticks w.
Proof.
  intros Hle.
  destruct (isSupportedFormat originalName) eqn:Hfmt;
    [|now rewrite processAudioFile_unsupported by exact Hfmt].
  rewrite (processAudioFile_direct _ _ _ _ _ Hfmt Hle).
  destruct (transcribeAudio_of_frame ep filePath w) as [Hfs _].
  pose proof (transcribeAudio_of_ticks ep filePath w) as Hticks.
  destruct (transcribeAudio_of ep filePath w) as [[t|e] w1]; simpl in *;
    [destruct (combine_transcriptions [t])|]; simpl; now split.
Qed.

(** X9. Above the threshold the chunker cuts at least two chunks: the
    threshold is larger than the chunk size, so a chunked run never has a
    single unit. *)
Theorem chunked_run_has_two_chunks (filePath : string) (fileSize : Z)
    (w w' : World) (chunks : list string) :
  MAX_SIZE < fileSize ->
  splitMP3IntoChunks filePath fileSize w = (Ok chunks, w') ->
  (2 <= length chunks)%nat /\ Z.of_nat (length chunks) = ceil_div fileSize CHUNK_SIZE.
Proof.
  intros Hgt Hrun.
  destruct (split_Ok_readable _ _ _ _ _ Hrun) as [buf Hfile].
  destruct (splitMP3IntoChunks_spec filePath fileSize w buf Hfile)
    as (chunks' & w1 & Hrun' & Hlen & _).
  rewrite Hrun in Hrun'. injection Hrun' as <- <-.
  pose proof (ceil_div_bounds fileSize CHUNK_SIZE CHUNK_SIZE_pos) as Hb.
  assert (HM : MAX_SIZE = 26214400) by reflexivity.
  assert (HC : CHUNK_SIZE = 20971520) by reflexivity.
  rewrite Hlen. split; lia.
Qed.

(** X10. One fragment that is not blank is enough: when the fragments were
    collected and some fragment has a character that is not white space,
    [processAudioFile] returns all the fragments joined, the blank ones
    included. *)
Theorem processAudioFile_accepts_nonblank (ep : Endpoint) (filePath : string)
    (fileSize : Z) (originalName : string) (w w1 : World)
    (fragments chunksToClean : list string) :
  isSupportedFormat originalName = true ->
  collect_transcriptions (transcribeAudio_of ep) filePath fileSize w
    = (Ok fragments, chunksToClean, w1) ->
  Exists (fun f => JsString.blank f = false) fragments ->
  (processAudioFile (transcribeAudio_of ep) filePath fileSize originalName w).1
    = Ok (JsString.join separator fragments).
Proof.
  intros Hfmt Hcollect Hex.
  unfold processAudioFile, process_try. rewrite Hfmt, Hcollect. simpl.
  unfold combine_transcriptions.
  destruct (Z.eqb_spec (JsString.len (JsString.trim (JsString.join separator fragments))) 0)
    as [Hz|]; [|reflexivity].
  exfalso.
  assert (Hempty : JsString.trim (JsString.join separator fragments) = ""%string).
  { unfold JsString.len in Hz.
    destruct (JsString.trim (JsString.join separator fragments)); [reflexivity|].
    simpl in Hz. lia. }
  apply trim_empty_iff, join_blank in Hempty.
  apply Exists_exists in Hex as (f & Hin & Hf).
  rewrite Forall_forall in Hempty. rewrite (Hempty f Hin) in Hf. discriminate.
Qed.

(** X11. [processAudioFile] leaves alone every file whose path is not that
    of a chunk (the temporary directory, then [chunk_<i>_<t>] and the
    extension of the input path): such a file has the same content
    afterwards, or is still absent. *)
Theorem processAudioFile_keeps_other_files (ep : Endpoint) (filePath : string)
    (fileSize : Z) (originalName : string) (w : World) (p : string) :
  (forall i t : Z, p <> Path.join (tmpdir w) (chunk_name i t (Path.extname filePath))) ->
  fs (processAudioFile (transcribeAudio_of ep) filePath fileSize originalName w).2 !! p
    = fs w !! p.
Proof.
  intros Hp.
  destruct (processAudioFile_fs (transcribeAudio_of ep) (transcribeAudio_of_frame ep)
              filePath fileSize originalName w) as [_ Hfs].
  simpl in Hfs. destruct Hfs as [->|(chunks & w1 & _ & _ & Hsplit & ->)]; [reflexivity|].
  assert (Hnin : p ∉ chunks).
  { intros Hin. destruct (split_chunk_names _ _ _ _ _ Hsplit _ Hin) as (i & t & E).
    exact (Hp i t E). }
  rewrite lookup_remove_all, decide_False by exact Hnin.
  destruct (split_Ok_readable _ _ _ _ _ Hsplit) as [buf Hfile].
  destruct (splitMP3IntoChunks_spec _ fileSize w buf Hfile)
    as (chunks' & w1' & Hrun' & _ & _ & _ & _ & _ & Hother).
  rewrite Hsplit in Hrun'. injection Hrun' as <- <-.
  exact (Hother _ Hnin).
Qed.

(** ** The request handler, case by case *)

(** How [POST] goes on once the key is accepted and the form holds a file. *)
Lemma POST_with_file (ep : Endpoint) (req : Request) (w : World)
    (key : string) (file : UploadedFile) :
  OPENAI_API_KEY w = Some key -> key_accepted ep key = true ->
  req_formData req = Ok (Some file) ->
  POST ep req w =
  match processAudioFile (transcribeAudio_of ep) (upload_path w file) (file_size file)
          (file_name file) (after_upload w file) with
  | (Ok transcription, w3) =>
      match renderer w3 (file_name file) transcription with
      | Ok pdfBytes => (PdfDocument pdfBytes 200 (attachment (file_name file)), w3)
      | Throw e =>
          (JsonError (or_default (message e) msg_generic) 500,
           (try_catch (unlink (upload_path w file)) (fun _ => ret tt) w3).2)
      end
  | (Throw e, w3) =>
      (JsonError (or_default (message e) msg_generic) 500,
       (try_catch (unlink (upload_path w file)) (fun _ => ret tt) w3).2)
  end.
Proof.
  intros Hkey Hacc Hform. unfold POST, POST_try. rewrite Hkey, Hform.
  apply andb_true_iff in Hacc as [Hne Hsk]. apply negb_true_iff in Hne. rewrite Hne.
  replace (match ep with
           | MinimalEndpoint => false
           | RetryingEndpoint => negb (JsString.startsWith "sk-" key)
           end) with false by (destruct ep; [reflexivity|now rewrite Hsk]).
  fold (upload_path w file). fold (after_upload w file).
  destruct (processAudioFile _ _ _ _ (after_upload w file)) as [[t|e] w3];
    [|reflexivity].
  unfold generatePDF. now destruct (renderer w3 (file_name file) t).
Qed.

(** How [POST] ends before it touches anything. *)
Lemma POST_early (ep : Endpoint) (req : Request) (w : World) :
  (exists key file, OPENAI_API_KEY w = Some key /\ key_accepted ep key = true /\
                    req_formData req = Ok (Some file)) \/
  POST ep req w = (JsonError (msg_no_key ep) 500, w) /\
    (OPENAI_API_KEY w = None \/ OPENAI_API_KEY w = Some ""%string) \/
  POST ep req w = (JsonError msg_bad_key 500, w) /\ ep = RetryingEndpoint /\
    (exists key, OPENAI_API_KEY w = Some key /\ key <> ""%string /\
                 JsString.startsWith "sk-" key = false) \/
  (exists e, POST ep req w = (JsonError (or_default (message e) msg_generic) 500, w) /\
             req_formData req = Throw e) \/
  POST ep req w = (JsonError msg_no_file 400, w) /\ req_formData req = Ok None.
Proof.
  unfold POST, POST_try, key_accepted.
  destruct (OPENAI_API_KEY w) as [key|]; [|right; left; auto].
  destruct (String.eqb_spec key "") as [->|Hne]; [right; left; auto|].
  assert (Hnk : negb (String.eqb key "") = true)
    by (apply negb_true_iff; now apply String.eqb_neq).
  destruct ep.
  - destruct (req_formData req) as [[file|]|e]; simpl.
    + left. exists key, file. rewrite Hnk. split_and!; reflexivity.
    + do 4 right. split; reflexivity.
    + do 3 right. left. exists e. split; reflexivity.
  - destruct (JsString.startsWith "sk-" key) eqn:Hsk; simpl.
    + destruct (req_formData req) as [[file|]|e]; simpl.
      * left. exists key, file. rewrite Hnk, Hsk. split_and!; reflexivity.
      * do 4 right. split; reflexivity.
      * do 3 right. left. exists e. split; reflexivity.
    + do 2 right. left. split_and!; try reflexivity. exists key. split_and!; auto.
Qed.

(** X12. [POST] checks the key, then the form, before anything else. With no
    key or an empty key it answers 500; on the endpoint with retries a key
    that does not start with ["sk-"] is answered 500 too (the minimal
    endpoint has no such check); a form that cannot be read is answered 500
    with the error's message; a form without file is answered 400. In each of
    these cases the world is left as it was: no file written, no request to
    the service, no reading of the clock. *)
Theorem POST_early_exits (ep : Endpoint) (req : Request) (w : World) :
  (OPENAI_API_KEY w = None \/ OPENAI_API_KEY w = Some ""%string ->
     POST ep req w = (JsonError (msg_no_key ep) 500, w)) /\
  (forall key : string,
     OPENAI_API_KEY w = Some key -> key <> ""%string ->
     JsString.startsWith "sk-" key = false ->
     POST RetryingEndpoint req w = (JsonError msg_bad_key 500, w)) /\
  (forall key : string,
     OPENAI_API_KEY w = Some key -> key_accepted ep key = true ->
     (forall e : JsError, req_formData req = Throw e ->
        POST ep req w = (JsonError (or_default (message e) msg_generic) 500, w)) /\
     (req_formData req = Ok None ->
        POST ep req w = (JsonError msg_no_file 400, w))).
Proof.
  split_and!.
  - intros [Hk|Hk]; unfold POST, POST_try; now rewrite Hk.
  - intros key Hk Hne Hsk. unfold POST, POST_try. rewrite Hk.
    destruct (String.eqb_spec key ""); [contradiction|]. now rewrite Hsk.
  - intros key Hk Hacc. unfold POST, POST_try. rewrite Hk.
    apply andb_true_iff in Hacc as [Hne Hsk]. apply negb_true_iff in Hne. rewrite Hne.
    replace (match ep with
             | MinimalEndpoint => false
             | RetryingEndpoint => negb (JsString.startsWith "sk-" key)
             end) with false by (destruct ep; [reflexivity|now rewrite Hsk]).
    split; [intros e He|intros He]; now rewrite He.
Qed.

(** X13. [POST] answers with the document and status 200, or with an error
    and status 500, or with status 400; and 400 only for a form without the
    audio file: every failure of the service (a rejected key, the rate
    limit, a payload too large) reaches the caller as a 500. *)
Theorem POST_status_codes (ep : Endpoint) (req : Request) (w : World) :
  match (POST ep req w).1 with
  | PdfDocument _ st _ => st = 200
  | JsonError _ st => st = 500 \/ (st = 400 /\ req_formData req = Ok None)
  end.
Proof.
  destruct (POST_early ep req w)
    as [(key & file & Hk & Hacc & Hform)|[[-> _]|[[-> _]|[(e & -> & _)|[-> Hform]]]]];
    simpl; auto.
  rewrite (POST_with_file ep req w key file Hk Hacc Hform).
  destruct (processAudioFile _ _ _ _ (after_upload w file)) as [[t|e] w3]; simpl; auto.
  destruct (renderer w3 (file_name file) t); simpl; auto.
Qed.

Lemma processAudioFile_subseteq (ep : Endpoint) (filePath : string) (fileSize : Z)
    (originalName : string) (w : World) :
  fs (processAudioFile (transcribeAudio_of ep) filePath fileSize originalName w).2 ⊆ fs w.
Proof.
  apply map_subseteq_spec. intros p x Hp.
  destruct (processAudioFile_fs (transcribeAudio_of ep) (transcribeAudio_of_frame ep)
              filePath fileSize originalName w) as [_ Hfs].
  simpl in Hfs. destruct Hfs as [E|(chunks & w1 & _ & _ & Hsplit & E)];
    rewrite E in Hp; [exact Hp|].
  rewrite lookup_remove_all in Hp.
  destruct (decide (p ∈ chunks)) as [|Hnin]; [discriminate|].
  destruct (split_Ok_readable _ _ _ _ _ Hsplit) as [buf Hfile].
  destruct (splitMP3IntoChunks_spec _ fileSize w buf Hfile)
    as (chunks' & w1' & Hrun' & _ & _ & _ & _ & _ & Hother).
  rewrite Hsplit in Hrun'. injection Hrun' as <- <-.
  now rewrite <- (Hother p Hnin).
Qed.

Lemma unlink_quiet_fs (p : string) (w : World) :
  fs (try_catch (unlink p) (fun _ => ret tt) w).2 = delete p (fs w).
Proof.
  unfold try_catch, unlink. destruct (fs w !! p) eqn:E; simpl; [reflexivity|].
  symmetry. now apply delete_id.
Qed.

(** X16. A document is only ever answered for a file of a supported format
    whose transcript is not blank: the body is what the renderer gave for the
    original file name and the transcript that [processAudioFile] returned on
    the stored upload. *)
Theorem POST_document_origin (ep : Endpoint) (req : Request) (w w' : World)
    (body : list byte) (st : Z) (disposition : string) :
  POST ep req w = (PdfDocument body st disposition, w') ->
  exists (file : UploadedFile) (transcript : string),
    req_formData req = Ok (Some file) /\
    isSupportedFormat (file_name file) = true /\
    processAudioFile (transcribeAudio_of ep) (upload_path w file) (file_size file)
      (file_name file) (after_upload w file) = (Ok transcript, w') /\
    JsString.trim transcript <> ""%string /\
    renderer w (file_name file) transcript = Ok body /\
    st = 200 /\ disposition = attachment (file_name file).
Proof.
  intros Hrun.
  destruct (POST_early ep req w)
    as [(key & file & Hk & Hacc & Hform)|[[E _]|[[E _]|[(e & E & _)|[E _]]]]];
    try (rewrite E in Hrun; discriminate).
  rewrite (POST_with_file ep req w key file Hk Hacc Hform) in Hrun.
  destruct (processAudioFile_fs (transcribeAudio_of ep) (transcribeAudio_of_frame ep)
              (upload_path w file) (file_size file) (file_name file) (after_upload w file))
    as [Henv _].
  destruct (processAudioFile _ _ _ _ (after_upload w file)) as [[t|e] w3] eqn:Hproc;
    [|discriminate].
  destruct (renderer w3 (file_name file) t) as [pdf|] eqn:Hr; [|discriminate].
  injection Hrun as <- <- <- <-.
  exists file, t. split_and!; auto.
  - destruct (isSupportedFormat (file_name file)) eqn:Hfmt; [reflexivity|].
    rewrite processAudioFile_unsupported in Hproc by exact Hfmt. discriminate.
  - unfold processAudioFile, process_try in Hproc.
    destruct (isSupportedFormat (file_name file)); simpl in Hproc; [|discriminate].
    destruct (collect_transcriptions _ _ _ _) as [[[ts|e] clean] w2]; [|discriminate].
    injection Hproc as Hcomb _. now apply combine_transcriptions_Ok in Hcomb.
  - simpl in Henv. destruct Henv as (_ & _ & _ & _ & Hren).
    unfold after_upload in Hren. simpl in Hren. now rewrite <- Hren.
Qed.

Lemma split_head_append (c : ascii) (stem rest : string) :
  lacks c stem = true ->
  JsString.split_head c stem = stem /\
  JsString.split_head c (stem +:+ String c rest) = stem.
Proof.
  unfold lacks, JsString.chars.
  induction stem as [|x stem IH]; simpl.
  - intros _. now rewrite Ascii.eqb_refl.
  - intros H. apply andb_true_iff in H as [Hx Hs]. apply negb_true_iff in Hx.
    rewrite Hx. destruct (IH Hs) as [-> ->]. now split.
Qed.

(** X17. The name of the attachment keeps only what comes before the first
    dot of the file name: for a stem without dot, the upload [stem.rest]
    (whatever [rest] is, further dots included) and the upload [stem] get
    the same attachment name, [stem_transcripcion.pdf]. *)
Theorem attachment_keeps_first_stem (stem rest : string) :
  lacks "." stem = true ->
  attachment (stem +:+ "." +:+ rest)
    = ("attachment; filename=" +:+ quote +:+ stem +:+ "_transcripcion.pdf" +:+ quote)%string /\
  attachment stem = attachment (stem +:+ "." +:+ rest).
Proof.
  intros Hstem. unfold attachment.
  destruct (split_head_append "." stem rest Hstem) as [E1 E2].
  change (stem +:+ "." +:+ rest)%string with (stem +:+ String "." rest)%string.
  now rewrite E1, E2.
Qed.

(** ** The validators on whole families of names *)

Lemma lower_char_dot (x : ascii) :
  Ascii.eqb (JsString.lower_char x) "." = Ascii.eqb x ".".
Proof. destruct x as [[] [] [] [] [] [] [] []]; reflexivity. Qed.

Lemma lower_char_slash (x : ascii) :
  Ascii.eqb (JsString.lower_char x) "/" = Ascii.eqb x "/".
Proof. destruct x as [[] [] [] [] [] [] [] []]; reflexivity. Qed.

Lemma lacks_lower_dot (s : string) :
  lacks "." (JsString.toLowerCase s) = lacks "." s.
Proof.
  unfold lacks, JsString.chars.
  induction s as [|x s IH]; simpl; [reflexivity|]. now rewrite lower_char_dot, IH.
Qed.

Lemma lacks_lower_slash (s : string) :
  lacks "/" (JsString.toLowerCase s) = lacks "/" s.
Proof.
  unfold lacks, JsString.chars.
  induction s as [|x s IH]; simpl; [reflexivity|]. now rewrite lower_char_slash, IH.
Qed.

Lemma lacks_Forall (c : ascii) (s : string) :
  lacks c s = true -> Forall (fun x => Ascii.eqb x c = false) (JsString.chars s).
Proof.
  unfold lacks. rewrite forallb_forall. intros H. apply Forall_forall.
  intros x Hx. apply negb_true_iff, H. now apply list_elem_of_In.
Qed.

(** Characters that are neither a dot nor a separator, scanned once the end
    of the name is known and before any dot was seen, change nothing. *)
Lemma extname_loop_plain (l rest : list ascii) :
  forall (i sp e : Z) (ms : bool) (pd : Z),
    e <> -1 ->
    Forall (fun x => Ascii.eqb x "." = false) l ->
    Forall (fun x => Ascii.eqb x "/" = false) l ->
    Path.extname_loop (l ++ rest) i (Path.mkExtScan (-1) sp e ms pd) =
    Path.extname_loop rest (i - Z.of_nat (length l)) (Path.mkExtScan (-1) sp e ms pd).
Proof.
  induction l as [|c l IH]; intros i sp e ms pd He Hdot Hsl.
  - simpl. now rewrite Z.sub_0_r.
  - inversion Hdot as [|? ? Hc1 Hdot']; inversion Hsl as [|? ? Hc2 Hsl']; subst.
    change ((c :: l) ++ rest) with (c :: (l ++ rest)).
    rewrite extname_loop_cons by exact Hc2. rewrite Hc1.
    destruct (Z.eqb_spec e (-1)) as [|_]; [contradiction|].
    change (negb (-1 =? -1)) with false. cbv iota.
    rewrite IH by assumption. f_equal. simpl length. lia.
Qed.

(** Once the dot, the end and a character before the dot are found, the
    rest of the scan keeps all three findings. *)
Lemma extname_loop_settled (l : list ascii) :
  forall (i : Z) (st : Path.ExtScan),
    Path.startDot st <> -1 -> Path.endPos st <> -1 -> Path.preDotState st <> 0 ->
    Path.preDotState (Path.extname_loop l i st) <> 0.
Proof.
  induction l as [|c l IH]; intros i [d sp e ms pd] Hd He Hp; simpl in *; [exact Hp|].
  destruct (Ascii.eqb c "/").
  - destruct (negb ms); [exact Hp|]. now apply (IH (i - 1) (Path.mkExtScan d sp e ms pd)).
  - destruct (Z.eqb_spec e (-1)) as [|_]; [contradiction|].
    destruct (Ascii.eqb c "."); simpl.
    + destruct (Z.eqb_spec d (-1)) as [|_]; [contradiction|].
      destruct (negb (pd =? 1)).
      * now apply (IH (i - 1) (Path.mkExtScan d sp e ms 1)).
      * now apply (IH (i - 1) (Path.mkExtScan d sp e ms pd)).
    + destruct (Z.eqb_spec d (-1)) as [|_]; [contradiction|]. simpl.
      now apply (IH (i - 1) (Path.mkExtScan d sp e ms (-1))).
Qed.

Lemma chars_length (s : string) : length (JsString.chars s) = String.length s.
Proof.
  unfold JsString.chars. induction s as [|c s IH]; simpl; [reflexivity|now rewrite IH].
Qed.

Lemma string_app_assoc (a b c : string) : ((a +:+ b) +:+ c = a +:+ (b +:+ c))%string.
Proof.
  induction a as [|x a IH]; [reflexivity|].
  change (String x ((a +:+ b) +:+ c) = String x (a +:+ (b +:+ c))).
  now rewrite IH.
Qed.

(** The extension of [stem c . ext], for [c] other than the separator and
    [ext] not empty and free of dots and separators, is [.ext]. *)
Lemma extname_dotted (stem ext : string) (c : ascii) :
  Ascii.eqb c "/" = false -> ext <> ""%string ->
  lacks "." ext = true -> lacks "/" ext = true ->
  Path.extname (stem +:+ String c (String "." ext)) = String "." ext.
Proof.
  intros Hc Hext Hdot Hsl.
  unfold Path.extname, JsString.len.
  change (stem +:+ String c (String "." ext))%string
    with (stem +:+ (String c "" +:+ String "." ext))%string.
  rewrite chars_append, rev_app_distr, length_append.
  change (JsString.chars (String c "" +:+ String "." ext))
    with (c :: "."%char :: JsString.chars ext).
  change (String.length (String c "" +:+ String "." ext))
    with (S (S (String.length ext))).
  set (n := String.length stem). set (m := String.length ext).
  assert (Hm : (0 < m)%nat) by (subst m; destruct ext; [congruence|simpl; lia]).
  change (rev (c :: "."%char :: JsString.chars ext))
    with ((rev (JsString.chars ext) ++ ["."%char]) ++ [c]).
  rewrite <- !app_assoc. simpl app.
  pose proof (List.Forall_rev (lacks_Forall _ _ Hdot)) as Fdot.
  pose proof (List.Forall_rev (lacks_Forall _ _ Hsl)) as Fsl.
  assert (Hlen : length (rev (JsString.chars ext)) = m)
    by (rewrite length_rev; apply chars_length).
  destruct (rev (JsString.chars ext)) as [|x l]; [simpl in Hlen; lia|].
  inversion Fdot as [|? ? Hx1 Fdot']; inversion Fsl as [|? ? Hx2 Fsl']; subst.
  change ((x :: l) ++ "."%char :: c :: rev (JsString.chars stem))
    with (x :: (l ++ "."%char :: c :: rev (JsString.chars stem))).
  unfold Path.scan0.
  rewrite extname_loop_cons by exact Hx2. rewrite Hx1.
  change (-1 =? -1) with true. change (negb true) with false. cbv iota.
  rewrite extname_loop_plain by (assumption || lia).
  rewrite extname_loop_cons by reflexivity.
  change (Ascii.eqb "." ".") with true. change (-1 =? -1) with true. cbv iota.
  destruct (Z.eqb_spec (Z.of_nat (n + S (S m)) - 1 + 1) (-1)) as [|_]; [lia|].
  rewrite extname_loop_cons by exact Hc.
  destruct (Z.eqb_spec (Z.of_nat (n + S (S m)) - 1 + 1) (-1)) as [|_]; [lia|].
  set (d := Z.of_nat (n + S (S m)) - 1 - 1 - Z.of_nat (length l)).
  set (e := Z.of_nat (n + S (S m)) - 1 + 1).
  assert (Hd : d = Z.of_nat n + 1) by (subst d; simpl in Hlen; lia).
  destruct (Z.eqb_spec d (-1)) as [|_]; [lia|].
  replace (if Ascii.eqb c "." then d else d) with d by now destruct (Ascii.eqb c ".").
  set (pd := if Ascii.eqb c "." then if negb (0 =? 1) then 1 else 0
             else if negb false then -1 else 0).
  assert (Hpd : pd <> 0) by (subst pd; destruct (Ascii.eqb c "."); simpl; lia).
  set (st := Path.mkExtScan d 0 e false pd).
  destruct (extname_loop_keeps (rev (JsString.chars stem)) (d - 1 - 1) st)
    as [Kd Ke]; [simpl; lia|simpl; subst e; lia|].
  pose proof (extname_loop_settled (rev (JsString.chars stem)) (d - 1 - 1) st
                ltac:(simpl; lia) ltac:(simpl; subst e; lia) Hpd) as Kp.
  set (fin := Path.extname_loop _ _ st) in *. simpl in Kd, Ke.
  rewrite Kd, Ke.
  destruct (Z.eqb_spec d (-1)) as [|_]; [lia|].
  destruct (Z.eqb_spec e (-1)) as [|_]; [subst e; lia|].
  destruct (Z.eqb_spec (Path.preDotState fin) 0) as [|_]; [contradiction|].
  destruct (Z.eqb_spec d (e - 1)) as [|_]; [subst e; simpl in Hlen; lia|].
  rewrite andb_false_r. simpl orb. cbv iota.
  unfold JsString.slice.
  rewrite <- (string_app_assoc stem (String c "") (String "." ext)).
  replace (Z.to_nat d) with (String.length (stem +:+ String c ""))
    by (rewrite length_append; simpl; lia).
  replace (Z.to_nat (e - d)) with (String.length (String "." ext))
    by (subst e; simpl; simpl in Hlen; lia).
  apply substring_suffix.
Qed.

Lemma includes_In (arr : list string) (x : string) :
  includes arr x = true <-> x ∈ arr.
Proof.
  unfold includes. rewrite existsb_exists, list_elem_of_In. split.
  - intros (y & Hy & E). apply String.eqb_eq in E. now subst.
  - intros H. exists x. split; [exact H|apply String.eqb_refl].
Qed.

(** X18. The endpoint's validator accepts every name [stem c . ext] whose
    extension is one of the ten supported ones in any mix of upper and lower
    case, [c] being any character but the path separator. *)
Theorem isSupportedFormat_any_case (stem ext : string) (c : ascii) :
  c <> "/"%char ->
  JsString.toLowerCase (String "." ext) ∈ SUPPORTED_FORMATS ->
  isSupportedFormat (stem +:+ String c (String "." ext)) = true.
Proof.
  intros Hc Hin. apply Ascii.eqb_neq in Hc.
  assert (Hplain : ext <> ""%string /\ lacks "." ext = true /\ lacks "/" ext = true).
  { rewrite <- lacks_lower_dot, <- lacks_lower_slash.
    simpl in Hin. rewrite lower_char_dot in Hin || idtac.
    unfold SUPPORTED_FORMATS in Hin.
    repeat (apply elem_of_cons in Hin as [Hin|Hin];
            [injection Hin as Hin; rewrite Hin;
             split_and!; [destruct ext; [discriminate Hin|discriminate]
                         |reflexivity|reflexivity]|]).
    now apply not_elem_of_nil in Hin. }
  destruct Hplain as (Hne & Hdot & Hsl).
  unfold isSupportedFormat. rewrite (extname_dotted stem ext c Hc Hne Hdot Hsl).
  now apply includes_In.
Qed.

Lemma substring_split (s : string) :
  forall n : nat, (n <= String.length s)%nat ->
    s = (substring 0 n s +:+ substring n (String.length s - n) s)%string.
Proof.
  induction s as [|c s IH]; intros [|n] Hn; simpl in *; try lia.
  - reflexivity.
  - now rewrite substring_all.
  - change (String c s = String c (substring 0 n s +:+ substring n (String.length s - n) s)).
    f_equal. apply IH. lia.
Qed.

Lemma endsWith_split (suf s : string) :
  JsString.endsWith suf s = true -> exists pre, s = (pre +:+ suf)%string.
Proof.
  unfold JsString.endsWith. intros H. apply andb_true_iff in H as [Hle E].
  apply Nat.leb_le in Hle. apply String.eqb_eq in E.
  exists (substring 0 (String.length s - String.length suf) s).
  rewrite (substring_split s (String.length s - String.length suf)) at 1 by lia.
  f_equal. rewrite <- E at 3. f_equal. lia.
Qed.

Lemma toLowerCase_split (a b : string) :
  forall s, JsString.toLowerCase s = (a +:+ b)%string ->
    exists a' b', s = (a' +:+ b')%string /\
      JsString.toLowerCase a' = a /\ JsString.toLowerCase b' = b.
Proof.
  induction a as [|x a IH]; intros s E.
  - exists ""%string, s. now split_and!.
  - destruct s as [|y s]; [discriminate E|].
    change (String (JsString.lower_char y) (JsString.toLowerCase s) = String x (a +:+ b)) in E.
    injection E as Ey Es. destruct (IH s Es) as (a' & b' & -> & Ea & Eb).
    exists (String y a'), b'. split_and!; [reflexivity| |exact Eb].
    simpl. now rewrite Ey, Ea.
Qed.

Lemma string_snoc (s : string) :
  s <> ""%string -> exists stem c, s = (stem +:+ String c "")%string.
Proof.
  induction s as [|x s IH]; intros H; [congruence|].
  destruct s as [|y s].
  - now exists ""%string, x.
  - destruct IH as (stem & c & E); [discriminate|].
    exists (String x stem), c. rewrite E. reflexivity.
Qed.

Lemma endsWith_last (stem : string) (c d : ascii) :
  JsString.endsWith (String d "") (stem +:+ String c "") = Ascii.eqb c d.
Proof.
  pose proof (substring_suffix stem (String c "")) as E.
  unfold JsString.endsWith. rewrite length_append.
  change (String.length (String d "")) with 1%nat.
  change (String.length (String c "")) with 1%nat in *.
  replace (String.length stem + 1 - 1)%nat with (String.length stem) by lia.
  rewrite E.
  replace (1 <=? String.length stem + 1)%nat with true
    by (symmetry; apply Nat.leb_le; lia).
  simpl. destruct (Ascii.eqb_spec c d); reflexivity.
Qed.

(** The scan of [.ext] at the end of a name: the dot is found at its index,
    the end after the last character, and nothing is known yet of what
    precedes the dot. *)
Lemma extname_loop_ext (ext : string) (rest : list ascii) (n : Z) :
  0 <= n -> ext <> ""%string ->
  lacks "." ext = true -> lacks "/" ext = true ->
  Path.extname_loop (rev (JsString.chars ext) ++ "."%char :: rest)
    (n + JsString.len ext) Path.scan0 =
  Path.extname_loop rest (n - 1)
    (Path.mkExtScan n 0 (n + 1 + JsString.len ext) false 0).
Proof.
  intros Hn Hext Hdot Hsl. unfold JsString.len.
  pose proof (List.Forall_rev (lacks_Forall _ _ Hdot)) as Fdot.
  pose proof (List.Forall_rev (lacks_Forall _ _ Hsl)) as Fsl.
  assert (Hlen : length (rev (JsString.chars ext)) = String.length ext)
    by (rewrite length_rev; apply chars_length).
  set (m := String.length ext) in *.
  assert (Hm : (0 < m)%nat) by (subst m; destruct ext; [congruence|simpl; lia]).
  destruct (rev (JsString.chars ext)) as [|x l]; [simpl in Hlen; lia|].
  inversion Fdot as [|? ? Hx1 Fdot']; inversion Fsl as [|? ? Hx2 Fsl']; subst.
  change ((x :: l) ++ "."%char :: rest) with (x :: (l ++ "."%char :: rest)).
  unfold Path.scan0.
  rewrite extname_loop_cons by exact Hx2. rewrite Hx1.
  change (-1 =? -1) with true. change (negb true) with false. cbv iota.
  rewrite extname_loop_plain by (assumption || lia).
  rewrite extname_loop_cons by reflexivity.
  change (Ascii.eqb "." ".") with true. change (-1 =? -1) with true. cbv iota.
  destruct (Z.eqb_spec (n + Z.of_nat m + 1) (-1)) as [|_]; [lia|].
  simpl in Hlen. f_equal; [lia|]. f_equal; lia.
Qed.

(** A name that is only [.ext], or whose [.ext] follows a separator, has
    no extension: it is a hidden file. *)
Lemma extname_of_hidden (pre ext : string) :
  pre = ""%string \/ (exists dir, pre = (dir +:+ "/")%string) ->
  ext <> ""%string -> lacks "." ext = true -> lacks "/" ext = true ->
  Path.extname (pre +:+ String "." ext) = ""%string.
Proof.
  intros Hpre Hext Hdot Hsl.
  assert (Hzero : Path.preDotState
            (Path.extname_loop (rev (JsString.chars (pre +:+ String "." ext)))
               (JsString.len (pre +:+ String "." ext) - 1) Path.scan0) = 0).
  { rewrite chars_append, rev_app_distr.
    change (JsString.chars (String "." ext)) with ("."%char :: JsString.chars ext).
    change (rev ("."%char :: JsString.chars ext))
      with (rev (JsString.chars ext) ++ ["."%char]).
    rewrite <- app_assoc. simpl app.
    unfold JsString.len at 1. rewrite length_append. simpl String.length.
    replace (Z.of_nat (String.length pre + S (String.length ext)) - 1)
      with (Z.of_nat (String.length pre) + JsString.len ext)
      by (unfold JsString.len; lia).
    rewrite extname_loop_ext by (assumption || lia).
    destruct Hpre as [->|(dir & ->)]; [reflexivity|].
    rewrite chars_append, rev_app_distr. reflexivity. }
  unfold Path.extname. cbv zeta. rewrite Hzero.
  change (0 =? 0) with true. now rewrite orb_true_r.
Qed.

(** Without a dot the scan never finds one. *)
Lemma extname_loop_no_dot (l : list ascii) :
  forall (i : Z) (st : Path.ExtScan),
    Forall (fun x => Ascii.eqb x "." = false) l ->
    Path.startDot st = -1 ->
    Path.startDot (Path.extname_loop l i st) = -1.
Proof.
  induction l as [|c l IH]; intros i [d sp e ms pd] Hl Hd; simpl in *; [exact Hd|].
  inversion Hl as [|? ? Hc Hl']; subst. rewrite Hc.
  destruct (Ascii.eqb c "/").
  - destruct (negb ms); [reflexivity|]. now apply IH.
  - destruct (e =? -1); simpl; now apply IH.
Qed.

Lemma pattern_extensions_plain (e : string) :
  e ∈ Utils.pattern_extensions ->
  e <> ""%string /\ lacks "." e = true /\ lacks "/" e = true.
Proof.
  unfold Utils.pattern_extensions. intros H.
  repeat (apply elem_of_cons in H as [->|H]; [now split_and!|]).
  now apply not_elem_of_nil in H.
Qed.

(** X19. The endpoint refuses every name that has no dot at all. *)
Theorem isSupportedFormat_needs_dot (name : string) :
  lacks "." name = true -> isSupportedFormat name = false.
Proof.
  intros H. unfold isSupportedFormat, Path.extname. cbv zeta.
  rewrite extname_loop_no_dot;
    [reflexivity|apply List.Forall_rev, lacks_Forall, H|reflexivity].
Qed.

(** X20. Every format the upload form advertises passes the form's
    validator as the end of a name, in any mix of upper and lower case,
    after any stem and whatever the declared media type. *)
Theorem isValidAudioFile_advertised (stem suffix type : string) (data : list byte) :
  JsString.toLowerCase suffix ∈ Utils.getSupportedFormats ->
  Utils.isValidAudioFile (mkUploadedFile (stem +:+ suffix) type data) = true.
Proof.
  intros H. unfold Utils.isValidAudioFile. apply orb_true_iff. right.
  cbn [file_name]. unfold Utils.matches_pattern. rewrite toLowerCase_append.
  apply existsb_exists. unfold Utils.getSupportedFormats in H.
  repeat (apply elem_of_cons in H as [->|H];
          [eexists; split; [|apply endsWith_append]; unfold Utils.pattern_extensions;
           simpl; tauto|]).
  now apply not_elem_of_nil in H.
Qed.

(** X21. What the form's name check accepts, and when the endpoint agrees:
    a name matching the form's pattern is [pre . ext] with [ext] one of the
    pattern's eight extensions in some case, and the endpoint accepts it
    exactly when [ext] is not aac and [pre] is neither empty nor ended by a
    path separator. *)
Theorem matches_pattern_vs_endpoint (name : string) :
  Utils.matches_pattern name = true ->
  exists pre ext,
    name = (pre +:+ String "." ext)%string /\
    JsString.toLowerCase ext ∈ Utils.pattern_extensions /\
    (isSupportedFormat name = true <->
     JsString.toLowerCase ext <> "aac"%string /\ pre <> ""%string /\
     JsString.endsWith "/" pre = false).
Proof.
  unfold Utils.matches_pattern. intros H.
  apply existsb_exists in H as (e & He & Hends). apply list_elem_of_In in He.
  apply endsWith_split in Hends as (p & Hlow).
  apply toLowerCase_split in Hlow as (pre & suf & -> & _ & Hsuf).
  destruct suf as [|c ext]; [discriminate Hsuf|].
  change (String (JsString.lower_char c) (JsString.toLowerCase ext) = String "." e) in Hsuf.
  injection Hsuf as Hc Hext.
  assert (c = "."%char) as ->.
  { apply Ascii.eqb_eq. rewrite <- lower_char_dot, Hc. reflexivity. }
  exists pre, ext. split; [reflexivity|]. split; [now rewrite Hext|].
  destruct (pattern_extensions_plain e He) as (Hne & Hdot & Hsl).
  rewrite <- Hext in Hne, Hdot, Hsl.
  rewrite lacks_lower_dot in Hdot. rewrite lacks_lower_slash in Hsl.
  assert (Hne' : ext <> ""%string) by (intros ->; now apply Hne).
  destruct (string_dec pre "") as [->|Hpre].
  { unfold isSupportedFormat.
    rewrite (extname_of_hidden "" ext) by (auto || assumption).
    split; [discriminate|]. now intros (_ & ? & _). }
  destruct (string_snoc pre Hpre) as (stem & c & ->).
  rewrite endsWith_last.
  destruct (Ascii.eqb_spec c "/") as [->|Hc'].
  { unfold isSupportedFormat.
    rewrite (extname_of_hidden (stem +:+ "/") ext) by (eauto || assumption).
    split; [discriminate|]. now intros (_ & _ & ?). }
  apply Ascii.eqb_neq in Hc'.
  unfold isSupportedFormat.
  rewrite string_app_assoc.
  change (String c "" +:+ String "." ext)%string with (String c (String "." ext)).
  rewrite (extname_dotted stem ext c Hc' Hne' Hdot Hsl).
  change (JsString.toLowerCase (String "." ext))
    with (String "." (JsString.toLowerCase ext)).
  rewrite Hext. clear - He Hpre.
  unfold Utils.pattern_extensions in He.
  repeat (apply elem_of_cons in He as [->|He];
          [split;
           [intros Hs; split_and!;
            [discriminate || (vm_compute in Hs; discriminate Hs)
            |exact Hpre|reflexivity]
           |intros (Ha & _ & _); (reflexivity || now elim Ha)]|]).
  now apply not_elem_of_nil in He.
Qed.

(** ** The PDF writer *)

Lemma printable_question : Pdf.printable "?" = true.
Proof. reflexivity. Qed.

Lemma cleanTextForPDF_append (a b : string) :
  Pdf.cleanTextForPDF (a +:+ b) = (Pdf.cleanTextForPDF a +:+ Pdf.cleanTextForPDF b)%string.
Proof.
  induction a as [|c a IH]; [reflexivity|].
  change (String (if Pdf.printable c then c else "?"%char) (Pdf.cleanTextForPDF (a +:+ b)) =
          String (if Pdf.printable c then c else "?"%char)
            (Pdf.cleanTextForPDF a +:+ Pdf.cleanTextForPDF b)).
  now rewrite IH.
Qed.

Lemma all_printable_clean (text : string) :
  all_printable (Pdf.cleanTextForPDF text) = true.
Proof.
  unfold all_printable, JsString.chars.
  induction text as [|c r IH]; [reflexivity|]. simpl. rewrite IH, andb_true_r.
  destruct (Pdf.printable c) eqn:E; [exact E|reflexivity].
Qed.

Lemma all_printable_append (a b : string) :
  all_printable (a +:+ b) = all_printable a && all_printable b.
Proof. unfold all_printable. now rewrite chars_append, forallb_app. Qed.

(** X22. The cleaning keeps the length, leaves only printable code units,
    and changes a text exactly when the text has an unprintable one. *)
Theorem cleanTextForPDF_projection (text : string) :
  String.length (Pdf.cleanTextForPDF text) = String.length text /\
  all_printable (Pdf.cleanTextForPDF text) = true /\
  (Pdf.cleanTextForPDF text = text <-> all_printable text = true).
Proof.
  split_and!.
  - induction text as [|c r IH]; simpl; [reflexivity|now rewrite IH].
  - apply all_printable_clean.
  - unfold all_printable, JsString.chars. induction text as [|c r IH]; simpl; [tauto|].
    destruct (Pdf.printable c) eqn:E; simpl.
    + rewrite <- IH. split; [now intros [= ->]|now intros ->].
    + split; [|discriminate]. intros [= <- _]. now rewrite printable_question in E.
Qed.

(** X23. What the orchestrator joins with a blank line the writer prints
    with two question marks: the cleaning of the joined fragments is the
    cleaned fragments joined by [??]. *)
Theorem cleanTextForPDF_join (fragments : list string) :
  Pdf.cleanTextForPDF (JsString.join separator fragments) =
  JsString.join "??" (map Pdf.cleanTextForPDF fragments).
Proof.
  induction fragments as [|x [|y l] IH]; [reflexivity|reflexivity|].
  change (JsString.join separator (x :: y :: l))
    with (x +:+ separator +:+ JsString.join separator (y :: l))%string.
  change (JsString.join "??" (map Pdf.cleanTextForPDF (x :: y :: l)))
    with (Pdf.cleanTextForPDF x +:+ "??" +:+
          JsString.join "??" (map Pdf.cleanTextForPDF (y :: l)))%string.
  now rewrite !cleanTextForPDF_append, IH.
Qed.

Lemma split_parts_lacks (sep : ascii) (s : string) :
  lacks sep s = true -> Pdf.split_parts sep s = (s, []).
Proof.
  unfold lacks, JsString.chars. induction s as [|c r IH]; simpl; [reflexivity|].
  intros H. apply andb_true_iff in H as [Hc Hr]. rewrite (IH Hr).
  apply negb_true_iff in Hc. now rewrite Hc.
Qed.

Lemma clean_lacks_newline (text : string) :
  lacks "010" (Pdf.cleanTextForPDF text) = true.
Proof.
  unfold lacks, JsString.chars. induction text as [|c r IH]; [reflexivity|].
  simpl. rewrite IH, andb_true_r.
  destruct c as [[] [] [] [] [] [] [] []]; reflexivity.
Qed.

Lemma pdf_trimEnd_empty (s : string) :
  Pdf.trimEnd s = ""%string <-> all_space s = true.
Proof.
  unfold all_space, JsString.chars. induction s as [|c r IH]; simpl; [tauto|].
  destruct (Pdf.trimEnd r) eqn:E.
  - destruct (Pdf.is_space c); simpl; [|split; discriminate].
    split; [intros _; now apply IH|reflexivity].
  - split; [discriminate|]. intros H. apply andb_true_iff in H as [_ H].
    apply IH in H. discriminate H.
Qed.

Lemma pdf_trim_empty (s : string) : Pdf.trim s = ""%string <-> all_space s = true.
Proof.
  unfold Pdf.trim. rewrite pdf_trimEnd_empty.
  unfold all_space, JsString.chars. induction s as [|c r IH]; simpl; [tauto|].
  destruct (Pdf.is_space c) eqn:E; simpl; [exact IH|].
  rewrite E. simpl. tauto.
Qed.

Lemma truthy_trim (s : string) : Pdf.truthy (Pdf.trim s) = negb (all_space s).
Proof.
  unfold Pdf.truthy. destruct (String.eqb_spec (Pdf.trim s) "") as [E|E].
  - apply pdf_trim_empty in E. now rewrite E.
  - destruct (all_space s) eqn:A; [|reflexivity]. apply pdf_trim_empty in A. contradiction.
Qed.

Lemma paragraphs_clean (text : string) :
  Pdf.paragraphs (Pdf.cleanTextForPDF text) =
  if all_space (Pdf.cleanTextForPDF text) then [] else [Pdf.cleanTextForPDF text].
Proof.
  unfold Pdf.paragraphs, Pdf.split.
  rewrite (split_parts_lacks _ _ (clean_lacks_newline text)).
  rewrite filter_cons, filter_nil. rewrite truthy_trim.
  destruct (all_space (Pdf.cleanTextForPDF text)); simpl.
  - destruct (decide (false = true)); [discriminate|reflexivity].
  - destruct (decide (true = true)); [reflexivity|contradiction].
Qed.

(** X24. The writer never sees more than one paragraph: the cleaning has
    replaced every line feed, so the cleaned transcription is the only
    paragraph, or there is none when it is white space only. *)
Theorem paragraphs_of_clean_text (text : string) :
  Pdf.paragraphs (Pdf.cleanTextForPDF text) =
  if all_space (Pdf.cleanTextForPDF text) then [] else [Pdf.cleanTextForPDF text].
Proof. apply paragraphs_clean. Qed.
Lemma split_parts_words (sep : ascii) (s : string) :
  lacks sep (Pdf.split_parts sep s).1 = true /\
  Forall (fun word => lacks sep word = true) (Pdf.split_parts sep s).2.
Proof.
  unfold lacks, JsString.chars. induction s as [|c r IH]; simpl; [now split|].
  destruct (Pdf.split_parts sep r) as [h t]. destruct IH as [Hh Ht].
  destruct (Ascii.eqb c sep) eqn:E; simpl in *.
  - split; [reflexivity|]. now constructor.
  - rewrite E. simpl. now split.
Qed.

Lemma split_words (sep : ascii) (s : string) :
  Forall (fun word => lacks sep word = true) (Pdf.split sep s).
Proof.
  unfold Pdf.split. pose proof (split_parts_words sep s) as [Hh Ht].
  destruct (Pdf.split_parts sep s) as [h t]. now constructor.
Qed.

Lemma ink_append (a b : string) : ink (a +:+ b) = ink a ++ ink b.
Proof. unfold ink. now rewrite chars_append, List.filter_app. Qed.

Lemma split_ink (s : string) : concat (map ink (Pdf.split " " s)) = ink s.
Proof.
  unfold Pdf.split.
  assert (H : ink (Pdf.split_parts " " s).1 ++ concat (map ink (Pdf.split_parts " " s).2)
              = ink s).
  { induction s as [|c r IH]; [reflexivity|]. simpl.
    destruct (Pdf.split_parts " " r) as [h t]. simpl in IH.
    unfold ink, JsString.chars in *. simpl.
    destruct (Ascii.eqb c " ") eqn:E; simpl; [exact IH|].
    rewrite E. simpl. now rewrite <- IH. }
  destruct (Pdf.split_parts " " s) as [h t]. exact H.
Qed.

Lemma truthy_true (s : string) : Pdf.truthy s = true <-> s <> ""%string.
Proof.
  unfold Pdf.truthy. destruct (String.eqb_spec s "") as [E|E]; simpl.
  - split; [discriminate|]. intros H. now elim H.
  - split; [now intros _|reflexivity].
Qed.

Lemma truthy_false (s : string) : Pdf.truthy s = false <-> s = ""%string.
Proof.
  unfold Pdf.truthy. destruct (String.eqb_spec s "") as [E|E]; simpl.
  - split; [now intros _|reflexivity].
  - split; [discriminate|]. intros H. now elim E.
Qed.

Section Wrapping.

Variable widthOfTextAtSize : string -> Q -> Q.
Variable maxW : Q.

Lemma wrap_loop_settled (words : list string) :
  forall (lines : list string) (cur : string),
    Forall (fun word => lacks " " word = true) words ->
    Forall (fun line => line <> ""%string /\ settled widthOfTextAtSize maxW line) lines ->
    settled widthOfTextAtSize maxW cur ->
    Forall (fun line => line <> ""%string /\ settled widthOfTextAtSize maxW line)
      (Pdf.wrap_loop widthOfTextAtSize maxW words lines cur).1 /\
    settled widthOfTextAtSize maxW
      (Pdf.wrap_loop widthOfTextAtSize maxW words lines cur).2.
Proof.
  induction words as [|word rest IH]; intros lines cur Hw Hl Hc; [now split|].
  inversion Hw as [|? ? Hword Hrest]; subst. simpl.
  destruct (Qle_bool _ maxW) eqn:Efit.
  - apply IH; [assumption|assumption|]. left. now apply Qle_bool_iff.
  - apply IH; [assumption| |now right].
    destruct (Pdf.truthy cur) eqn:Et; [|assumption].
    apply Forall_app. split; [assumption|].
    constructor; [|constructor]. split; [now apply truthy_true|assumption].
Qed.

Lemma wrap_loop_ink (words : list string) :
  forall (lines : list string) (cur : string),
    concat (map ink (Pdf.wrap_loop widthOfTextAtSize maxW words lines cur).1) ++
    ink (Pdf.wrap_loop widthOfTextAtSize maxW words lines cur).2 =
    concat (map ink lines) ++ ink cur ++ concat (map ink words).
Proof.
  induction words as [|word rest IH]; intros lines cur.
  - simpl. now rewrite app_nil_r.
  - simpl. destruct (Qle_bool _ maxW).
    + rewrite IH. destruct (Pdf.truthy cur) eqn:Et.
      * rewrite !ink_append. change (ink " ") with (@nil ascii).
        now rewrite <- !app_assoc.
      * apply truthy_false in Et. subst cur. reflexivity.
    + rewrite IH. destruct (Pdf.truthy cur) eqn:Et.
      * rewrite map_app, concat_app. simpl. now rewrite app_nil_r, <- !app_assoc.
      * apply truthy_false in Et. subst cur. reflexivity.
Qed.

Lemma wrapText_settled (text : string) :
  Forall (fun line => line <> ""%string /\ settled widthOfTextAtSize maxW line)
    (Pdf.wrapText widthOfTextAtSize text maxW).
Proof.
  unfold Pdf.wrapText. cbv zeta.
  pose proof (wrap_loop_settled (Pdf.split " " text) [] ""
                (split_words " " text) (Forall_nil_2 _) (or_intror eq_refl)) as [Hl Hc].
  destruct (Pdf.wrap_loop _ _ _ _ _) as [lines cur]. simpl in Hl, Hc.
  destruct (Pdf.truthy cur) eqn:Et; [|assumption].
  apply Forall_app. split; [assumption|].
  constructor; [|constructor]. split; [now apply truthy_true|assumption].
Qed.

End Wrapping.

(** X25. Every line [wrapText] returns is non-empty, and it is within the
    width or it is a single word (it has no space): only a word that is too
    wide on its own makes a line that is too wide.  This holds for every
    width function. *)
Theorem wrapText_lines (widthOfTextAtSize : string -> Q -> Q) (text : string)
    (maxW : Q) (line : string) :
  line ∈ Pdf.wrapText widthOfTextAtSize text maxW ->
  line <> ""%string /\
  ((widthOfTextAtSize line Pdf.fontSize <= maxW)%Q \/ lacks " " line = true).
Proof.
  intros Hin.
  pose proof (wrapText_settled widthOfTextAtSize maxW text) as H.
  rewrite Forall_forall in H. exact (H line Hin).
Qed.

(** X26. Wrapping loses nothing but spaces: the characters other than the
    space, read line after line, are those of the text, in order. *)
Theorem wrapText_keeps_ink (widthOfTextAtSize : string -> Q -> Q) (text : string)
    (maxW : Q) :
  concat (map ink (Pdf.wrapText widthOfTextAtSize text maxW)) = ink text.
Proof.
  unfold Pdf.wrapText. cbv zeta.
  pose proof (wrap_loop_ink widthOfTextAtSize maxW (Pdf.split " " text) [] "") as H.
  destruct (Pdf.wrap_loop _ _ _ _ _) as [lines cur]. simpl in H.
  rewrite split_ink in H. rewrite <- H.
  destruct (Pdf.truthy cur) eqn:Et.
  - rewrite map_app, concat_app. simpl. now rewrite app_nil_r.
  - apply truthy_false in Et. subst cur. simpl. now rewrite app_nil_r.
Qed.
Lemma Qltb_true (a b : Q) : Pdf.Qltb a b = true -> (a < b)%Q.
Proof.
  unfold Pdf.Qltb. intros H. apply negb_true_iff in H.
  destruct (Qlt_le_dec a b) as [L|L]; [exact L|].
  apply Qle_bool_iff in L. congruence.
Qed.

Lemma Qltb_false (a b : Q) : Pdf.Qltb a b = false -> (b <= a)%Q.
Proof.
  unfold Pdf.Qltb. intros H. apply negb_false_iff in H. now apply Qle_bool_iff.
Qed.

Lemma getPages_concat_snoc (st : Pdf.Writer) (d : Pdf.Draw) :
  concat (Pdf.getPages (Pdf.mkWriter (Pdf.earlier st) (Pdf.page st ++ [d]) (Pdf.yPosition st)))
  = concat (Pdf.getPages st) ++ [d].
Proof.
  unfold Pdf.getPages. simpl. rewrite !concat_app. simpl.
  now rewrite !app_nil_r, app_assoc.
Qed.

(** One line: one text, on the current page or at the top of a new one. *)
Lemma put_line_draw (st : Pdf.Writer) (line : string) :
  (Pdf.yPosition st <= 792)%Q ->
  exists y : Q,
    (100 <= y <= 792)%Q /\
    concat (Pdf.getPages (Pdf.put_line st line)) =
      concat (Pdf.getPages st) ++ [body_draw line y] /\
    (Pdf.yPosition (Pdf.put_line st line) <= 792)%Q.
Proof.
  intros Hy. unfold Pdf.put_line.
  destruct (Pdf.Qltb (Pdf.yPosition st) (Pdf.margin + 50)) eqn:E.
  - exists (Pdf.pageHeight - Pdf.margin)%Q. cbn [Pdf.earlier Pdf.page Pdf.yPosition].
    split_and!.
    + unfold Pdf.pageHeight, Pdf.margin. lra.
    + unfold Pdf.pageHeight, Pdf.margin. lra.
    + unfold Pdf.getPages. cbn [Pdf.earlier Pdf.page]. rewrite !concat_app. simpl.
      now rewrite !app_nil_r.
    + unfold Pdf.pageHeight, Pdf.margin, Pdf.lineHeight, Pdf.fontSize. lra.
  - apply Qltb_false in E. exists (Pdf.yPosition st). split_and!.
    + unfold Pdf.margin in E. lra.
    + exact Hy.
    + apply getPages_concat_snoc.
    + cbn [Pdf.yPosition]. unfold Pdf.lineHeight, Pdf.fontSize. lra.
Qed.

Lemma put_lines_draw (lines : list string) :
  forall st : Pdf.Writer,
    (Pdf.yPosition st <= 792)%Q ->
    exists heights : list Q,
      length heights = length lines /\
      Forall (fun y => (100 <= y <= 792)%Q) heights /\
      concat (Pdf.getPages (fold_left Pdf.put_line lines st)) =
        concat (Pdf.getPages st) ++ zip_with body_draw lines heights /\
      (Pdf.yPosition (fold_left Pdf.put_line lines st) <= 792)%Q.
Proof.
  induction lines as [|line lines IH]; intros st Hy.
  - exists []. simpl. rewrite app_nil_r. now split_and!.
  - destruct (put_line_draw st line Hy) as (y & Hrange & Hdraw & Hy').
    destruct (IH _ Hy') as (heights & Hlen & Hall & Hdraws & Hy'').
    exists (y :: heights). simpl. split_and!.
    + now rewrite Hlen.
    + now constructor.
    + rewrite Hdraws, Hdraw. now rewrite <- app_assoc.
    + exact Hy''.
Qed.

Lemma put_paragraphs_draw (widthOfTextAtSize : string -> Q -> Q) (ps : list string) :
  forall st : Pdf.Writer,
    (Pdf.yPosition st <= 792)%Q ->
    exists heights : list Q,
      length heights =
        length (concat (map (fun p => Pdf.wrapText widthOfTextAtSize p Pdf.maxWidth) ps)) /\
      Forall (fun y => (100 <= y <= 792)%Q) heights /\
      concat (Pdf.getPages (fold_left (Pdf.put_paragraph widthOfTextAtSize) ps st)) =
        concat (Pdf.getPages st) ++
        zip_with body_draw
          (concat (map (fun p => Pdf.wrapText widthOfTextAtSize p Pdf.maxWidth) ps))
          heights.
Proof.
  induction ps as [|p ps IH]; intros st Hy.
  - exists []. simpl. rewrite app_nil_r. now split_and!.
  - simpl fold_left.
    destruct (put_lines_draw (Pdf.wrapText widthOfTextAtSize p Pdf.maxWidth) st Hy)
      as (h1 & Hlen1 & Hall1 & Hdraw1 & Hy1).
    set (st1 := Pdf.put_paragraph widthOfTextAtSize st p).
    assert (Hpages : Pdf.getPages st1 =
              Pdf.getPages (fold_left Pdf.put_line
                              (Pdf.wrapText widthOfTextAtSize p Pdf.maxWidth) st))
      by reflexivity.
    assert (Hy2 : (Pdf.yPosition st1 <= 792)%Q).
    { subst st1. unfold Pdf.put_paragraph. cbn [Pdf.yPosition].
      unfold Pdf.lineHeight, Pdf.fontSize. lra. }
    destruct (IH st1 Hy2) as (h2 & Hlen2 & Hall2 & Hdraw2).
    exists (h1 ++ h2). simpl map. simpl concat. split_and!.
    + rewrite !length_app. now rewrite Hlen1, Hlen2.
    + now apply Forall_app.
    + rewrite Hdraw2, Hpages, Hdraw1, <- app_assoc. f_equal.
      now rewrite zip_with_app by (symmetry; exact Hlen1).
Qed.

(** X27. The body puts every wrapped line on paper once and in order, at
    the left margin and at a height between 100 and 792 points: from any
    pen height up to 792, the draws of the pages after the paragraphs are
    those before followed by one body text per line of the wrapped
    paragraphs. *)
Theorem put_paragraph_draws (widthOfTextAtSize : string -> Q -> Q)
    (ps : list string) (st : Pdf.Writer) :
  (Pdf.yPosition st <= 792)%Q ->
  exists heights : list Q,
    length heights =
      length (concat (map (fun p => Pdf.wrapText widthOfTextAtSize p Pdf.maxWidth) ps)) /\
    Forall (fun y => (100 <= y <= 792)%Q) heights /\
    concat (Pdf.getPages (fold_left (Pdf.put_paragraph widthOfTextAtSize) ps st)) =
      concat (Pdf.getPages st) ++
      zip_with body_draw
        (concat (map (fun p => Pdf.wrapText widthOfTextAtSize p Pdf.maxWidth) ps))
        heights.
Proof. apply put_paragraphs_draw. Qed.
Lemma heading_at_line (fecha name : string) : at_line (Pdf.heading fecha name) 10.
Proof. reflexivity. Qed.

(** A page takes forty-two lines: the forty-third opens the next one. *)
Lemma put_line_count (st : Pdf.Writer) (line : string) (c : Z) :
  1 <= c <= 42 -> at_line st c ->
  (c <= 41 /\ at_line (Pdf.put_line st line) (c + 1) /\
   length (Pdf.earlier (Pdf.put_line st line)) = length (Pdf.earlier st)) \/
  (c = 42 /\ at_line (Pdf.put_line st line) 1 /\
   length (Pdf.earlier (Pdf.put_line st line)) = S (length (Pdf.earlier st))).
Proof.
  unfold at_line, Pdf.lineHeight, Pdf.fontSize. intros Hc Hy. unfold Pdf.put_line.
  destruct (Pdf.Qltb (Pdf.yPosition st) (Pdf.margin + 50)) eqn:E.
  - apply Qltb_true in E. unfold Pdf.margin in E. right.
    assert (c = 42) as ->.
    { destruct (Z_le_gt_dec c 41) as [L|L]; [|lia].
      rewrite Zle_Qle in L. change (inject_Z 41) with 41%Q in L. lra. }
    cbn [Pdf.earlier Pdf.page Pdf.yPosition]. split_and!; [reflexivity| |].
    + unfold Pdf.pageHeight, Pdf.margin, Pdf.lineHeight, Pdf.fontSize.
      change (inject_Z 1) with 1%Q. lra.
    + rewrite length_app. simpl. lia.
  - apply Qltb_false in E. unfold Pdf.margin in E. left.
    assert (c <= 41).
    { destruct (Z_le_gt_dec c 41) as [L|L]; [exact L|].
      assert (L' : (42 <= c)%Z) by lia.
      rewrite Zle_Qle in L'. change (inject_Z 42) with 42%Q in L'. lra. }
    cbn [Pdf.earlier Pdf.page Pdf.yPosition]. split_and!; [assumption| |reflexivity].
    rewrite inject_Z_plus. change (inject_Z 1) with 1%Q.
    unfold Pdf.lineHeight, Pdf.fontSize. lra.
Qed.

Lemma put_lines_count (lines : list string) :
  forall (st : Pdf.Writer) (c : Z),
    1 <= c <= 42 -> at_line st c ->
    Z.of_nat (length (Pdf.earlier (fold_left Pdf.put_line lines st))) =
    Z.of_nat (length (Pdf.earlier st)) + (c - 1 + Z.of_nat (length lines)) / 42.
Proof.
  induction lines as [|line lines IH]; intros st c Hc Hy.
  - simpl. rewrite Z.add_0_r. rewrite Z.div_small by lia. lia.
  - simpl fold_left.
    replace (Z.of_nat (length (line :: lines))) with (1 + Z.of_nat (length lines))
      by (simpl length; lia).
    pose proof (Nat2Z.is_nonneg (length lines)) as Hk.
    destruct (put_line_count st line c Hc Hy) as [(Hc' & Hy' & Hlen)|(-> & Hy' & Hlen)].
    + rewrite (IH _ (c + 1)) by (lia || assumption). rewrite Hlen.
      f_equal. f_equal. lia.
    + rewrite (IH _ 1) by (lia || assumption). rewrite Hlen.
      replace (42 - 1 + (1 + Z.of_nat (length lines)))
        with (1 * 42 + (1 - 1 + Z.of_nat (length lines))) by lia.
      rewrite Z.div_add_l by lia. lia.
Qed.

(** X28. The number of pages of the document: one, and one more for every
    forty-two lines of the body beyond the thirty-two that fit under the
    heading. *)
Theorem pdfDoc_page_count (widthOfTextAtSize : string -> Q -> Q)
    (fecha fileName transcription : string) :
  Z.of_nat (length (Pdf.pdfDoc widthOfTextAtSize fecha fileName transcription)) =
  1 + (9 + Z.of_nat (length (body_lines widthOfTextAtSize transcription))) / 42.
Proof.
  unfold Pdf.pdfDoc, body_lines. cbv zeta. rewrite length_imap.
  unfold Pdf.getPages. rewrite length_app. simpl length.
  rewrite paragraphs_clean.
  destruct (all_space (Pdf.cleanTextForPDF transcription)).
  - reflexivity.
  - simpl fold_left. simpl concat. rewrite app_nil_r.
    unfold Pdf.put_paragraph. cbn [Pdf.earlier].
    rewrite Nat2Z.inj_add.
    rewrite (put_lines_count _ _ 10 ltac:(lia) (heading_at_line _ _)).
    change (10 - 1) with 9. simpl length. lia.
Qed.

Lemma all_printable_digits (s : string) :
  JsString.all_digits s = true -> all_printable s = true.
Proof.
  unfold all_printable, JsString.chars. induction s as [|c r IH]; simpl; [reflexivity|].
  intros H. apply andb_true_iff in H as [Hc Hr]. rewrite (IH Hr), andb_true_r.
  clear - Hc. destruct c as [[] [] [] [] [] [] [] []]; (reflexivity || discriminate Hc).
Qed.

Lemma split_parts_printable (sep : ascii) (s : string) :
  all_printable s = true ->
  all_printable (Pdf.split_parts sep s).1 = true /\
  Forall (fun word => all_printable word = true) (Pdf.split_parts sep s).2.
Proof.
  unfold all_printable, JsString.chars. induction s as [|c r IH]; simpl; [now split|].
  intros H. apply andb_true_iff in H as [Hc Hr].
  destruct (Pdf.split_parts sep r) as [h t]. destruct (IH Hr) as [Hh Ht].
  destruct (Ascii.eqb c sep); simpl in *.
  - split; [reflexivity|]. now constructor.
  - rewrite Hc. now split.
Qed.

Lemma wrap_loop_printable (widthOfTextAtSize : string -> Q -> Q) (maxW : Q)
    (words : list string) :
  forall (lines : list string) (cur : string),
    Forall (fun word => all_printable word = true) words ->
    Forall (fun line => all_printable line = true) lines ->
    all_printable cur = true ->
    Forall (fun line => all_printable line = true)
      (Pdf.wrap_loop widthOfTextAtSize maxW words lines cur).1 /\
    all_printable (Pdf.wrap_loop widthOfTextAtSize maxW words lines cur).2 = true.
Proof.
  induction words as [|word rest IH]; intros lines cur Hw Hl Hc; [now split|].
  inversion Hw as [|? ? Hword Hrest]; subst. simpl.
  destruct (Qle_bool _ maxW).
  - apply IH; [assumption|assumption|].
    destruct (Pdf.truthy cur); [|assumption].
    rewrite !all_printable_append, Hc, Hword. reflexivity.
  - apply IH; [assumption| |assumption].
    destruct (Pdf.truthy cur); [|assumption].
    apply Forall_app. split; [assumption|]. now constructor.
Qed.

Lemma wrapText_printable (widthOfTextAtSize : string -> Q -> Q) (maxW : Q)
    (text : string) :
  all_printable text = true ->
  Forall (fun line => all_printable line = true)
    (Pdf.wrapText widthOfTextAtSize text maxW).
Proof.
  intros Ht. unfold Pdf.wrapText, Pdf.split. cbv zeta.
  pose proof (split_parts_printable " " text Ht) as [Hh Hw].
  destruct (Pdf.split_parts " " text) as [h t]. simpl in Hh, Hw.
  pose proof (wrap_loop_printable widthOfTextAtSize maxW (h :: t) [] ""
                (Forall_cons_2 _ _ _ Hh Hw) (Forall_nil_2 _) eq_refl) as [Hl Hc].
  destruct (Pdf.wrap_loop _ _ _ _ _) as [lines cur]. simpl in Hl, Hc.
  destruct (Pdf.truthy cur); [|assumption].
  apply Forall_app. split; [assumption|]. now constructor.
Qed.

(** X29. Every text of the document is printable as soon as the date text
    is: the title, the cleaned file name, the lines of the body and the
    footers have no code unit outside the two ranges that the cleaning
    allows. *)
Theorem pdfDoc_printable (widthOfTextAtSize : string -> Q -> Q)
    (fecha fileName transcription : string) (page : Pdf.Page) (d : Pdf.Draw)
    (text : string) :
  all_printable fecha = true ->
  page ∈ Pdf.pdfDoc widthOfTextAtSize fecha fileName transcription ->
  d ∈ page -> drawn_text d = Some text ->
  all_printable text = true.
Proof.
  intros Hfecha Hpage Hd Htext. unfold Pdf.pdfDoc in Hpage. cbv zeta in Hpage.
  apply elem_of_lookup_imap in Hpage as (i & p & -> & Hp).
  unfold Pdf.put_footer in Hd. cbv zeta in Hd.
  apply elem_of_app in Hd as [Hd|Hd].
  - assert (Hin : d ∈ concat (Pdf.getPages
                    (fold_left (Pdf.put_paragraph widthOfTextAtSize)
                       (Pdf.paragraphs (Pdf.cleanTextForPDF transcription))
                       (Pdf.heading fecha (Pdf.cleanTextForPDF fileName))))).
    { apply list_elem_of_In, in_concat. exists p.
      split; apply list_elem_of_In; [eapply list_elem_of_lookup_2; exact Hp|exact Hd]. }
    destruct (put_paragraphs_draw widthOfTextAtSize
                (Pdf.paragraphs (Pdf.cleanTextForPDF transcription))
                (Pdf.heading fecha (Pdf.cleanTextForPDF fileName)))
      as (heights & _ & _ & Hdraws); [vm_compute; discriminate|].
    rewrite Hdraws in Hin. clear Hdraws Hp Hd.
    apply elem_of_app in Hin as [Hin|Hin].
    + unfold Pdf.heading, Pdf.getPages in Hin. cbv zeta in Hin. simpl in Hin.
      repeat (apply elem_of_cons in Hin as [->|Hin]);
        try (now apply not_elem_of_nil in Hin); simpl in Htext;
        try discriminate Htext; injection Htext as <-.
      * reflexivity.
      * apply all_printable_clean.
      * rewrite all_printable_append. now rewrite Hfecha.
    + apply elem_of_zip_with in Hin as (line & y & -> & Hline & _).
      simpl in Htext. injection Htext as <-.
      apply list_elem_of_In, in_concat in Hline as (ls & Hls & Hline).
      apply in_map_iff in Hls as (par & <- & Hpar).
      rewrite paragraphs_clean in Hpar.
      destruct (all_space (Pdf.cleanTextForPDF transcription)); [destruct Hpar|].
      destruct Hpar as [<-|[]].
      pose proof (wrapText_printable widthOfTextAtSize Pdf.maxWidth _
                    (all_printable_clean transcription)) as Hall.
      rewrite Forall_forall in Hall. apply Hall. now apply list_elem_of_In.
  - repeat (apply elem_of_cons in Hd as [->|Hd]);
      try (now apply not_elem_of_nil in Hd); simpl in Htext; injection Htext as <-.
    + rewrite !all_printable_append.
      repeat match goal with
             | |- context [all_printable (JsString.of_Z ?z)] =>
                 rewrite (all_printable_digits (JsString.of_Z z))
                   by (apply all_digits_of_Z; lia)
             end.
      reflexivity.
    + reflexivity.
Qed.

(** ** The further properties at concrete inputs *)

Lemma sample_split :
  splitMP3IntoChunks "/tmp/in.mp3" big_size sample_world =
  (Ok sample_chunks, (splitMP3IntoChunks "/tmp/in.mp3" big_size sample_world).2).
Proof. apply pair_of_fst. vm_compute. reflexivity. Defined.

(** The three-byte file declared 39 MB: two chunks, two paths. *)
Lemma splitMP3IntoChunks_distinct_paths_witness : NoDup sample_chunks.
Proof.
  exact (splitMP3IntoChunks_distinct_paths "/tmp/in.mp3" big_size sample_world _ _
           sample_split).
Defined.

Lemma splitMP3IntoChunks_chunk_bound_witness :
  exists data : list byte,
    fs (splitMP3IntoChunks "/tmp/in.mp3" big_size sample_world).2
      !! "/tmp/chunk_0_1700000000000.mp3"%string = Some data /\
    Z.of_nat (length data) <= CHUNK_SIZE.
Proof.
  apply (proj2 (splitMP3IntoChunks_chunk_bound "/tmp/in.mp3" big_size sample_world _ _
                  sample_split)).
  apply elem_of_cons. left. reflexivity.
Defined.

(** The three-byte file declared two bytes long: one chunk, of two bytes. *)
Lemma splitMP3IntoChunks_declared_size_witness :
  exists (chunks : list string) (w' : World) (contents : list (list byte)),
    splitMP3IntoChunks "/tmp/in.mp3" 2 sample_world = (Ok chunks, w') /\
    length chunks = Z.to_nat (ceil_div 2 CHUNK_SIZE) /\
    Forall2 (fun p data => fs w' !! p = Some data) chunks contents /\
    concat contents = take (Z.to_nat 2) sample_bytes.
Proof.
  exact (splitMP3IntoChunks_declared_size "/tmp/in.mp3" 2 sample_world sample_bytes eq_refl).
Defined.

Lemma splitMP3IntoChunks_frame_witness :
  calls (splitMP3IntoChunks "/tmp/in.mp3" big_size sample_world).2 = calls sample_world /\
  timers (splitMP3IntoChunks "/tmp/in.mp3" big_size sample_world).2 = timers sample_world /\
  ticks (splitMP3IntoChunks "/tmp/in.mp3" big_size sample_world).2
    = (ticks sample_world + length sample_chunks)%nat.
Proof.
  exact (proj2 (splitMP3IntoChunks_frame "/tmp/in.mp3" big_size sample_world _ _
                  sample_split)).
Defined.

(** A small file answered ["t0"]. *)
Lemma processAudioFile_transcript_of_log_witness :
  exists new : list Call,
    calls (processAudioFile (transcribeAudio_of RetryingEndpoint) "/tmp/in.mp3" 3 "in.mp3"
             sample_world).2 = calls sample_world ++ new /\
    "t0"%string = JsString.join separator (reply_texts new).
Proof.
  apply (processAudioFile_transcript_of_log RetryingEndpoint "/tmp/in.mp3" 3 "in.mp3"
           sample_world).
  apply pair_of_fst. vm_compute. reflexivity.
Defined.

(** A small file with the service offline: nothing happens on disk. *)
Lemma processAudioFile_direct_no_disk_effect_witness :
  fs (processAudioFile (transcribeAudio_of RetryingEndpoint) "/tmp/in.mp3" 3 "in.mp3"
        offline_world).2 = fs offline_world /\
  ticks (processAudioFile (transcribeAudio_of RetryingEndpoint) "/tmp/in.mp3" 3 "in.mp3"
           offline_world).2 = ticks offline_world.
Proof.
  apply (processAudioFile_direct_no_disk_effect RetryingEndpoint "/tmp/in.mp3" 3 "in.mp3"
           offline_world).
  vm_compute. discriminate.
Defined.

Lemma chunked_run_has_two_chunks_witness :
  (2 <= length sample_chunks)%nat /\
  Z.of_nat (length sample_chunks) = ceil_div big_size CHUNK_SIZE.
Proof.
  apply (chunked_run_has_two_chunks "/tmp/in.mp3" big_size sample_world
           (splitMP3IntoChunks "/tmp/in.mp3" big_size sample_world).2 sample_chunks).
  - reflexivity.
  - exact sample_split.
Defined.

Lemma processAudioFile_accepts_nonblank_witness :
  (processAudioFile (transcribeAudio_of MinimalEndpoint) "/tmp/in.mp3" 3 "in.mp3"
     sample_world).1 = Ok (JsString.join separator ["t0"%string]).
Proof.
  apply (processAudioFile_accepts_nonblank MinimalEndpoint "/tmp/in.mp3" 3 "in.mp3"
           sample_world
           (collect_transcriptions (transcribeAudio_of MinimalEndpoint)
              "/tmp/in.mp3" 3 sample_world).2
           ["t0"%string] []).
  - reflexivity.
  - apply pair_of_fst. vm_compute. reflexivity.
  - constructor. reflexivity.
Defined.

(** The input file itself survives a chunked run. *)
Lemma processAudioFile_keeps_other_files_witness :
  fs (processAudioFile (transcribeAudio_of MinimalEndpoint) "/tmp/in.mp3" big_size "in.mp3"
        sample_world).2 !! "/tmp/in.mp3"%string
  = fs sample_world !! "/tmp/in.mp3"%string.
Proof.
  apply (processAudioFile_keeps_other_files MinimalEndpoint "/tmp/in.mp3" big_size "in.mp3"
           sample_world "/tmp/in.mp3").
  intros i t E. discriminate E.
Defined.

(** A form without the audio file. *)
Lemma POST_early_exits_witness :
  POST RetryingEndpoint (mkRequest (Ok None)) sample_world
  = (JsonError msg_no_file 400, sample_world).
Proof.
  apply (proj2 (proj2 (proj2 (POST_early_exits RetryingEndpoint (mkRequest (Ok None))
                                sample_world)) "sk-test"%string eq_refl eq_refl)).
  reflexivity.
Defined.

(** The sample upload is answered with the renderer's one byte. *)
Lemma POST_document_origin_witness :
  exists transcript : string,
    JsString.trim transcript <> ""%string /\
    renderer sample_world (file_name sample_upload) transcript = Ok [x25]%byte.
Proof.
  destruct (POST_document_origin MinimalEndpoint sample_request sample_world
              (POST MinimalEndpoint sample_request sample_world).2
              [x25]%byte 200 (attachment "a.mp3"))
    as (file & transcript & Hfile & _ & _ & Htrim & Hrender & _).
  - apply pair_of_fst. vm_compute. reflexivity.
  - injection Hfile as <-. exists transcript. split; [exact Htrim|exact Hrender].
Defined.

Lemma attachment_keeps_first_stem_witness :
  attachment ("song" +:+ "." +:+ "v2.mp3")
    = ("attachment; filename=" +:+ quote +:+ "song" +:+ "_transcripcion.pdf" +:+ quote)%string /\
  attachment "song" = attachment ("song" +:+ "." +:+ "v2.mp3").
Proof. apply (attachment_keeps_first_stem "song" "v2.mp3"). reflexivity. Defined.

Lemma isSupportedFormat_any_case_witness :
  isSupportedFormat ("My talk" +:+ String "1" (String "." "Mp3")) = true.
Proof.
  apply (isSupportedFormat_any_case "My talk" "Mp3" "1").
  - discriminate.
  - apply includes_In. reflexivity.
Defined.

Lemma isSupportedFormat_needs_dot_witness : isSupportedFormat "/srv/README" = false.
Proof. apply (isSupportedFormat_needs_dot "/srv/README"). reflexivity. Defined.
Lemma isValidAudioFile_advertised_witness :
  Utils.isValidAudioFile (mkUploadedFile ("Voice memo" +:+ ".M4A") "" []) = true.
Proof.
  apply (isValidAudioFile_advertised "Voice memo" ".M4A" "" []).
  apply includes_In. reflexivity.
Defined.

(** The form takes the hidden file [.mp3]; the endpoint does not. *)
Lemma matches_pattern_vs_endpoint_witness :
  exists pre ext : string,
    ".mp3"%string = (pre +:+ String "." ext)%string /\
    JsString.toLowerCase ext ∈ Utils.pattern_extensions /\
    (isSupportedFormat ".mp3" = true <->
     JsString.toLowerCase ext <> "aac"%string /\ pre <> ""%string /\
     JsString.endsWith "/" pre = false).
Proof. exact (matches_pattern_vs_endpoint ".mp3" eq_refl). Defined.

(** Three words of three characters on lines of five characters. *)
Lemma wrapText_lines_witness :
  "bbb"%string <> ""%string /\
  ((sample_width "bbb" Pdf.fontSize <= 30)%Q \/ lacks " " "bbb" = true).
Proof.
  apply (wrapText_lines sample_width "aaa bbb ccc" 30 "bbb").
  apply list_elem_of_In. vm_compute. right. left. reflexivity.
Defined.

(** One paragraph of two words under the heading. *)
Lemma put_paragraph_draws_witness :
  exists heights : list Q,
    length heights =
      length (concat (map (fun p => Pdf.wrapText sample_width p Pdf.maxWidth) ["a b"%string])) /\
    Forall (fun y => (100 <= y <= 792)%Q) heights /\
    concat (Pdf.getPages (fold_left (Pdf.put_paragraph sample_width) ["a b"%string]
                            (Pdf.heading "hoy" "f.mp3"))) =
      concat (Pdf.getPages (Pdf.heading "hoy" "f.mp3")) ++
      zip_with body_draw
        (concat (map (fun p => Pdf.wrapText sample_width p Pdf.maxWidth) ["a b"%string]))
        heights.
Proof.
  apply (put_paragraph_draws sample_width ["a b"%string] (Pdf.heading "hoy" "f.mp3")).
  vm_compute. discriminate.
Defined.

(** Two fragments joined by the separator: the line that is drawn. *)
Lemma pdfDoc_printable_witness :
  all_printable "a??b" = true.
Proof.
  apply (pdfDoc_printable sample_width "hoy" "f.mp3" ("a" +:+ separator +:+ "b")
           (hd [] (Pdf.pdfDoc sample_width "hoy" "f.mp3" ("a" +:+ separator +:+ "b")))
           (body_draw "a??b" 627) "a??b").
  - reflexivity.
  - apply list_elem_of_In. vm_compute. left. reflexivity.
  - apply list_elem_of_In. vm_compute. do 4 right. left. reflexivity.
  - reflexivity.
Defined.

(** * The disk that can fail *)

(** ** The chunker and the clean-up under faults *)

Lemma faulty_writeFile_ok (F : Faults) (p : string) (data : list byte) (w : World) :
  write_fault F p = None -> Faulty.writeFile F p data w = writeFile p data w.
Proof. intros H. unfold Faulty.writeFile. now rewrite H. Qed.

Lemma faulty_writeFile_inv (F : Faults) (p : string) (data : list byte) (w w' : World)
    (u : unit) :
  Faulty.writeFile F p data w = (Ok u, w') ->
  write_fault F p = None /\ writeFile p data w = (Ok u, w').
Proof.
  unfold Faulty.writeFile. destruct (write_fault F p) as [[e [d|]]|];
    [discriminate|discriminate|now split].
Qed.

(** A run of the chunker that returns met no fault: it is the run on the
    disk that never fails. *)
Lemma faulty_split_loop_Ok (F : Faults) (buf : list byte) (size : Z) (ext : string)
    (todo : nat) :
  forall (i : Z) (acc l : list string) (w w' : World),
    Faulty.split_loop F buf size ext todo i acc w = (Ok l, w') ->
    split_loop buf size ext todo i acc w = (Ok l, w').
Proof.
  induction todo as [|todo IH]; intros i acc l w w' H; [exact H|].
  simpl in H |- *. unfold bind, os_tmpdir, Date_now in H |- *. simpl in H |- *.
  destruct (Faulty.writeFile F _ _ _) as [[u|e] w1] eqn:E; [|discriminate H].
  apply faulty_writeFile_inv in E as [_ E]. unfold writeFile in E.
  injection E as _ <-. now apply IH.
Qed.

Lemma faulty_split_Ok (F : Faults) (filePath : string) (fileSize : Z) (w w1 : World)
    (chunks : list string) :
  Faulty.splitMP3IntoChunks F filePath fileSize w = (Ok chunks, w1) ->
  splitMP3IntoChunks filePath fileSize w = (Ok chunks, w1).
Proof.
  unfold Faulty.splitMP3IntoChunks, splitMP3IntoChunks, bind, Faulty.readFile.
  destruct (read_fault F filePath); [discriminate|].
  destruct (readFile filePath w) as [[buf|e] w0]; [|discriminate].
  apply faulty_split_loop_Ok.
Qed.

Lemma faulty_split_loop_reliable (F : Faults) (buf : list byte) (size : Z) (ext : string)
    (todo : nat) :
  (forall p : string, write_fault F p = None) ->
  forall (i : Z) (acc : list string) (w : World),
    Faulty.split_loop F buf size ext todo i acc w = split_loop buf size ext todo i acc w.
Proof.
  intros HF. induction todo as [|todo IH]; intros i acc w; [reflexivity|].
  simpl. unfold bind, os_tmpdir, Date_now. simpl.
  rewrite faulty_writeFile_ok by apply HF. unfold writeFile. apply IH.
Qed.

Lemma faulty_split_reliable (F : Faults) (filePath : string) (fileSize : Z) (w : World) :
  (forall p : string, write_fault F p = None) ->
  Faulty.splitMP3IntoChunks F filePath fileSize w =
  match read_fault F filePath with
  | Some e => (Throw e, w)
  | None => splitMP3IntoChunks filePath fileSize w
  end.
Proof.
  intros HF. unfold Faulty.splitMP3IntoChunks, splitMP3IntoChunks, bind, Faulty.readFile.
  destruct (read_fault F filePath); [reflexivity|].
  destruct (readFile filePath w) as [[buf|e] w0]; [|reflexivity].
  now apply faulty_split_loop_reliable.
Qed.

(** The [finally] block removes the chunks that can be removed and leaves
    the others. *)
Lemma faulty_clean_chunks_spec (F : Faults) (l : list string) (w : World) :
  Faulty.clean_chunks F l w =
  (Ok tt, with_fs (remove_all (List.filter (removable F) l) (fs w)) w).
Proof.
  revert w. induction l as [|p l IH]; intros w; simpl.
  - unfold ret, remove_all. simpl. now rewrite with_fs_id.
  - unfold bind, try_catch, Faulty.unlink, removable.
    destruct (unlink_fault F p) as [e|].
    + unfold ret. apply IH.
    + unfold unlink. destruct (fs w !! p) eqn:E.
      * rewrite IH. reflexivity.
      * unfold ret. rewrite IH. unfold remove_all. simpl.
        now rewrite (delete_id (fs w) p E).
Qed.

Lemma faulty_clean_chunks_lookup (F : Faults) (l : list string) (w : World) (p : string) :
  fs (Faulty.clean_chunks F l w).2 !! p =
  if decide (p ∈ l) then (if removable F p then None else fs w !! p) else fs w !! p.
Proof.
  rewrite faulty_clean_chunks_spec. simpl. rewrite lookup_remove_all.
  destruct (decide (p ∈ l)) as [Hin|Hnin].
  - destruct (removable F p) eqn:R.
    + rewrite decide_True; [reflexivity|].
      apply list_elem_of_In, filter_In. split; [now apply list_elem_of_In|exact R].
    + rewrite decide_False; [reflexivity|].
      intros H. apply list_elem_of_In, filter_In in H as [_ H]. congruence.
  - rewrite decide_False; [reflexivity|].
    intros H. apply list_elem_of_In, filter_In in H as [H _].
    now apply list_elem_of_In in H.
Qed.

Section FaultyOrchestrator.

Variable F : Faults.
Variable transcribeAudio : string -> M string.

Lemma faulty_processAudioFile_unsupported (filePath : string) (fileSize : Z)
    (originalName : string) (w : World) :
  isSupportedFormat originalName = false ->
  Faulty.processAudioFile F transcribeAudio filePath fileSize originalName w =
  (Throw (Error (msg_unsupported (JsString.toLowerCase (Path.extname originalName)))), w).
Proof. intros H. unfold Faulty.processAudioFile. now rewrite H. Qed.

(** Up to the threshold the disk is not used: the run is the one on the
    disk that never fails. *)
Lemma faulty_processAudioFile_direct (filePath : string) (fileSize : Z)
    (originalName : string) (w : World) :
  fileSize <= MAX_SIZE ->
  Faulty.processAudioFile F transcribeAudio filePath fileSize originalName w =
  processAudioFile transcribeAudio filePath fileSize originalName w.
Proof.
  intros Hle. unfold Faulty.processAudioFile, processAudioFile.
  destruct (negb (isSupportedFormat originalName)); [reflexivity|].
  unfold Faulty.process_try, process_try, Faulty.collect_transcriptions,
    collect_transcriptions.
  destruct (Z.leb_spec fileSize MAX_SIZE); [|lia].
  destruct (transcribeAudio filePath w) as [[t|e] w1]; reflexivity.
Qed.

Lemma faulty_processAudioFile_chunked (filePath : string) (fileSize : Z)
    (originalName : string) (w w1 : World) (chunks : list string) :
  isSupportedFormat originalName = true -> MAX_SIZE < fileSize ->
  Faulty.splitMP3IntoChunks F filePath fileSize w = (Ok chunks, w1) ->
  Faulty.processAudioFile F transcribeAudio filePath fileSize originalName w =
  match transcribe_chunks transcribeAudio chunks 0 (Z.of_nat (length chunks)) [] w1 with
  | (Ok ts, w2) => (combine_transcriptions ts, (Faulty.clean_chunks F chunks w2).2)
  | (Throw e, w2) => (Throw e, (Faulty.clean_chunks F chunks w2).2)
  end.
Proof.
  intros Hfmt Hgt Hrun.
  unfold Faulty.processAudioFile, Faulty.process_try, Faulty.collect_transcriptions.
  rewrite Hfmt. simpl. destruct (Z.leb_spec fileSize MAX_SIZE); [lia|].
  rewrite Hrun.
  destruct (transcribe_chunks transcribeAudio chunks 0 _ [] w1) as [[ts|e] w2];
    reflexivity.
Qed.

Hypothesis transcribe_frame : forall (p : string) (w : World),
  fs (transcribeAudio p w).2 = fs w /\ same_env w (transcribeAudio p w).2.

(** The disk after a run whose chunker returned: the chunks that can be
    removed are gone, the others are as the chunker wrote them, and every
    other path is as before the call. *)
Lemma faulty_chunked_disk (filePath : string) (fileSize : Z) (originalName : string)
    (w w1 : World) (chunks : list string) (p : string) :
  isSupportedFormat originalName = true -> MAX_SIZE < fileSize ->
  Faulty.splitMP3IntoChunks F filePath fileSize w = (Ok chunks, w1) ->
  fs (Faulty.processAudioFile F transcribeAudio filePath fileSize originalName w).2 !! p =
  if decide (p ∈ chunks) then (if removable F p then None else fs w1 !! p)
  else fs w !! p.
Proof.
  intros Hfmt Hgt Hrun.
  rewrite (faulty_processAudioFile_chunked _ _ _ _ _ _ Hfmt Hgt Hrun).
  destruct (transcribe_chunks_frame transcribeAudio transcribe_frame chunks 0
              (Z.of_nat (length chunks)) [] w1) as [Hfs _].
  assert (Hgoal : forall w2, fs w2 = fs w1 ->
            fs (Faulty.clean_chunks F chunks w2).2 !! p =
            if decide (p ∈ chunks) then (if removable F p then None else fs w1 !! p)
            else fs w !! p).
  { intros w2 E. rewrite faulty_clean_chunks_lookup, E.
    destruct (decide (p ∈ chunks)) as [|Hnin]; [reflexivity|].
    apply faulty_split_Ok in Hrun.
    destruct (split_Ok_readable _ _ _ _ _ Hrun) as [buf Hfile].
    destruct (splitMP3IntoChunks_spec filePath fileSize w buf Hfile)
      as (chunks' & w1' & Hrun' & _ & _ & _ & _ & _ & Hother).
    rewrite Hrun in Hrun'. injection Hrun' as <- <-. now apply Hother. }
  destruct (transcribe_chunks transcribeAudio chunks 0 _ [] w1) as [[ts|e] w2];
    simpl in Hfs; now apply Hgoal.
Qed.

End FaultyOrchestrator.
Lemma removable_true (F : Faults) (p : string) :
  removable F p = true <-> unlink_fault F p = None.
Proof. unfold removable. destruct (unlink_fault F p); split; congruence. Qed.

(** C2, amended. The call aborts on the first chunk whose transcription
    throws, with an error and no transcript. The clean-up is best effort:
    below the threshold and for a refused format no file is touched; once
    the chunker has returned, every chunk file whose [unlink] the disk does
    not refuse is gone when the call ends, however it ends, a chunk file
    whose [unlink] is refused stays as the chunker wrote it (the refusal is
    ignored), and every other path is as before the call. So nothing is left
    behind when no [unlink] is refused. Holds for both endpoints and for
    every fault of the disk. *)
Theorem processAudioFile_cleanup_best_effort (F : Faults) (ep : Endpoint)
    (filePath : string) (fileSize : Z) (originalName : string) (w w' : World)
    (r : Result string) :
  Faulty.processAudioFile F (transcribeAudio_of ep) filePath fileSize originalName w
    = (r, w') ->
  (isSupportedFormat originalName = false \/ fileSize <= MAX_SIZE -> fs w' = fs w) /\
  forall (chunks : list string) (w1 : World),
    isSupportedFormat originalName = true -> MAX_SIZE < fileSize ->
    Faulty.splitMP3IntoChunks F filePath fileSize w = (Ok chunks, w1) ->
    (forall p : string, p ∈ chunks -> unlink_fault F p = None -> fs w' !! p = None) /\
    (forall p : string, p ∈ chunks -> unlink_fault F p <> None ->
       fs w' !! p = fs w1 !! p) /\
    (forall p : string, p ∉ chunks -> fs w' !! p = fs w !! p) /\
    ((forall p : string, p ∈ chunks -> unlink_fault F p = None) -> fs w' ⊆ fs w) /\
    (forall (pre post : list string) (chunk : string) (ts : list string)
            (wk wk' : World) (e : JsError),
       chunks = pre ++ chunk :: post ->
       transcribe_chunks (transcribeAudio_of ep) pre 0 (Z.of_nat (length chunks)) [] w1
         = (Ok ts, wk) ->
       transcribeAudio_of ep chunk wk = (Throw e, wk') ->
       r = Throw (Error (msg_chunk_failed (Z.of_nat (length pre))
                           (Z.of_nat (length chunks)) (message e)))).
Proof.
  intros Hrun. split.
  - intros [Hfmt|Hle].
    + rewrite faulty_processAudioFile_unsupported in Hrun by exact Hfmt.
      now injection Hrun as _ <-.
    + rewrite faulty_processAudioFile_direct in Hrun by exact Hle.
      destruct (isSupportedFormat originalName) eqn:Hfmt.
      * rewrite (processAudioFile_direct _ _ _ _ _ Hfmt Hle) in Hrun.
        destruct (transcribeAudio_of_frame ep filePath w) as [Hfs _].
        destruct (transcribeAudio_of ep filePath w) as [[t|e] w2];
          injection Hrun as _ <-; exact Hfs.
      * rewrite processAudioFile_unsupported in Hrun by exact Hfmt.
        now injection Hrun as _ <-.
  - intros chunks w1 Hfmt Hgt Hsplit.
    pose proof (fun p => faulty_chunked_disk F (transcribeAudio_of ep)
                           (transcribeAudio_of_frame ep) filePath fileSize originalName
                           w w1 chunks p Hfmt Hgt Hsplit) as Hdisk.
    rewrite Hrun in Hdisk. simpl in Hdisk.
    assert (Hgone : forall p, p ∈ chunks -> unlink_fault F p = None -> fs w' !! p = None).
    { intros p Hin Hp. rewrite Hdisk, decide_True by exact Hin.
      apply removable_true in Hp. now rewrite Hp. }
    assert (Hkeep : forall p, p ∉ chunks -> fs w' !! p = fs w !! p).
    { intros p Hnin. now rewrite Hdisk, decide_False by exact Hnin. }
    split_and!.
    + exact Hgone.
    + intros p Hin Hp. rewrite Hdisk, decide_True by exact Hin.
      destruct (removable F p) eqn:R; [|reflexivity].
      apply removable_true in R. contradiction.
    + exact Hkeep.
    + intros Hall. apply map_subseteq_spec. intros p x Hx.
      destruct (decide (p ∈ chunks)) as [Hin|Hnin].
      * rewrite (Hgone p Hin (Hall p Hin)) in Hx. discriminate Hx.
      * now rewrite <- (Hkeep p Hnin).
    + intros pre post chunk ts wk wk' e -> Hpre Hfail.
      rewrite (faulty_processAudioFile_chunked _ _ _ _ _ _ _ _ Hfmt Hgt Hsplit) in Hrun.
      rewrite (transcribe_chunks_fail _ pre post chunk _ ts w1 wk wk' e Hpre Hfail) in Hrun.
      now injection Hrun as <- _.
Qed.

(** The chunker on the 39 MB file: two chunks, the first of them on disk. *)
Lemma big_split (F : Faults) (w : World) :
  (forall p : string, write_fault F p = None) ->
  read_fault F "/tmp/upload_1_talk.mp3" = None ->
  fs w !! "/tmp/upload_1_talk.mp3"%string = Some big_bytes ->
  exists (c0 c1 : string) (w1 : World),
    Faulty.splitMP3IntoChunks F "/tmp/upload_1_talk.mp3" big_size w = (Ok [c0; c1], w1) /\
    fs w1 !! c0 <> None.
Proof.
  intros HF HR Hfile.
  rewrite faulty_split_reliable, HR by exact HF.
  destruct (splitMP3IntoChunks_spec "/tmp/upload_1_talk.mp3" big_size w big_bytes Hfile)
    as (chunks & w1 & Hrun & Hlen & _ & _ & _ & Hcontent & _).
  change (Z.to_nat (ceil_div big_size CHUNK_SIZE)) with 2%nat in Hlen.
  destruct chunks as [|c0 [|c1 [|c2 chunks]]]; try discriminate Hlen.
  exists c0, c1, w1. split; [exact Hrun|].
  rewrite (Hcontent 0%nat c0 eq_refl). discriminate.
Qed.

Lemma big_offline_file :
  fs big_offline_world !! "/tmp/upload_1_talk.mp3"%string = Some big_bytes.
Proof. apply lookup_singleton_eq. Qed.

(** C2 as stated fails. The 39 MB file ["talk.mp3"], the service offline, a
    disk that refuses every [unlink]: the chunker writes two chunks, the
    transcription of the first fails, the [finally] block ignores the two
    refusals, and the first chunk is still on disk after the call. *)
Lemma cleanup_as_stated_fails :
  Z.of_nat (length big_bytes) = big_size /\
  ~ cleanup_as_stated busy_disk MinimalEndpoint "/tmp/upload_1_talk.mp3" big_size
      "talk.mp3" big_offline_world.
Proof.
  split; [exact big_bytes_length|]. intros Hstated.
  destruct (big_split busy_disk big_offline_world (fun _ => eq_refl) eq_refl
              big_offline_file) as (c0 & c1 & w1 & Hsplit & Hc0).
  assert (Hin : c0 ∈ [c0; c1]) by (apply elem_of_cons; now left).
  specialize (Hstated [c0; c1] w1 c0 Hsplit Hin).
  rewrite (faulty_chunked_disk busy_disk (transcribeAudio_of MinimalEndpoint)
             (transcribeAudio_of_frame MinimalEndpoint) "/tmp/upload_1_talk.mp3"
             big_size "talk.mp3" big_offline_world w1 [c0; c1] c0 eq_refl eq_refl Hsplit)
    in Hstated.
  rewrite decide_True in Hstated by exact Hin.
  change (removable busy_disk c0) with false in Hstated. cbv iota in Hstated.
  contradiction.
Qed.

(** The same file on the disk that never fails: nothing is left behind. *)
Lemma processAudioFile_cleanup_best_effort_witness :
  fs (Faulty.processAudioFile no_faults (transcribeAudio_of MinimalEndpoint)
        "/tmp/upload_1_talk.mp3" big_size "talk.mp3" big_offline_world).2
  ⊆ fs big_offline_world.
Proof.
  destruct (big_split no_faults big_offline_world (fun _ => eq_refl) eq_refl
              big_offline_file) as (c0 & c1 & w1 & Hsplit & _).
  destruct (proj2 (processAudioFile_cleanup_best_effort no_faults MinimalEndpoint
                     "/tmp/upload_1_talk.mp3" big_size "talk.mp3" big_offline_world
                     _ _ (surjective_pairing _))
              [c0; c1] w1 eq_refl eq_refl Hsplit) as (_ & _ & _ & Hsub & _).
  apply Hsub. intros p _. reflexivity.
Defined.

(** X30. When the chunker throws (the file cannot be read, or a chunk
    cannot be written), [processAudioFile] throws the chunker's error and
    removes nothing: [chunksToClean] is filled only when the chunker has
    returned, so the world after the call is the world the chunker left,
    with the chunks it had written before the failure. Holds for every
    transcriber. *)
Theorem chunker_failure_skips_cleanup (F : Faults) (transcribeAudio : string -> M string)
    (filePath : string) (fileSize : Z) (originalName : string) (w w1 : World)
    (e : JsError) :
  isSupportedFormat originalName = true -> MAX_SIZE < fileSize ->
  Faulty.splitMP3IntoChunks F filePath fileSize w = (Throw e, w1) ->
  Faulty.processAudioFile F transcribeAudio filePath fileSize originalName w =
  (Throw e, w1).
Proof.
  intros Hfmt Hgt Hrun.
  unfold Faulty.processAudioFile, Faulty.process_try, Faulty.collect_transcriptions.
  rewrite Hfmt. simpl. destruct (Z.leb_spec fileSize MAX_SIZE); [lia|].
  rewrite Hrun. reflexivity.
Qed.

(** The disk is full at the second chunk: the first chunk stays. *)
Lemma chunker_failure_skips_cleanup_witness :
  Faulty.processAudioFile full_disk Minimal.transcribeAudio "/tmp/in.mp3" big_size
    "in.mp3" sample_world =
  (Throw (ENOSPC "/tmp/chunk_1_1700000000001.mp3"),
   (Faulty.splitMP3IntoChunks full_disk "/tmp/in.mp3" big_size sample_world).2) /\
  fs (Faulty.splitMP3IntoChunks full_disk "/tmp/in.mp3" big_size sample_world).2
    !! "/tmp/chunk_0_1700000000000.mp3"%string = Some sample_bytes.
Proof.
  split.
  - apply (chunker_failure_skips_cleanup full_disk Minimal.transcribeAudio "/tmp/in.mp3"
             big_size "in.mp3" sample_world).
    + reflexivity.
    + reflexivity.
    + apply pair_of_fst. vm_compute. reflexivity.
  - vm_compute. reflexivity.
Defined.
(** ** The transcript that a run produces *)

Lemma transcribeAudio_of_text (ep : Endpoint) (p : string) (w : World)
    (data : list byte) (t : string) :
  fs w !! p = Some data -> whisper w (length (calls w)) data = Text t ->
  transcribeAudio_of ep p w =
  (Ok t, with_calls (calls w ++ [mkCall p (Text t)]) w).
Proof.
  intros Hfile Hreply. destruct ep.
  - change (transcribeAudio_of MinimalEndpoint p w) with (transcriptions_create p w).
    now apply (create_text p w data).
  - change (transcribeAudio_of RetryingEndpoint p w) with (Retrying.transcribeAudio p 0 w).
    now apply (attempt_text p data).
Qed.

(** Chunks that are all answered with a text: the loop returns the texts in
    the order of the chunks and logs one request per chunk. *)
Lemma transcribe_chunks_texts (ep : Endpoint) (todo : list string) :
  forall (frags : list string) (i n : Z) (acc : list string) (w : World),
    length frags = length todo ->
    (forall (k : nat) (p f : string), todo !! k = Some p -> frags !! k = Some f ->
       exists data, fs w !! p = Some data /\
                    whisper w (length (calls w) + k) data = Text f) ->
    transcribe_chunks (transcribeAudio_of ep) todo i n acc w =
    (Ok (acc ++ frags),
     with_calls (calls w ++ zip_with mkCall todo (map Text frags)) w).
Proof.
  induction todo as [|p todo IH]; intros frags i n acc w Hlen Hans.
  - destruct frags; [|discriminate Hlen]. simpl. unfold ret.
    rewrite !app_nil_r. destruct w; reflexivity.
  - destruct frags as [|f frags]; [discriminate Hlen|].
    destruct (Hans 0%nat p f eq_refl eq_refl) as (data & Hfile & Hreply).
    rewrite Nat.add_0_r in Hreply.
    simpl. unfold bind, try_catch.
    rewrite (transcribeAudio_of_text ep p w data f Hfile Hreply).
    rewrite (IH frags (i + 1) n (acc ++ [f])
               (with_calls (calls w ++ [mkCall p (Text f)]) w)).
    + unfold with_calls. simpl. rewrite <- !app_assoc. reflexivity.
    + simpl in Hlen. lia.
    + intros k q g Hq Hg. destruct (Hans (S k) q g Hq Hg) as (d & Hd & Hr).
      exists d. split; [exact Hd|]. simpl. rewrite length_app. simpl.
      rewrite <- Hr. f_equal. lia.
Qed.

Lemma combine_transcriptions_nonblank (fragments : list string) :
  Exists (fun f => JsString.blank f = false) fragments ->
  combine_transcriptions fragments = Ok (JsString.join separator fragments).
Proof.
  intros Hex. unfold combine_transcriptions.
  destruct (Z.eqb_spec (JsString.len (JsString.trim (JsString.join separator fragments))) 0)
    as [Hz|]; [|reflexivity].
  exfalso.
  assert (Hempty : JsString.trim (JsString.join separator fragments) = ""%string).
  { unfold JsString.len in Hz.
    destruct (JsString.trim (JsString.join separator fragments)); [reflexivity|].
    simpl in Hz. lia. }
  apply trim_empty_iff, join_blank in Hempty.
  apply Exists_exists in Hex as (f & Hin & Hf).
  rewrite Forall_forall in Hempty. rewrite (Hempty f Hin) in Hf. discriminate.
Qed.

(** C8. The code produces the joined transcript. For a readable file of a
    supported format whose units (the whole file up to the threshold, the
    chunks above it) are each answered with a text, the texts not all
    blank, [processAudioFile] returns the texts joined with the separator
    in the order of the units: request number [k] is on unit [k], it is
    answered by fragment [k], there is one request per unit, and for two
    fragments the result is the first, the separator, the second. Holds
    for both endpoints. *)
Theorem processAudioFile_joins_in_order (ep : Endpoint) (filePath : string)
    (fileSize : Z) (originalName : string) (w : World) (fileBuffer : list byte)
    (fragments : list string) :
  isSupportedFormat originalName = true ->
  fs w !! filePath = Some fileBuffer ->
  length fragments = units fileSize ->
  (forall (k : nat) (f : string), fragments !! k = Some f ->
     whisper w (length (calls w) + k) (unit_bytes fileBuffer fileSize k) = Text f) ->
  Exists (fun f => JsString.blank f = false) fragments ->
  exists (paths : list string) (w' : World),
    processAudioFile (transcribeAudio_of ep) filePath fileSize originalName w
      = (Ok (JsString.join separator fragments), w') /\
    (if fileSize <=? MAX_SIZE then paths = [filePath]
     else exists w1, splitMP3IntoChunks filePath fileSize w = (Ok paths, w1)) /\
    length paths = length fragments /\
    calls w' = calls w ++ zip_with mkCall paths (map Text fragments) /\
    (forall f1 f2 : string, fragments = [f1; f2] ->
       JsString.join separator fragments = f1 +:+ separator +:+ f2).
Proof.
  intros Hfmt Hfile Hlen Hans Hex.
  assert (Htwo : forall f1 f2 : string, fragments = [f1; f2] ->
            JsString.join separator fragments = (f1 +:+ separator +:+ f2)%string)
    by (intros f1 f2 ->; reflexivity).
  unfold units, unit_bytes in *.
  destruct (Z.leb_spec fileSize MAX_SIZE) as [Hle|Hgt].
  - destruct fragments as [|f [|g fragments]]; try discriminate Hlen.
    pose proof (Hans 0%nat f eq_refl) as Hreply. rewrite Nat.add_0_r in Hreply.
    exists [filePath], (with_calls (calls w ++ [mkCall filePath (Text f)]) w).
    rewrite (processAudioFile_direct _ _ _ _ _ Hfmt Hle).
    rewrite (transcribeAudio_of_text ep filePath w fileBuffer f Hfile Hreply).
    rewrite (combine_transcriptions_nonblank [f] Hex).
    split_and!; [reflexivity|reflexivity|reflexivity|reflexivity|exact Htwo].
  - destruct (splitMP3IntoChunks_spec filePath fileSize w fileBuffer Hfile)
      as (chunks & w1 & Hsplit & Hn & Henv & Hcalls & _ & Hcontent & _).
    destruct Henv as (_ & _ & _ & Hwhisper & _).
    rewrite (processAudioFile_chunked _ _ _ _ _ _ _ Hfmt Hgt Hsplit).
    rewrite (transcribe_chunks_texts ep chunks fragments 0 (Z.of_nat (length chunks)) [] w1).
    + change ([] ++ fragments) with fragments. cbv beta iota.
      rewrite (combine_transcriptions_nonblank fragments Hex).
      eexists chunks, _. split_and!; [reflexivity|eauto|congruence| |exact Htwo].
      simpl. now rewrite Hcalls.
    + congruence.
    + intros k p f Hp Hf. exists (unit_bytes fileBuffer fileSize k).
      unfold unit_bytes. destruct (Z.leb_spec fileSize MAX_SIZE); [lia|].
      split; [exact (Hcontent k p Hp)|].
      rewrite Hwhisper, Hcalls. exact (Hans k f Hf).
Qed.

Lemma big_world_file :
  fs big_world !! "/tmp/upload_1_talk.mp3"%string = Some big_bytes.
Proof. apply lookup_singleton_eq. Qed.

(** The 39 MB file, its two chunks answered ["t0"] and ["t1"]: the
    transcript is the two texts with the separator between them. *)
Lemma processAudioFile_joins_in_order_witness :
  exists w' : World,
    processAudioFile (transcribeAudio_of MinimalEndpoint) "/tmp/upload_1_talk.mp3"
      big_size "talk.mp3" big_world
    = (Ok ("t0" +:+ separator +:+ "t1")%string, w').
Proof.
  destruct (processAudioFile_joins_in_order MinimalEndpoint "/tmp/upload_1_talk.mp3"
              big_size "talk.mp3" big_world big_bytes ["t0"; "t1"]%string
              eq_refl big_world_file eq_refl)
    as (paths & w' & Hrun & _).
  - intros [|[|k]] f Hf; try discriminate Hf; injection Hf as <-; reflexivity.
  - constructor. reflexivity.
  - exists w'. exact Hrun.
Defined.
(** ** The request handler on the disk that can fail *)

(** With an accepted key and a file in the form, [POST] stores the upload,
    and when that succeeds it runs [processAudioFile] and the renderer. *)
Lemma faulty_POST_with_file (F : Faults) (ep : Endpoint) (req : Request) (w : World)
    (key : string) (file : UploadedFile) :
  OPENAI_API_KEY w = Some key -> key_accepted ep key = true ->
  req_formData req = Ok (Some file) ->
  Faulty.POST F ep req w =
  match Faulty.writeFile F (upload_path w file) (file_bytes file)
          (with_ticks (S (ticks w)) w) with
  | (Throw e, w2) =>
      (JsonError (or_default (message e) msg_generic) 500,
       (try_catch (Faulty.unlink F (upload_path w file)) (fun _ => ret tt) w2).2)
  | (Ok _, w2) =>
      match Faulty.processAudioFile F (transcribeAudio_of ep) (upload_path w file)
              (file_size file) (file_name file) w2 with
      | (Ok transcription, w3) =>
          match renderer w3 (file_name file) transcription with
          | Ok pdfBytes => (PdfDocument pdfBytes 200 (attachment (file_name file)), w3)
          | Throw e =>
              (JsonError (or_default (message e) msg_generic) 500,
               (try_catch (Faulty.unlink F (upload_path w file)) (fun _ => ret tt) w3).2)
          end
      | (Throw e, w3) =>
          (JsonError (or_default (message e) msg_generic) 500,
           (try_catch (Faulty.unlink F (upload_path w file)) (fun _ => ret tt) w3).2)
      end
  end.
Proof.
  intros Hkey Hacc Hform. unfold Faulty.POST, Faulty.POST_try. rewrite Hkey, Hform.
  apply andb_true_iff in Hacc as [Hne Hsk]. apply negb_true_iff in Hne. rewrite Hne.
  replace (match ep with
           | MinimalEndpoint => false
           | RetryingEndpoint => negb (JsString.startsWith "sk-" key)
           end) with false by (destruct ep; [reflexivity|now rewrite Hsk]).
  fold (upload_path w file).
  destruct (Faulty.writeFile F _ _ _) as [[u|e] w2]; [|reflexivity].
  destruct (Faulty.processAudioFile _ _ _ _ _ w2) as [[t|e] w3]; [|reflexivity].
  unfold generatePDF. now destruct (renderer w3 (file_name file) t).
Qed.

(** Without an accepted key or without a file the disk is not used. *)
Lemma faulty_POST_early (F : Faults) (ep : Endpoint) (req : Request) (w : World) :
  (forall key file, OPENAI_API_KEY w = Some key -> key_accepted ep key = true ->
                    req_formData req = Ok (Some file) -> False) ->
  Faulty.POST F ep req w = POST ep req w.
Proof.
  intros Hno. unfold Faulty.POST, POST, Faulty.POST_try, POST_try.
  destruct (OPENAI_API_KEY w) as [key|] eqn:Hk; [|reflexivity].
  destruct (String.eqb key "") eqn:Hne; [reflexivity|].
  destruct (match ep with
            | MinimalEndpoint => false
            | RetryingEndpoint => negb (JsString.startsWith "sk-" key)
            end) eqn:Hsk; [reflexivity|].
  destruct (req_formData req) as [[file|]|e] eqn:Hform; [|reflexivity|reflexivity].
  exfalso. apply (Hno key file eq_refl); [|reflexivity].
  unfold key_accepted. rewrite Hne. simpl.
  destruct ep; [reflexivity|]. now apply negb_false_iff in Hsk.
Qed.

Lemma faulty_unlink_quiet_fs (F : Faults) (p : string) (w : World) :
  fs (try_catch (Faulty.unlink F p) (fun _ => ret tt) w).2 =
  if removable F p then delete p (fs w) else fs w.
Proof.
  unfold try_catch, Faulty.unlink, removable.
  destruct (unlink_fault F p); [reflexivity|]. apply unlink_quiet_fs.
Qed.

(** On a disk that refuses no write and no [unlink], [processAudioFile]
    leaves no file that was not there before. *)
Lemma faulty_processAudioFile_subseteq (F : Faults) (ep : Endpoint) (filePath : string)
    (fileSize : Z) (originalName : string) (w : World) :
  (forall p : string, write_fault F p = None) ->
  (forall p : string, unlink_fault F p = None) ->
  fs (Faulty.processAudioFile F (transcribeAudio_of ep) filePath fileSize originalName w).2
  ⊆ fs w.
Proof.
  intros HW HU.
  destruct (isSupportedFormat originalName) eqn:Hfmt;
    [|now rewrite faulty_processAudioFile_unsupported].
  destruct (Z.le_gt_cases fileSize MAX_SIZE) as [Hle|Hgt].
  { rewrite faulty_processAudioFile_direct by exact Hle.
    apply processAudioFile_subseteq. }
  assert (Hgt' : MAX_SIZE < fileSize) by lia.
  destruct (Faulty.splitMP3IntoChunks F filePath fileSize w) as [[chunks|e] w1] eqn:Hsplit.
  - apply map_subseteq_spec. intros p x.
    rewrite (faulty_chunked_disk F (transcribeAudio_of ep) (transcribeAudio_of_frame ep)
               filePath fileSize originalName w w1 chunks p Hfmt Hgt' Hsplit).
    destruct (decide (p ∈ chunks)); [|tauto].
    rewrite (proj2 (removable_true F p) (HU p)). discriminate.
  - assert (Hrun : Faulty.processAudioFile F (transcribeAudio_of ep) filePath fileSize
                     originalName w = (Throw e, w1)).
    { unfold Faulty.processAudioFile, Faulty.process_try, Faulty.collect_transcriptions.
      rewrite Hfmt. simpl. destruct (Z.leb_spec fileSize MAX_SIZE); [lia|].
      rewrite Hsplit. reflexivity. }
    rewrite Hrun. simpl.
    rewrite (faulty_split_reliable F filePath fileSize w HW) in Hsplit.
    destruct (read_fault F filePath); [now injection Hsplit as _ <-|].
    destruct (fs w !! filePath) as [buf|] eqn:Hfile.
    + destruct (splitMP3IntoChunks_spec filePath fileSize w buf Hfile)
        as (chunks & w1' & Hrun' & _). rewrite Hrun' in Hsplit. discriminate.
    + rewrite (splitMP3IntoChunks_missing _ _ _ Hfile) in Hsplit.
      now injection Hsplit as _ <-.
Qed.

(** X14. On a disk that refuses no write and no [unlink] (a read may
    fail), no request leaves litter other than the upload. When [POST]
    answers with an error, every file on disk was there before the request,
    with the same content; when it answers with the document, the same holds
    for every file but the stored upload. *)
Theorem POST_disk_after (F : Faults) (ep : Endpoint) (req : Request) (w : World) :
  (forall p : string, write_fault F p = None) ->
  (forall p : string, unlink_fault F p = None) ->
  match Faulty.POST F ep req w with
  | (JsonError _ _, w') => fs w' ⊆ fs w
  | (PdfDocument _ _ _, w') =>
      exists file, req_formData req = Ok (Some file) /\
                   delete (upload_path w file) (fs w') ⊆ fs w
  end.
Proof.
  intros HW HU.
  destruct (POST_early ep req w)
    as [(key & file & Hk & Hacc & Hform)|Hearly].
  - rewrite (faulty_POST_with_file F ep req w key file Hk Hacc Hform).
    rewrite faulty_writeFile_ok by apply HW.
    change (writeFile (upload_path w file) (file_bytes file) (with_ticks (S (ticks w)) w))
      with (Ok tt, after_upload w file).
    cbv beta iota.
    pose proof (faulty_processAudioFile_subseteq F ep (upload_path w file)
                  (file_size file) (file_name file) (after_upload w file) HW HU) as Hsub.
    assert (Hdel : forall w3 : World, fs w3 ⊆ fs (after_upload w file) ->
              delete (upload_path w file) (fs w3) ⊆ fs w).
    { intros w3 H3. etransitivity; [apply delete_mono, H3|].
      unfold after_upload. simpl. rewrite delete_insert_eq. apply delete_subseteq. }
    destruct (Faulty.processAudioFile _ _ _ _ _ (after_upload w file)) as [[t|e] w3];
      simpl in Hsub.
    + destruct (renderer w3 (file_name file) t).
      * exists file. auto.
      * rewrite faulty_unlink_quiet_fs, (proj2 (removable_true F _) (HU _)). auto.
    + rewrite faulty_unlink_quiet_fs, (proj2 (removable_true F _) (HU _)). auto.
  - rewrite faulty_POST_early.
    + destruct Hearly as [[-> _]|[[-> _]|[(e & -> & _)|[-> _]]]]; reflexivity.
    + intros key file Hk Hacc Hform.
      destruct Hearly
        as [[_ [Hn|Hn]]|[[_ (Hep & key' & Hk' & Hne & Hsk)]|[(e & _ & He)|[_ He]]]];
        try congruence.
      * rewrite Hk in Hn. injection Hn as ->. discriminate Hacc.
      * rewrite Hk in Hk'. injection Hk' as <-. subst ep. unfold key_accepted in Hacc.
        rewrite Hsk, andb_false_r in Hacc. discriminate Hacc.
Qed.

(** The sample upload on the disk that never fails. *)
Lemma POST_disk_after_witness :
  match Faulty.POST no_faults MinimalEndpoint sample_request sample_world with
  | (JsonError _ _, w') => fs w' ⊆ fs sample_world
  | (PdfDocument _ _ _, w') =>
      exists file, req_formData sample_request = Ok (Some file) /\
                   delete (upload_path sample_world file) (fs w') ⊆ fs sample_world
  end.
Proof.
  apply (POST_disk_after no_faults MinimalEndpoint sample_request sample_world);
    intros p; reflexivity.
Defined.

(** X15. An upload whose name has no path separator and whose extension
    is not supported, once it is stored (the disk accepts the write), is
    refused without any request to the service and answered with status 500
    and the message that names the lower-cased extension. Afterwards the
    world differs from the one before by the reading of the clock and by
    the upload's path only: no file is there when the disk lets the upload
    be removed, the upload itself when it refuses. *)
Theorem POST_unsupported_upload (F : Faults) (ep : Endpoint) (req : Request) (w : World)
    (key : string) (file : UploadedFile) :
  OPENAI_API_KEY w = Some key -> key_accepted ep key = true ->
  req_formData req = Ok (Some file) ->
  isSupportedFormat (file_name file) = false ->
  lacks "/" (file_name file) = true ->
  write_fault F (upload_path w file) = None ->
  Faulty.POST F ep req w =
    (JsonError (msg_unsupported (JsString.toLowerCase (Path.extname (file_name file)))) 500,
     with_fs (if removable F (upload_path w file)
              then delete (upload_path w file) (fs w)
              else <[upload_path w file := file_bytes file]> (fs w))
       (with_ticks (S (ticks w)) w)).
Proof.
  intros Hk Hacc Hform Hfmt _ Hwrite.
  rewrite (faulty_POST_with_file F ep req w key file Hk Hacc Hform).
  rewrite faulty_writeFile_ok by exact Hwrite.
  change (writeFile (upload_path w file) (file_bytes file) (with_ticks (S (ticks w)) w))
    with (Ok tt, after_upload w file).
  cbv beta iota.
  rewrite faulty_processAudioFile_unsupported by exact Hfmt.
  unfold after_upload, writeFile.
  unfold try_catch, Faulty.unlink, removable.
  destruct (unlink_fault F (upload_path w file)); [reflexivity|].
  unfold unlink. simpl. rewrite lookup_insert_eq. simpl.
  rewrite delete_insert_eq. reflexivity.
Qed.

(** ["talk.aiff"] on a disk that refuses every [unlink]: the upload stays. *)
Lemma POST_unsupported_upload_witness :
  Faulty.POST busy_disk MinimalEndpoint (mkRequest (Ok (Some aiff_upload))) sample_world =
  (JsonError (msg_unsupported (JsString.toLowerCase (Path.extname (file_name aiff_upload))))
     500,
   with_fs (if removable busy_disk (upload_path sample_world aiff_upload)
            then delete (upload_path sample_world aiff_upload) (fs sample_world)
            else <[upload_path sample_world aiff_upload := file_bytes aiff_upload]>
                   (fs sample_world))
     (with_ticks (S (ticks sample_world)) sample_world)).
Proof.
  apply (POST_unsupported_upload busy_disk MinimalEndpoint
           (mkRequest (Ok (Some aiff_upload))) sample_world "sk-test" aiff_upload);
    reflexivity.
Defined.
(** ** The disk that never fails is the disk of the first sections *)

Lemma filter_removable_no_faults (l : list string) :
  List.filter (removable no_faults) l = l.
Proof. induction l as [|p l IH]; simpl; [reflexivity|now rewrite IH]. Qed.

Lemma faulty_processAudioFile_reliable (transcribeAudio : string -> M string)
    (filePath : string) (fileSize : Z) (originalName : string) (w : World) :
  Faulty.processAudioFile no_faults transcribeAudio filePath fileSize originalName w =
  processAudioFile transcribeAudio filePath fileSize originalName w.
Proof.
  destruct (Z.le_gt_cases fileSize MAX_SIZE) as [Hle|Hgt];
    [now apply faulty_processAudioFile_direct|].
  unfold Faulty.processAudioFile, processAudioFile.
  destruct (negb (isSupportedFormat originalName)); [reflexivity|].
  unfold Faulty.process_try, process_try, Faulty.collect_transcriptions,
    collect_transcriptions.
  destruct (Z.leb_spec fileSize MAX_SIZE); [lia|].
  rewrite (faulty_split_reliable no_faults filePath fileSize w (fun _ => eq_refl)).
  simpl read_fault. cbv beta iota.
  destruct (splitMP3IntoChunks filePath fileSize w) as [[chunks|e] w1]; [|reflexivity].
  destruct (transcribe_chunks transcribeAudio chunks 0 _ [] w1) as [[ts|e] w2];
    now rewrite faulty_clean_chunks_spec, clean_chunks_spec, filter_removable_no_faults.
Qed.

Lemma faulty_POST_reliable (ep : Endpoint) (req : Request) (w : World) :
  Faulty.POST no_faults ep req w = POST ep req w.
Proof.
  unfold Faulty.POST, POST, Faulty.POST_try, POST_try.
  destruct (OPENAI_API_KEY w) as [key|]; [|reflexivity].
  destruct (String.eqb key ""); [reflexivity|].
  destruct (match ep with
            | MinimalEndpoint => false
            | RetryingEndpoint => negb (JsString.startsWith "sk-" key)
            end); [reflexivity|].
  destruct (req_formData req) as [[file|]|e]; [|reflexivity|reflexivity].
  cbv zeta. unfold Faulty.writeFile, Faulty.unlink. simpl write_fault. cbv beta iota.
  unfold writeFile at 1 2. cbv beta iota.
  rewrite faulty_processAudioFile_reliable.
  destruct (processAudioFile _ _ _ _ _) as [[t|e] w3]; [|reflexivity].
  destruct (generatePDF (file_name file) t w3) as [[pdf|e] w4]; reflexivity.
Qed.
